(** * The schema validation engine of express-schema-validator

    A shallow embedding of [src/SchemaValidator.ts]: the schema objects,
    the data bag, the error sink, the seven type checkers and the
    recursive validator [isValid].

    Conventions of the embedding.

    - JavaScript values are the inductive type [Value].  Arrays and plain
      objects are trees: a bag never holds the same array or object under
      two properties, as is the case for a bag merged from parsed path,
      query and body parameters.  An in-place update of a nested array or
      object is therefore written back into its parent.  Only own
      properties are modelled (no inherited ones, no [length] of an
      array), and strings are sequences of one-byte code units.
    - JavaScript numbers are IEEE doubles.  The engine only parses,
      compares and prints them, so they are kept abstract: the class
      [JsRuntime] lists the built-ins the engine calls, the validator is
      defined for every runtime, and [Js] further down is one executable
      runtime over exact decimals.
    - Schema objects are caller-owned and passed by reference.  They live
      in a heap ([Heap], a list indexed by location); [elementType] and
      [fields] hold locations.  [_.assign({}, x)] allocates a new cell.
    - A call either returns ([Val]), throws a [TypeError], or the model
      runs out of fuel.  Fuel bounds the nesting depth of checker calls. *)

From Stdlib Require Import String Ascii ZArith List Bool Lia.
From Stdlib Require Import Decimal DecimalString DecimalNat.
From stdpp Require Import base tactics option list.

Set Warnings "-register-all".
Local Open Scope list_scope.
Local Open Scope string_scope.

(** ** Values *)

Inductive Value {number : Type} : Type :=
| VUndefined
| VNull
| VBool (b : bool)
| VNum (n : number)
| VStr (s : string)
| VArr (elems : list Value)
| VObj (props : list (string * Value)).
Arguments Value : clear implicits.

Inductive JsType := Tundefined | Tobject | Tboolean | Tnumber | Tstring.

Definition JsType_eqb (a b : JsType) : bool :=
  match a, b with
  | Tundefined, Tundefined | Tobject, Tobject | Tboolean, Tboolean
  | Tnumber, Tnumber | Tstring, Tstring => true
  | _, _ => false
  end.

(** [typeof v]; [null], arrays and objects all answer ["object"]. *)
Definition typeof {number} (v : Value number) : JsType :=
  match v with
  | VUndefined => Tundefined
  | VNull | VArr _ | VObj _ => Tobject
  | VBool _ => Tboolean
  | VNum _ => Tnumber
  | VStr _ => Tstring
  end.

Definition Array_isArray {number} (v : Value number) : bool :=
  match v with VArr _ => true | _ => false end.

(** ** The built-ins the engine calls *)

Class JsRuntime (number : Type) := {
  num_isNaN : number -> bool;            (* isNaN(x) *)
  num_lt : number -> number -> bool;     (* x < y *)
  num_eq : number -> number -> bool;     (* x === y *)
  num_zero : number;                     (* 0 *)
  num_one : number;                      (* 1 *)
  num_of_nat : nat -> number;            (* a length as a number *)
  num_to_string : number -> string;      (* String(x) *)
  parseInt : Value number -> number;
  parseFloat : Value number -> number;
  JSON_parse : string -> option (Value number);     (* None: SyntaxError *)
  JSON_stringify : Value number -> option string    (* None: undefined *)
}.

(** ** Schemas and errors *)

Inductive SchemaType :=
| T_int | T_float | T_string | T_boolean | T_enum | T_array | T_object.

Inductive Symbol {number : Type} :=
| SymStr (s : string)
| SymNum (n : number).
Arguments Symbol : clear implicits.

Abbreviation loc := nat.

(** A schema object with the properties of all seven variants; a property
    the object does not carry is [None].  [elementType] and [fields]
    refer to other schema objects. *)
Module Sch.
Record Schema {number : Type} := mk {
  name : string;
  type : SchemaType;
  optional : option bool;
  min : option number;
  max : option number;
  length : option number;
  min_length : option number;
  max_length : option number;
  allowNumeric : option bool;
  symbols : option (list (Symbol number));
  elementType : option loc;
  fields : option (list loc)
}.
Arguments Schema : clear implicits.
Arguments mk {number}.

(** [schema.name = n] *)
Definition set_name {number} (n : string) (s : Schema number) : Schema number :=
  mk n (type s) (optional s) (min s) (max s) (length s) (min_length s)
     (max_length s) (allowNumeric s) (symbols s) (elementType s) (fields s).
End Sch.
Abbreviation Schema := Sch.Schema.

Module Err.
Record SchemaError {number : Type} := mk {
  name : string;
  type : SchemaType;
  value : Value number;
  description : string
}.
Arguments SchemaError : clear implicits.
Arguments mk {number}.
End Err.
Abbreviation SchemaError := Err.SchemaError.

(** The seven variants of the [Schema] union, as the callers write them. *)
Definition NumericSchema {number} (name : string) (type : SchemaType)
    (min max : option number) (optional : option bool) : Schema number :=
  Sch.mk name type optional min max None None None None None None None.

Definition StringSchema {number} (name : string)
    (length min_length max_length : option number) (optional : option bool)
    : Schema number :=
  Sch.mk name T_string optional None None length min_length max_length
         None None None None.

Definition BooleanSchema {number} (name : string)
    (allowNumeric : option bool) (optional : option bool) : Schema number :=
  Sch.mk name T_boolean optional None None None None None allowNumeric
         None None None.

Definition EnumSchema {number} (name : string) (symbols : list (Symbol number))
    (optional : option bool) : Schema number :=
  Sch.mk name T_enum optional None None None None None None (Some symbols)
         None None.

Definition ArraySchema {number} (name : string) (elementType : loc)
    (optional : option bool) : Schema number :=
  Sch.mk name T_array optional None None None None None None None
         (Some elementType) None.

Definition ObjectSchema {number} (name : string) (fields : list loc)
    (optional : option bool) : Schema number :=
  Sch.mk name T_object optional None None None None None None None None
         (Some fields).

(** ** Results of a call *)

Inductive result (A : Type) : Type :=
| Val (a : A)
| TypeError
| OutOfFuel.
Arguments Val {A}.
Arguments TypeError {A}.
Arguments OutOfFuel {A}.

#[global] Instance result_bind : MBind result := fun A B k r =>
  match r with
  | Val a => k a
  | TypeError => TypeError
  | OutOfFuel => OutOfFuel
  end.

(** ** Strings and properties *)

(** [s.endsWith(suffix)] *)
Definition endsWith (s suffix : string) : bool :=
  let n := String.length s in
  let m := String.length suffix in
  Nat.leb m n && String.eqb (substring (n - m) m s) suffix.

(** The template literal [`${i}`] of a loop counter. *)
Definition index_name (i : nat) : string :=
  NilZero.string_of_uint (Nat.to_uint i).

(** The index an array property name denotes, if it is below [len]. *)
Definition array_index (name : string) (len : nat) : option nat :=
  List.find (fun i => String.eqb (index_name i) name) (seq 0 len).

Fixpoint assoc_get {A} (k : string) (l : list (string * A)) : option A :=
  match l with
  | [] => None
  | (k', a) :: rest => if String.eqb k' k then Some a else assoc_get k rest
  end.

Fixpoint assoc_set {A} (k : string) (a : A) (l : list (string * A))
    : list (string * A) :=
  match l with
  | [] => [(k, a)]
  | (k', a') :: rest =>
      if String.eqb k' k then (k', a) :: rest
      else (k', a') :: assoc_set k a rest
  end.

Section Properties_of_values.
Context {number : Type}.

(** [name in data]; [None] is the TypeError of [in] on a non-object.
    Own properties only: the prototype chain is not followed, so that
    the answer is that of the code for every name but the inherited ones
    ([constructor], [toString], ..., and [length] on an array), listed
    as [built_in_names] below. *)
Definition has_property (data : Value number) (name : string) : option bool :=
  match data with
  | VObj props => Some (bool_decide (is_Some (assoc_get name props)))
  | VArr elems =>
      Some (bool_decide (is_Some (array_index name (List.length elems))))
  | _ => None
  end.

(** [data[name]].  Callers pass objects and arrays only: [isValid] has
    gone through [in] first, the array loop passes the array itself.
    Own properties only, as for [has_property]: an inherited name reads
    as [undefined] here and as a function (or the length) in the code. *)
Definition get (data : Value number) (name : string) : Value number :=
  match data with
  | VObj props => default VUndefined (assoc_get name props)
  | VArr elems =>
      match array_index name (List.length elems) with
      | Some i => default VUndefined (elems !! i)
      | None => VUndefined
      end
  | _ => VUndefined
  end.

(** [data[name] = v].  Every assignment of the engine is to a property
    that [data] already has; a name that is no index of the array is
    left alone here. *)
Definition set (data : Value number) (name : string) (v : Value number)
    : Value number :=
  match data with
  | VObj props => VObj (assoc_set name v props)
  | VArr elems =>
      match array_index name (List.length elems) with
      | Some i => VArr (<[i := v]> elems)
      | None => data
      end
  | _ => data
  end.

Definition is_null (v : Value number) : bool :=
  match v with VNull => true | _ => false end.

Definition is_undefined (v : Value number) : bool :=
  match v with VUndefined => true | _ => false end.

End Properties_of_values.

(** [l.join(sep)] *)
Fixpoint join (sep : string) (l : list string) : string :=
  match l with
  | [] => EmptyString
  | [x] => x
  | x :: rest => x ++ sep ++ join sep rest
  end.

(** ** The engine *)

(** The heap of schema objects. *)
Abbreviation Heap number := (list (Schema number)).

Section Engine.
Context {number : Type} {RT : JsRuntime number}.

(** What a call leaves behind: the schema heap, the bag it was given, the
    error sink, and the verdict it returns. *)
Definition Outcome : Type :=
  Heap number * Value number * list (SchemaError number) * bool.

(** Truthiness of a number: neither zero nor NaN. *)
Definition num_truthy (x : number) : bool :=
  negb (num_eq x num_zero || num_isNaN x).

(** [x === y] *)
Definition strict_eq (x y : Value number) : bool :=
  match x, y with
  | VUndefined, VUndefined | VNull, VNull => true
  | VBool a, VBool b => Bool.eqb a b
  | VNum a, VNum b => num_eq a b
  | VStr a, VStr b => String.eqb a b
  | _, _ => false
  end.

(** The comparison of [Array.prototype.includes]: as [===], but NaN is
    equal to itself.  Arrays and objects are compared by identity and are
    never identical to an entry of the lists searched here. *)
Definition SameValueZero (x y : Value number) : bool :=
  match x, y with
  | VNum a, VNum b => num_eq a b || (num_isNaN a && num_isNaN b)
  | _, _ => strict_eq x y
  end.

Definition includes (l : list (Value number)) (v : Value number) : bool :=
  existsb (fun x => SameValueZero x v) l.

Definition symbol_value (s : Symbol number) : Value number :=
  match s with SymStr x => VStr x | SymNum n => VNum n end.

Definition symbol_text (s : Symbol number) : string :=
  match s with SymStr x => x | SymNum n => num_to_string n end.

(** The expression of lines 100 and 252: the next error path. *)
Definition joinPath (path name : string) : string :=
  if String.eqb path EmptyString then name
  else if endsWith path "[" then path ++ name ++ "]"
  else path ++ "." ++ name.

Definition pushError (errors : list (SchemaError number)) (path name : string)
    (type : SchemaType) (value : Value number) (desc : string)
    : list (SchemaError number) :=
  let _name := joinPath path name in
  (errors ++ [Err.mk _name type value desc])%list.

(** [b || b === 0] for an optional numeric bound [b]. *)
Definition bound_set (b : option number) : bool :=
  match b with
  | Some x => num_truthy x || num_eq x num_zero
  | None => false
  end.

(** [b && ...] for the optional [length]. *)
Definition bound_truthy (b : option number) : bool :=
  match b with
  | Some x => num_truthy x
  | None => false
  end.

(** [x < b] and [x > b] against an optional bound; a comparison with
    [undefined] is false. *)
Definition lt_bound (x : number) (b : option number) : bool :=
  match b with Some y => num_lt x y | None => false end.

Definition gt_bound (x : number) (b : option number) : bool :=
  match b with Some y => num_lt y x | None => false end.

Definition NumberTypeChecker (schema : Schema number) (data : Value number)
    (errors : list (SchemaError number)) (path : string)
    : Value number * list (SchemaError number) * bool :=
  let value := get data (Sch.name schema) in
  let parsedValue :=
    match Sch.type schema with
    | T_int => parseInt value
    | _ => parseFloat value
    end in
  if num_isNaN parsedValue then
    (data, pushError errors path (Sch.name schema) (Sch.type schema) value
                     "not a number", false)
  else if bound_set (Sch.min schema)
          && lt_bound parsedValue (Sch.min schema) then
    (data, pushError errors path (Sch.name schema) (Sch.type schema) value
                     "less than min", false)
  else if bound_set (Sch.max schema)
          && gt_bound parsedValue (Sch.max schema) then
    (data, pushError errors path (Sch.name schema) (Sch.type schema) value
                     "greater than max", false)
  else
    (set data (Sch.name schema) (VNum parsedValue), errors, true).

(** [value.length] of the string checker; [None] is the TypeError of a
    property read on [undefined]. *)
Definition length_of (v : Value number) : option number :=
  match v with
  | VStr s => Some (num_of_nat (String.length s))
  | _ => None
  end.

Definition TypeChecker_string (schema : Schema number) (data : Value number)
    (errors : list (SchemaError number)) (path : string)
    : result (Value number * list (SchemaError number) * bool) :=
  let value := get data (Sch.name schema) in
  let value :=
    if negb (JsType_eqb (typeof value) Tstring) then
      match JSON_stringify value with
      | Some s => VStr s
      | None => VUndefined
      end
    else value in
  let fail desc :=
    Val (data, pushError errors path (Sch.name schema) (Sch.type schema) value
                         desc, false) in
  let len
      (k : number ->
           result (Value number * list (SchemaError number) * bool)) :=
    match length_of value with Some n => k n | None => TypeError end in
  let check_max :=
    if bound_set (Sch.max_length schema) then
      len (fun n =>
        if gt_bound n (Sch.max_length schema)
        then fail "length greater than max"
        else Val (set data (Sch.name schema) value, errors, true))
    else Val (set data (Sch.name schema) value, errors, true) in
  let check_min :=
    if bound_set (Sch.min_length schema) then
      len (fun n =>
        if lt_bound n (Sch.min_length schema) then fail "length less than min"
        else check_max)
    else check_max in
  if bound_truthy (Sch.length schema) then
    len (fun n =>
      if negb (match Sch.length schema with
               | Some l => num_eq n l
               | None => false
               end)
      then fail "length not match"
      else check_min)
  else check_min.

Definition TypeChecker_boolean (schema : Schema number) (data : Value number)
    (errors : list (SchemaError number)) (path : string)
    : Value number * list (SchemaError number) * bool :=
  let value := get data (Sch.name schema) in
  let allowedValues :=
    ([VBool true; VBool false; VStr "true"; VStr "false"] ++
     (if negb (bool_decide (Sch.allowNumeric schema = Some false)) then
        [VNum num_zero; VNum num_one; VStr "0"; VStr "1"]
      else []))%list in
  if negb (includes allowedValues value) then
    (data, pushError errors path (Sch.name schema) (Sch.type schema) value
                     "not boolean", false)
  else
    (set data (Sch.name schema)
         (if strict_eq value (VStr "true") || strict_eq value (VStr "1")
          then VBool true else value),
     errors, true).

Definition TypeChecker_enum (schema : Schema number) (data : Value number)
    (errors : list (SchemaError number)) (path : string)
    : result (Value number * list (SchemaError number) * bool) :=
  let value := get data (Sch.name schema) in
  if negb (JsType_eqb (typeof value) Tnumber) &&
     negb (JsType_eqb (typeof value) Tstring) then
    Val (data, pushError errors path (Sch.name schema) (Sch.type schema) value
                         "not number or string", false)
  else
    match Sch.symbols schema with
    | None => TypeError
    | Some symbols =>
        let valid := includes (map symbol_value symbols) value in
        if negb valid then
          Val (data, pushError errors path (Sch.name schema) (Sch.type schema)
                 value
                 ("invalid symbol, valid symbols : ["
                    ++ join ", " (map symbol_text symbols) ++ "]"),
               false)
        else Val (data, errors, true)
    end.

(** The checker table [TypeChecker[type]] as the composite checkers see
    it: they are written against it, and [TypeChecker] below is the table
    itself. *)
Definition Checker : Type :=
  SchemaType -> Heap number -> loc -> Value number ->
  list (SchemaError number) ->
  string -> result Outcome.

(** The value an array or object checker goes on with (lines 205-211 and
    237-243): a string is replaced by what it parses to, if it parses. *)
Definition parse_fallback (is_wanted : Value number -> bool)
    (value : Value number) : Value number :=
  if negb (is_wanted value) then
    match value with
    | VStr s =>
        match JSON_parse s with
        | Some parsed => parsed
        | None => value
        end
    | _ => value
    end
  else value.

(** The loop of lines 221-229 over the indices still to visit.
    [elementSchema] is the location [clone]; [ty] is
    [schema.elementType.type], [None] when [elementType] is missing. *)
Fixpoint array_loop (TC : Checker) (ty : option SchemaType) (clone : loc)
    (indices : list nat) (st : Heap number) (value : Value number)
    (errors : list (SchemaError number)) (path : string) (valid : bool)
    : result Outcome :=
  match indices with
  | [] => Val (st, value, errors, valid)
  | i :: rest =>
      let st := alter (Sch.set_name (index_name i)) clone st in
      if valid then
        match ty with
        | None => TypeError
        | Some t =>
            '(st, value, errors, valid) ← TC t st clone value errors path;
            array_loop TC ty clone rest st value errors path valid
        end
      else array_loop TC ty clone rest st value errors path valid
  end.

Definition TypeChecker_array (TC : Checker) (st : Heap number)
    (schema : Schema number)
    (data : Value number) (errors : list (SchemaError number)) (path : string)
    : result Outcome :=
  let raw := get data (Sch.name schema) in
  let value := parse_fallback Array_isArray raw in
  if negb (Array_isArray raw) && negb (Array_isArray value) then
    Val (st, data,
         pushError errors path (Sch.name schema) (Sch.type schema) value
                   "array expected",
         false)
  else
    let data := if negb (Array_isArray raw)
                then set data (Sch.name schema) value else data in
    let length :=
      match value with VArr elems => List.length elems | _ => 0 end in
    (* const elementSchema = {}; _.assign(elementSchema, schema.elementType) *)
    let template := Sch.elementType schema ≫= (fun l => st !! l) in
    let clone := List.length st in
    let st := match template with
              | Some t => (st ++ [t])%list
              | None => st
              end in
    let path : string :=
                if negb (String.eqb path EmptyString)
                then (path ++ "." ++ Sch.name schema ++ "[")%string
                else (Sch.name schema ++ "[")%string in
    '(st, value, errors, valid) ←
       array_loop TC (Sch.type <$> template) clone (seq 0 length) st value
                  errors path true;
    Val (st, set data (Sch.name schema) value, errors, valid).

(** The loop of lines 267-271. *)
Fixpoint isValid_loop (single : Heap number -> loc -> Value number ->
                                list (SchemaError number) -> string ->
                                result Outcome)
    (entries : list loc) (st : Heap number) (data : Value number)
    (errors : list (SchemaError number)) (path : string) (valid : bool)
    : result Outcome :=
  match entries with
  | [] => Val (st, data, errors, valid)
  | entry :: rest =>
      if valid then
        '(st, data, errors, valid) ← single st entry data errors path;
        isValid_loop single rest st data errors path valid
      else isValid_loop single rest st data errors path valid
  end.

(** Lines 274-282: [isValid] on one schema object. *)
Definition isValid_single (TC : Checker) (st : Heap number) (l : loc)
    (data : Value number) (errors : list (SchemaError number)) (path : string)
    : result Outcome :=
  match st !! l with
  | None => TypeError
  | Some schema =>
      match has_property data (Sch.name schema) with
      | None => TypeError
      | Some present =>
          let value := get data (Sch.name schema) in
          if negb present || is_null value || is_undefined value then
            if bool_decide (Sch.optional schema = Some true) then
              Val (st, data, errors, true)
            else
              Val (st, data,
                   pushError errors path (Sch.name schema) (Sch.type schema)
                             value "not found",
                   false)
          else TC (Sch.type schema) st l data errors path
      end
  end.

(** The argument of [isValid]: one schema or a sequence of schemas. *)
Inductive SchemaArg :=
| One (l : loc)
| Many (entries : list loc).

Definition isValid_with (TC : Checker) (st : Heap number) (schema : SchemaArg)
    (data : Value number) (errors : list (SchemaError number)) (path : string)
    : result Outcome :=
  match schema with
  | Many entries =>
      isValid_loop (isValid_single TC) entries st data errors path true
  | One l => isValid_single TC st l data errors path
  end.

Definition TypeChecker_object (TC : Checker) (st : Heap number)
    (schema : Schema number)
    (data : Value number) (errors : list (SchemaError number)) (path : string)
    : result Outcome :=
  let raw := get data (Sch.name schema) in
  let is_object v := JsType_eqb (typeof v) Tobject in
  let value := parse_fallback is_object raw in
  if negb (is_object raw) && negb (is_object value) then
    Val (st, data,
         pushError errors path (Sch.name schema) (Sch.type schema) value
                   "object expected",
         false)
  else
    let data := if negb (is_object raw)
                then set data (Sch.name schema) value else data in
    let _path := joinPath path (Sch.name schema) in
    match Sch.fields schema with
    | None => TypeError
    | Some fields =>
        '(st, value, errors, valid) ←
           isValid_with TC st (Many fields) value errors _path;
        Val (st, set data (Sch.name schema) value, errors, valid)
    end.

Definition lift (st : Heap number)
    (r : Value number * list (SchemaError number) * bool) : result Outcome :=
  let '(data, errors, valid) := r in Val (st, data, errors, valid).

(** The table [TypeChecker]: [TypeChecker fuel ty st l] is
    [TypeChecker[ty]] applied to the schema object at [l]. *)
Fixpoint TypeChecker (fuel : nat) (ty : SchemaType) (st : Heap number) (l : loc)
    (data : Value number) (errors : list (SchemaError number)) (path : string)
    {struct fuel} : result Outcome :=
  match fuel with
  | 0 => OutOfFuel
  | S fuel =>
      match st !! l with
      | None => TypeError
      | Some schema =>
          match ty with
          | T_int | T_float =>
              lift st (NumberTypeChecker schema data errors path)
          | T_string =>
              r ← TypeChecker_string schema data errors path; lift st r
          | T_boolean =>
              lift st (TypeChecker_boolean schema data errors path)
          | T_enum =>
              r ← TypeChecker_enum schema data errors path; lift st r
          | T_array =>
              TypeChecker_array (TypeChecker fuel) st schema data errors path
          | T_object =>
              TypeChecker_object (TypeChecker fuel) st schema data errors path
          end
      end
  end.

(** [isValid(schema, data, errors, path)] *)
Definition isValid (fuel : nat) (st : Heap number) (schema : SchemaArg)
    (data : Value number) (errors : list (SchemaError number)) (path : string)
    : result Outcome :=
  isValid_with (TypeChecker fuel) st schema data errors path.

End Engine.

Arguments Outcome : clear implicits.
Arguments Checker : clear implicits.

(** ** An executable runtime

    Numbers are exact decimals [m * 10^e], NaN and the two infinities;
    the two zeros are not told apart (they are [===], print alike and
    compare alike).  Parsing and printing follow ECMAScript on one-byte
    strings; they agree with the double-precision built-ins as long as no
    rounding is involved, that is for decimals of at most 15 significant
    digits.  [JSON.parse] yields the properties of an object in the order
    of the text. *)

Module Js.

Inductive num :=
| NaN
| Inf (negative : bool)
| Fin (m e : Z).

Fixpoint strip_zeros (fuel : nat) (m e : Z) : Z * Z :=
  match fuel with
  | 0 => (m, e)
  | S fuel =>
      if (m mod 10 =? 0)%Z then strip_zeros fuel (m / 10)%Z (e + 1)%Z
      else (m, e)
  end.

(** The normal form: no factor ten in the mantissa, zero is [Fin 0 0]. *)
Definition fin (m e : Z) : num :=
  if (m =? 0)%Z then Fin 0 0
  else let '(m, e) := strip_zeros (Z.to_nat (Z.log2 (Z.abs m))) m e in Fin m e.

Definition isNaN (x : num) : bool :=
  match x with NaN => true | _ => false end.

Definition compare_fin (m1 e1 m2 e2 : Z) : comparison :=
  let e := Z.min e1 e2 in
  (m1 * 10 ^ (e1 - e) ?= m2 * 10 ^ (e2 - e))%Z.

Definition lt (x y : num) : bool :=
  match x, y with
  | NaN, _ | _, NaN => false
  | Inf a, Inf b => a && negb b
  | Inf a, Fin _ _ => a
  | Fin _ _, Inf b => negb b
  | Fin m1 e1, Fin m2 e2 =>
      match compare_fin m1 e1 m2 e2 with Lt => true | _ => false end
  end.

Definition eq (x y : num) : bool :=
  match x, y with
  | Inf a, Inf b => Bool.eqb a b
  | Fin m1 e1, Fin m2 e2 =>
      match compare_fin m1 e1 m2 e2 with Eq => true | _ => false end
  | _, _ => false
  end.

Definition of_nat (n : nat) : num := fin (Z.of_nat n) 0.

(** *** Characters *)

Definition is_digit (c : ascii) : bool :=
  let n := nat_of_ascii c in Nat.leb 48 n && Nat.leb n 57.

Definition digit_value (c : ascii) : Z := Z.of_nat (nat_of_ascii c - 48).

(** The value of a hexadecimal digit. *)
Definition hex_value (c : ascii) : option Z :=
  let n := nat_of_ascii c in
  if Nat.leb 48 n && Nat.leb n 57 then Some (Z.of_nat (n - 48))
  else if Nat.leb 65 n && Nat.leb n 70 then Some (Z.of_nat (n - 55))
  else if Nat.leb 97 n && Nat.leb n 102 then Some (Z.of_nat (n - 87))
  else None.

(** White space and line terminators that fit in one byte. *)
Definition is_space (c : ascii) : bool :=
  let n := nat_of_ascii c in
  Nat.leb 9 n && Nat.leb n 13 || Nat.eqb n 32 || Nat.eqb n 160.

Fixpoint trim_start (s : string) : string :=
  match s with
  | String c rest => if is_space c then trim_start rest else s
  | EmptyString => s
  end.

(** The longest prefix of decimal digits: its value, its length, the rest. *)
Fixpoint digits (s : string) (acc : Z) (len : nat) : Z * nat * string :=
  match s with
  | String c rest =>
      if is_digit c then digits rest (acc * 10 + digit_value c)%Z (S len)
      else (acc, len, s)
  | EmptyString => (acc, len, s)
  end.

Fixpoint hex_digits (s : string) (acc : Z) (len : nat) : Z * nat * string :=
  match s with
  | String c rest =>
      match hex_value c with
      | Some d => hex_digits rest (acc * 16 + d)%Z (S len)
      | None => (acc, len, s)
      end
  | EmptyString => (acc, len, s)
  end.

Fixpoint zeros (n : nat) : string :=
  match n with 0 => EmptyString | S n => String "0" (zeros n) end.

(** *** Number to string *)

Definition nat_text (n : nat) : string :=
  NilZero.string_of_uint (Nat.to_uint n).

Definition positive_text (m : Z) (e : Z) : string :=
  let s := NilZero.string_of_uint (N.to_uint (Z.to_N m)) in
  let k := Z.of_nat (String.length s) in
  let n := (k + e)%Z in
  if (k <=? n)%Z && (n <=? 21)%Z then s ++ zeros (Z.to_nat (n - k))
  else if (0 <? n)%Z && (n <=? 21)%Z then
    substring 0 (Z.to_nat n) s ++ "." ++
    substring (Z.to_nat n) (String.length s - Z.to_nat n) s
  else if (-6 <? n)%Z && (n <=? 0)%Z then "0." ++ zeros (Z.to_nat (- n)) ++ s
  else
    let exponent :=
      "e" ++ (if (0 <=? n - 1)%Z then "+" else "-") ++
      nat_text (Z.to_nat (Z.abs (n - 1))) in
    if (k =? 1)%Z then s ++ exponent
    else substring 0 1 s ++ "." ++ substring 1 (String.length s - 1) s
         ++ exponent.

Definition to_string (x : num) : string :=
  match x with
  | NaN => "NaN"
  | Inf false => "Infinity"
  | Inf true => "-Infinity"
  | Fin m e =>
      if (m =? 0)%Z then "0"
      else if (m <? 0)%Z then "-" ++ positive_text (- m) e
      else positive_text m e
  end.

(** [String(v)] *)
Fixpoint ToString (v : Value num) : string :=
  match v with
  | VUndefined => "undefined"
  | VNull => "null"
  | VBool true => "true"
  | VBool false => "false"
  | VNum x => to_string x
  | VStr s => s
  | VArr elems =>
      join ","
        ((fix each (l : list (Value num)) : list string :=
            match l with
            | [] => []
            | VUndefined :: rest | VNull :: rest => EmptyString :: each rest
            | e :: rest => ToString e :: each rest
            end) elems)
  | VObj _ => "[object Object]"
  end.

(** *** parseInt and parseFloat *)

Definition signed (s : string) : bool * string :=
  match s with
  | String "-" rest => (true, rest)
  | String "+" rest => (false, rest)
  | _ => (false, s)
  end.

Definition parseInt_string (s : string) : num :=
  let '(negative, s) := signed (trim_start s) in
  let '(value, len, _) :=
    match s with
    | String "0" (String "x" rest) | String "0" (String "X" rest) =>
        hex_digits rest 0 0
    | _ => digits s 0 0
    end in
  if Nat.eqb len 0 then NaN
  else fin (if negative then - value else value) 0.

(** The exponent part [e+12], if a complete one is there. *)
Definition exponent_part (s : string) : Z * string :=
  match s with
  | String "e" rest | String "E" rest =>
      let '(negative, after) := signed rest in
      let '(value, len, after) := digits after 0 0 in
      if Nat.eqb len 0 then (0%Z, s)
      else ((if negative then - value else value)%Z, after)
  | _ => (0%Z, s)
  end.

Definition parseFloat_string (s : string) : num :=
  let '(negative, s) := signed (trim_start s) in
  if String.prefix "Infinity" s then Inf negative
  else
    let '(int_part, int_len, s) := digits s 0 0 in
    let '(mantissa, frac_len, s) :=
      match s with
      | String "." rest =>
          let '(m, n, after) := digits rest int_part 0 in
          if Nat.eqb int_len 0 && Nat.eqb n 0 then (int_part, 0, s)
          else (m, n, after)
      | _ => (int_part, 0, s)
      end in
    if Nat.eqb int_len 0 && Nat.eqb frac_len 0 then NaN
    else
      let '(exponent, _) := exponent_part s in
      fin (if negative then - mantissa else mantissa)
          (exponent - Z.of_nat frac_len).

Definition parseInt (v : Value num) : num := parseInt_string (ToString v).
Definition parseFloat (v : Value num) : num := parseFloat_string (ToString v).

(** *** JSON.stringify *)

(** The double quote. *)
Definition dquote : ascii := ascii_of_nat 34.

Definition backslash : ascii := ascii_of_nat 92.

Definition hex_digit (n : nat) : ascii :=
  ascii_of_nat (if Nat.ltb n 10 then 48 + n else 87 + n).

(** A two-character escape: the backslash and [c]. *)
Definition escaped (c : ascii) : string :=
  String backslash (String c EmptyString).

Fixpoint escape (s : string) : string :=
  match s with
  | EmptyString => EmptyString
  | String c rest =>
      let n := nat_of_ascii c in
      (if Nat.eqb n 34 then escaped dquote
       else if Nat.eqb n 92 then escaped backslash
       else if Nat.eqb n 8 then escaped "b"
       else if Nat.eqb n 9 then escaped "t"
       else if Nat.eqb n 10 then escaped "n"
       else if Nat.eqb n 12 then escaped "f"
       else if Nat.eqb n 13 then escaped "r"
       else if Nat.ltb n 32 then
         escaped "u" ++ "00" ++
         String (hex_digit (n / 16)) (String (hex_digit (n mod 16)) EmptyString)
       else String c EmptyString) ++ escape rest
  end.

Definition quote (s : string) : string :=
  String dquote (escape s) ++ String dquote EmptyString.

(** [JSON.stringify(v)]; [None] is the result [undefined]. *)
Fixpoint stringify (v : Value num) : option string :=
  match v with
  | VUndefined => None
  | VNull => Some "null"
  | VBool true => Some "true"
  | VBool false => Some "false"
  | VNum (Fin m e) => Some (to_string (Fin m e))
  | VNum _ => Some "null"
  | VStr s => Some (quote s)
  | VArr elems =>
      Some ("[" ++
            join ","
              ((fix each (l : list (Value num)) : list string :=
                  match l with
                  | [] => []
                  | e :: rest => default "null" (stringify e) :: each rest
                  end) elems) ++
            "]")
  | VObj props =>
      Some ("{" ++
            join ","
              ((fix each (l : list (string * Value num)) : list string :=
                  match l with
                  | [] => []
                  | (k, e) :: rest =>
                      match stringify e with
                      | Some text => (quote k ++ ":" ++ text) :: each rest
                      | None => each rest
                      end
                  end) props) ++
            "}")
  end.

(** *** JSON.parse *)

Definition is_json_space (c : ascii) : bool :=
  let n := nat_of_ascii c in
  Nat.eqb n 32 || Nat.eqb n 9 || Nat.eqb n 10 || Nat.eqb n 13.

Fixpoint skip_space (s : string) : string :=
  match s with
  | String c rest => if is_json_space c then skip_space rest else s
  | EmptyString => s
  end.

(** The four hexadecimal digits of a unicode escape, for a code unit that
    fits in one byte. *)
Definition unicode_escape (s : string) : option (ascii * string) :=
  match s with
  | String a (String b (String c (String d rest))) =>
      match hex_value a, hex_value b, hex_value c, hex_value d with
      | Some 0%Z, Some 0%Z, Some x, Some y =>
          Some (ascii_of_nat (Z.to_nat (x * 16 + y)), rest)
      | _, _, _, _ => None
      end
  | _ => None
  end.

(** The characters of a string literal after its opening quote. *)
Fixpoint string_body (fuel : nat) (s : string) : option (string * string) :=
  match fuel with
  | 0 => None
  | S fuel =>
      match s with
      | EmptyString => None
      | String c rest =>
          let n := nat_of_ascii c in
          if Nat.eqb n 34 then Some (EmptyString, rest)
          else if Nat.eqb n 92 then
            match rest with
            | String e rest =>
                let m := nat_of_ascii e in
                let plain (x : nat) :=
                  '(body, rest) ← string_body fuel rest;
                  Some (String (ascii_of_nat x) body, rest) in
                if Nat.eqb m 34 then plain 34
                else if Nat.eqb m 92 then plain 92
                else if Nat.eqb m 47 then plain 47
                else if Nat.eqb m 98 then plain 8
                else if Nat.eqb m 102 then plain 12
                else if Nat.eqb m 110 then plain 10
                else if Nat.eqb m 114 then plain 13
                else if Nat.eqb m 116 then plain 9
                else if Nat.eqb m 117 then
                  '(x, rest) ← unicode_escape rest;
                  '(body, rest) ← string_body fuel rest;
                  Some (String x body, rest)
                else None
            | EmptyString => None
            end
          else if Nat.ltb n 32 then None
          else
            '(body, rest) ← string_body fuel rest;
            Some (String c body, rest)
      end
  end.

(** A JSON number: [-? (0 | [1-9][0-9]* ) (. [0-9]+)? ([eE] [+-]? [0-9]+)?] *)
Definition json_number (s : string) : option (num * string) :=
  let '(negative, s) :=
    match s with
    | String "-" rest => (true, rest)
    | _ => (false, s)
    end in
  let '(int_part, int_len, after) := digits s 0 0 in
  if Nat.eqb int_len 0 then None
  else if String.prefix "0" s && negb (Nat.eqb int_len 1) then None
  else
    let frac :=
      match after with
      | String "." rest =>
          let '(m, n, rest) := digits rest int_part 0 in
          if Nat.eqb n 0 then None else Some (m, n, rest)
      | _ => Some (int_part, 0, after)
      end in
    '(mantissa, frac_len, after) ← frac;
    let exponent :=
      match after with
      | String "e" rest | String "E" rest =>
          let '(neg, rest) := signed rest in
          let '(value, len, rest) := digits rest 0 0 in
          if Nat.eqb len 0 then None
          else Some ((if neg then - value else value)%Z, rest)
      | _ => Some (0%Z, after)
      end in
    '(exponent, after) ← exponent;
    Some (fin (if negative then - mantissa else mantissa)
              (exponent - Z.of_nat frac_len), after).

Definition literal (word : string) (v : Value num) (s : string)
    : option (Value num * string) :=
  if String.prefix word s
  then Some (v, substring (String.length word)
                          (String.length s - String.length word) s)
  else None.

Fixpoint json_value (fuel : nat) (s : string) : option (Value num * string) :=
  match fuel with
  | 0 => None
  | S fuel =>
      match skip_space s with
      | String "n" _ => literal "null" VNull (skip_space s)
      | String "t" _ => literal "true" (VBool true) (skip_space s)
      | String "f" _ => literal "false" (VBool false) (skip_space s)
      | String "[" rest =>
          match skip_space rest with
          | String "]" rest => Some (VArr [], rest)
          | _ =>
              '(elems, rest) ← json_elements fuel rest;
              Some (VArr elems, rest)
          end
      | String "{" rest =>
          match skip_space rest with
          | String "}" rest => Some (VObj [], rest)
          | _ =>
              '(props, rest) ← json_members fuel rest [];
              Some (VObj props, rest)
          end
      | String c rest =>
          if Ascii.eqb c dquote then
            '(body, rest) ← string_body (S (String.length rest)) rest;
            Some (VStr body, rest)
          else
            '(x, rest) ← json_number (String c rest);
            Some (VNum x, rest)
      | EmptyString => None
      end
  end
with json_elements (fuel : nat) (s : string)
    : option (list (Value num) * string) :=
  match fuel with
  | 0 => None
  | S fuel =>
      '(v, rest) ← json_value fuel s;
      match skip_space rest with
      | String "," rest =>
          '(elems, rest) ← json_elements fuel rest;
          Some (v :: elems, rest)
      | String "]" rest => Some ([v], rest)
      | _ => None
      end
  end
with json_members (fuel : nat) (s : string) (props : list (string * Value num))
    : option (list (string * Value num) * string) :=
  match fuel with
  | 0 => None
  | S fuel =>
      match skip_space s with
      | String c rest =>
          if Ascii.eqb c dquote then
            '(key, rest) ← string_body (S (String.length rest)) rest;
            match skip_space rest with
            | String ":" rest =>
                '(v, rest) ← json_value fuel rest;
                let props := assoc_set key v props in
                match skip_space rest with
                | String "," rest => json_members fuel rest props
                | String "}" rest => Some (props, rest)
                | _ => None
                end
            | _ => None
            end
          else None
      | EmptyString => None
      end
  end.

(** [JSON.parse(s)]; [None] is a SyntaxError. *)
Definition parse (s : string) : option (Value num) :=
  '(v, rest) ← json_value (S (String.length s)) s;
  if String.eqb (skip_space rest) EmptyString then Some v else None.

#[global] Instance runtime : JsRuntime num :=
  Build_JsRuntime num isNaN lt eq (Fin 0 0) (Fin 1 0) of_nat to_string
                  parseInt parseFloat parse stringify.

End Js.

(** ** Properties of bags *)

Section Bags.
Context {number : Type}.
Implicit Types (data v w : Value number) (elems : list (Value number)).
Implicit Types (props : list (string * Value number)) (n m : string).

Lemma to_uint_nonnil i : Nat.to_uint i ≠ Nil.
Proof.
  rewrite <- (DecimalNat.Unsigned.of_to i) at 1.
  rewrite DecimalNat.Unsigned.to_of. unfold unorm.
  by destruct (nzhead (Nat.to_uint i)).
Qed.

Lemma index_name_inj i j : index_name i = index_name j → i = j.
Proof.
  unfold index_name. intros H.
  apply (f_equal NilZero.uint_of_string) in H.
  rewrite !NilZero.usu in H by apply to_uint_nonnil.
  injection H as H. by apply DecimalNat.Unsigned.to_uint_inj.
Qed.

Lemma find_seq_unique (f : nat → bool) a len i :
  a ≤ i < a + len → f i = true → (∀ k, f k = true → k = i) →
  List.find f (seq a len) = Some i.
Proof.
  revert a. induction len as [|len IH]; intros a Hi Hf Huniq; [lia|].
  simpl. destruct (f a) eqn:Ha.
  - by rewrite (Huniq a Ha).
  - apply IH; [|done..]. destruct (decide (a = i)) as [->|]; [congruence|lia].
Qed.

Lemma array_index_name i len :
  i < len → array_index (index_name i) len = Some i.
Proof.
  intros Hi. apply find_seq_unique; [lia|apply String.eqb_refl|].
  intros k Hk%String.eqb_eq. by apply index_name_inj.
Qed.

Lemma array_index_Some n len i :
  array_index n len = Some i → n = index_name i ∧ i < len.
Proof.
  intros [Hin Heq]%List.find_some.
  apply String.eqb_eq in Heq. apply in_seq in Hin. split; [done|lia].
Qed.

Lemma get_index elems i :
  i < length elems →
  get (VArr elems) (index_name i) = default VUndefined (elems !! i).
Proof. intros Hi. simpl. by rewrite array_index_name. Qed.

Lemma set_index elems i v :
  i < length elems →
  set (VArr elems) (index_name i) v = VArr (<[i := v]> elems).
Proof. intros Hi. simpl. by rewrite array_index_name. Qed.

Lemma has_property_index elems i :
  i < length elems → has_property (VArr elems) (index_name i) = Some true.
Proof.
  intros Hi. simpl. by rewrite array_index_name.
Qed.

Lemma assoc_get_set_eq {A} n (a : A) (l : list (string * A)) :
  assoc_get n (assoc_set n a l) = Some a.
Proof.
  induction l as [|[k b] l IH]; simpl.
  - by rewrite String.eqb_refl.
  - destruct (String.eqb k n) eqn:E; simpl; rewrite E; auto.
Qed.

Lemma assoc_get_set_ne {A} n m (a : A) (l : list (string * A)) :
  n ≠ m → assoc_get m (assoc_set n a l) = assoc_get m l.
Proof.
  intros Hne. induction l as [|[k b] l IH]; simpl.
  - destruct (String.eqb n m) eqn:E; [|done].
    by apply String.eqb_eq in E.
  - destruct (String.eqb k n) eqn:E; simpl; [|by rewrite IH].
    apply String.eqb_eq in E as ->.
    destruct (String.eqb n m) eqn:E; [|done].
    by apply String.eqb_eq in E.
Qed.

Lemma assoc_set_set {A} n (a b : A) (l : list (string * A)) :
  assoc_set n b (assoc_set n a l) = assoc_set n b l.
Proof.
  induction l as [|[k c] l IH]; simpl.
  - by rewrite String.eqb_refl.
  - destruct (String.eqb k n) eqn:E; simpl; rewrite E; [done|]. by rewrite IH.
Qed.

Lemma assoc_set_get_id {A} n (a : A) (l : list (string * A)) :
  assoc_get n l = Some a → assoc_set n a l = l.
Proof.
  induction l as [|[k c] l IH]; simpl; [done|].
  destruct (String.eqb k n) eqn:E.
  - by intros [= ->].
  - intros H. by rewrite IH.
Qed.

Lemma set_set data n v w : set (set data n v) n w = set data n w.
Proof.
  destruct data as [| | | | |elems|props]; simpl; try done.
  - destruct (array_index n (length elems)) as [i|] eqn:E; simpl.
    + rewrite length_insert, E. by rewrite list_insert_insert_eq.
    + by rewrite E.
  - by rewrite assoc_set_set.
Qed.

Lemma get_set_eq data n v :
  has_property data n = Some true → get (set data n v) n = v.
Proof.
  destruct data as [| | | | |elems|props]; simpl; try done.
  - intros [= [i Hi]%bool_decide_eq_true]. rewrite Hi. simpl.
    rewrite length_insert, Hi.
    apply array_index_Some in Hi as [_ Hi].
    by rewrite list_lookup_insert_eq.
  - intros _. by rewrite assoc_get_set_eq.
Qed.

Lemma get_set_ne data n m v : n ≠ m → get (set data n v) m = get data m.
Proof.
  intros Hne. destruct data as [| | | | |elems|props]; simpl; try done.
  - destruct (array_index n (length elems)) as [i|] eqn:E; simpl; [|done].
    rewrite length_insert.
    destruct (array_index m (length elems)) as [j|] eqn:E'; [|done].
    rewrite list_lookup_insert_ne; [done|].
    intros ->. apply array_index_Some in E as [-> _].
    apply array_index_Some in E' as [-> _]. done.
  - by rewrite assoc_get_set_ne.
Qed.

Lemma has_property_set_ne data n m v :
  n ≠ m → has_property (set data n v) m = has_property data m.
Proof.
  intros Hne. destruct data as [| | | | |elems|props]; simpl; try done.
  - destruct (array_index n (length elems)) as [i|] eqn:E; simpl; [|done].
    by rewrite length_insert.
  - by rewrite assoc_get_set_ne.
Qed.

Lemma has_property_set_eq data n v :
  has_property data n = Some true → has_property (set data n v) n = Some true.
Proof.
  destruct data as [| | | | |elems|props]; simpl; try done.
  - intros [= [i Hi]%bool_decide_eq_true]. rewrite Hi. simpl.
    by rewrite length_insert, Hi.
  - intros _. by rewrite assoc_get_set_eq.
Qed.

Lemma set_get_id data n :
  has_property data n = Some true → set data n (get data n) = data.
Proof.
  destruct data as [| | | | |elems|props]; simpl; try done.
  - intros [= [i Hi]%bool_decide_eq_true]. rewrite Hi.
    apply array_index_Some in Hi as [_ Hi].
    apply lookup_lt_is_Some in Hi as [x Hx]. rewrite Hx. simpl.
    by rewrite list_insert_id.
  - intros [= [a Ha]%bool_decide_eq_true]. rewrite Ha. simpl.
    by rewrite assoc_set_get_id.
Qed.

Lemma typeof_set data n v : typeof (set data n v) = typeof data.
Proof.
  destruct data as [| | | | |elems|props]; simpl; try done.
  by destruct (array_index n (length elems)).
Qed.

End Bags.

(** * Properties of the engine *)

Local Open Scope list_scope.

Section Facts.
Context {number : Type} {RT : JsRuntime number}.
Implicit Types (st : Heap number) (data value : Value number).
Implicit Types (errors : list (SchemaError number)) (path : string).
Implicit Types (schema : Schema number) (TC : Checker number).

(** How the sink relates to the verdict: untouched when the verdict is
    true, one error longer when it is false. *)
Definition sink_grows errors errors' (valid : bool) : Prop :=
  if valid then errors' = errors else ∃ err, errors' = errors ++ [err].

(** What a checker of one field leaves behind: on success the bag with at
    most the field rewritten and the sink untouched, on failure the bag
    untouched and one error at the field's path. *)
Definition field_result schema data errors path
    (data' : Value number) errors' (valid : bool) : Prop :=
  if valid then
    errors' = errors ∧
    (data' = data ∨ ∃ x, data' = set data (Sch.name schema) x)
  else
    data' = data ∧
    ∃ v desc,
      errors' = errors ++ [Err.mk (joinPath path (Sch.name schema))
                                  (Sch.type schema) v desc].

Lemma field_result_sink schema data errors path data' errors' valid :
  field_result schema data errors path data' errors' valid →
  sink_grows errors errors' valid.
Proof.
  destruct valid; simpl; [tauto |].
  intros (_ & v & desc & ->). eauto.
Qed.

Lemma NumberTypeChecker_result schema data errors path data' errors' valid :
  NumberTypeChecker schema data errors path = (data', errors', valid) →
  field_result schema data errors path data' errors' valid.
Proof.
  unfold NumberTypeChecker, pushError, field_result.
  intros H; repeat case_match; simplify_eq; eauto.
Qed.

Lemma TypeChecker_boolean_result schema data errors path data' errors' valid :
  TypeChecker_boolean schema data errors path = (data', errors', valid) →
  field_result schema data errors path data' errors' valid.
Proof.
  unfold TypeChecker_boolean, pushError, field_result.
  intros H; repeat case_match; simplify_eq; eauto.
Qed.

Lemma TypeChecker_string_result schema data errors path data' errors' valid :
  TypeChecker_string schema data errors path = Val (data', errors', valid) →
  field_result schema data errors path data' errors' valid.
Proof.
  unfold TypeChecker_string, pushError, field_result.
  intros H; repeat case_match; simplify_eq; eauto.
Qed.

Lemma TypeChecker_enum_result schema data errors path data' errors' valid :
  TypeChecker_enum schema data errors path = Val (data', errors', valid) →
  field_result schema data errors path data' errors' valid.
Proof.
  unfold TypeChecker_enum, pushError, field_result.
  intros H; repeat case_match; simplify_eq; eauto.
Qed.

(** ** The two loops stop validating at the first failure *)

Lemma isValid_loop_false
    (single : Heap number → loc → Value number → list (SchemaError number) →
              string → result (Outcome number))
    entries st data errors path :
  isValid_loop single entries st data errors path false
  = Val (st, data, errors, false).
Proof. induction entries as [|entry rest IH]; simpl; auto. Qed.

Lemma isValid_loop_app
    (single : Heap number → loc → Value number → list (SchemaError number) →
              string → result (Outcome number))
    pre post st data errors path valid :
  isValid_loop single (pre ++ post) st data errors path valid
  = '(st1, data1, errors1, valid1) ←
      isValid_loop single pre st data errors path valid;
    isValid_loop single post st1 data1 errors1 path valid1.
Proof.
  revert st data errors valid.
  induction pre as [|entry rest IH]; intros st data errors valid; simpl; auto.
  destruct valid; auto.
  destruct (single st entry data errors path) as [[[[st1 d1] e1] v1]| |];
    simpl; auto.
Qed.

Lemma array_loop_false TC ty clone indices st value errors path :
  ∃ st', array_loop TC ty clone indices st value errors path false
         = Val (st', value, errors, false).
Proof.
  revert st. induction indices as [|i rest IH]; intros st; simpl; eauto.
Qed.

Lemma array_loop_app TC ty clone pre post st value errors path valid :
  array_loop TC ty clone (pre ++ post) st value errors path valid
  = '(st1, value1, errors1, valid1) ←
      array_loop TC ty clone pre st value errors path valid;
    array_loop TC ty clone post st1 value1 errors1 path valid1.
Proof.
  revert st value errors valid.
  induction pre as [|i rest IH]; intros st value errors valid; simpl; auto.
  destruct valid; auto.
  destruct ty as [t|]; auto.
  destruct (TC t _ clone value errors path) as [[[[st1 d1] e1] v1]| |];
    simpl; auto.
Qed.

(** ** A false verdict comes with exactly one error *)

Definition reports TC : Prop :=
  ∀ ty st l data errors path st' data' errors' valid,
    TC ty st l data errors path = Val (st', data', errors', valid) →
    sink_grows errors errors' valid.

Lemma array_loop_reports TC ty clone indices st value errors path
    st' value' errors' valid' :
  reports TC →
  array_loop TC ty clone indices st value errors path true
  = Val (st', value', errors', valid') →
  sink_grows errors errors' valid'.
Proof.
  intros HTC. revert st value.
  induction indices as [|i rest IH]; intros st value; simpl.
  { intros [= <- <- <- <-]. reflexivity. }
  destruct ty as [t|]; [|discriminate].
  destruct (TC t _ clone value errors path) as [[[[st1 d1] e1] v1]| |] eqn:E;
    simpl; try discriminate.
  apply HTC in E. destruct v1; simpl in E.
  - subst e1. apply IH.
  - destruct (array_loop_false TC (Some t) clone rest st1 d1 e1 path) as [s ->].
    intros [= <- <- <- <-]. exact E.
Qed.

Lemma isValid_single_reports TC st l data errors path st' data' errors' valid :
  reports TC →
  isValid_single TC st l data errors path = Val (st', data', errors', valid) →
  sink_grows errors errors' valid.
Proof.
  intros HTC. unfold isValid_single, pushError.
  repeat case_match; try discriminate.
  - intros [= <- <- <- <-]. reflexivity.
  - intros [= <- <- <- <-]. simpl. eauto.
  - apply HTC.
Qed.

Lemma isValid_loop_reports TC entries st data errors path
    st' data' errors' valid' :
  reports TC →
  isValid_loop (isValid_single TC) entries st data errors path true
  = Val (st', data', errors', valid') →
  sink_grows errors errors' valid'.
Proof.
  intros HTC. revert st data.
  induction entries as [|entry rest IH]; intros st data; simpl.
  { intros [= <- <- <- <-]. reflexivity. }
  destruct (isValid_single TC st entry data errors path)
    as [[[[st1 d1] e1] v1]| |] eqn:E; simpl; try discriminate.
  apply isValid_single_reports in E; [|done]. destruct v1; simpl in E.
  - subst e1. apply IH.
  - rewrite isValid_loop_false. intros [= <- <- <- <-]. exact E.
Qed.

Lemma isValid_with_reports TC st arg data errors path
    st' data' errors' valid :
  reports TC →
  isValid_with TC st arg data errors path = Val (st', data', errors', valid) →
  sink_grows errors errors' valid.
Proof.
  intros HTC. destruct arg; simpl.
  - by apply isValid_single_reports.
  - by apply isValid_loop_reports.
Qed.

Lemma TypeChecker_array_reports TC st schema data errors path
    st' data' errors' valid :
  reports TC →
  TypeChecker_array TC st schema data errors path
  = Val (st', data', errors', valid) →
  sink_grows errors errors' valid.
Proof.
  intros HTC. unfold TypeChecker_array, pushError.
  case_match.
  { intros [= <- <- <- <-]. simpl. eauto. }
  match goal with
  | |- context [array_loop ?a ?b ?c ?d ?e ?f ?g ?h true] =>
      destruct (array_loop a b c d e f g h true)
        as [[[[st1 d1] e1] v1]| |] eqn:E
  end; simpl; try discriminate.
  intros [= <- <- <- <-]. by eapply array_loop_reports.
Qed.

Lemma TypeChecker_object_reports TC st schema data errors path
    st' data' errors' valid :
  reports TC →
  TypeChecker_object TC st schema data errors path
  = Val (st', data', errors', valid) →
  sink_grows errors errors' valid.
Proof.
  intros HTC. unfold TypeChecker_object, pushError.
  case_match.
  { intros [= <- <- <- <-]. simpl. eauto. }
  destruct (Sch.fields schema) as [fields|]; [|discriminate].
  match goal with
  | |- context [isValid_with ?a ?b ?c ?d ?e ?f] =>
      destruct (isValid_with a b c d e f) as [[[[st1 d1] e1] v1]| |] eqn:E
  end; simpl; try discriminate.
  intros [= <- <- <- <-]. by eapply isValid_with_reports.
Qed.

Lemma lift_Val st (r : Value number * list (SchemaError number) * bool)
    st' data' errors' valid :
  lift st r = Val (st', data', errors', valid) →
  st' = st ∧ r = (data', errors', valid).
Proof. destruct r as [[d e] v]. simpl. by intros [= <- <- <- <-]. Qed.

Lemma TypeChecker_reports fuel : reports (TypeChecker fuel).
Proof.
  induction fuel as [|fuel IH];
    intros ty st l data errors path st' data' errors' valid; simpl;
    [discriminate|].
  destruct (st !! l) as [schema|]; [|discriminate].
  destruct ty.
  - intros [_ H]%lift_Val.
    by eapply field_result_sink, NumberTypeChecker_result.
  - intros [_ H]%lift_Val.
    by eapply field_result_sink, NumberTypeChecker_result.
  - destruct (TypeChecker_string _ _ _ _) as [r| |] eqn:E; simpl;
      try discriminate.
    intros [_ ->]%lift_Val.
    by eapply field_result_sink, TypeChecker_string_result.
  - intros [_ H]%lift_Val.
    by eapply field_result_sink, TypeChecker_boolean_result.
  - destruct (TypeChecker_enum _ _ _ _) as [r| |] eqn:E; simpl;
      try discriminate.
    intros [_ ->]%lift_Val.
    by eapply field_result_sink, TypeChecker_enum_result.
  - by apply TypeChecker_array_reports.
  - by apply TypeChecker_object_reports.
Qed.

(** ** The schema heap only grows, by renamed copies *)

(** [c] is a cell of [st] up to its [name]. *)
Definition renamed_copy st (c : Schema number) : Prop :=
  ∃ l s, st !! l = Some s ∧ c = Sch.set_name (Sch.name c) s.

Definition extends st st' : Prop :=
  ∃ clones, st' = st ++ clones ∧ Forall (renamed_copy st) clones.

Lemma set_name_same (s : Schema number) : Sch.set_name (Sch.name s) s = s.
Proof. by destruct s. Qed.

Lemma set_name_twice n m (s : Schema number) :
  Sch.set_name n (Sch.set_name m s) = Sch.set_name n s.
Proof. reflexivity. Qed.

Lemma renamed_copy_rename st n c :
  renamed_copy st c → renamed_copy st (Sch.set_name n c).
Proof.
  intros (l & s & Hl & Hc). exists l, s. split; [done|].
  rewrite Hc. reflexivity.
Qed.

Lemma extends_refl st : extends st st.
Proof. exists []. by rewrite app_nil_r. Qed.

Lemma renamed_copy_extends st st' c :
  extends st st' → renamed_copy st' c → renamed_copy st c.
Proof.
  intros (clones & -> & Hclones) (l & s & Hl & Hc).
  apply lookup_app_Some in Hl as [Hl|[_ Hl]].
  - by exists l, s.
  - rewrite Forall_lookup in Hclones.
    destruct (Hclones _ _ Hl) as (l0 & s0 & Hl0 & Hs).
    exists l0, s0. split; [done|]. rewrite Hc, Hs. reflexivity.
Qed.

Lemma extends_trans st1 st2 st3 :
  extends st1 st2 → extends st2 st3 → extends st1 st3.
Proof.
  intros H12 (c23 & -> & H23).
  pose proof H12 as (c12 & -> & H12').
  exists (c12 ++ c23). split; [by rewrite app_assoc|].
  apply Forall_app. split; [done|].
  eapply Forall_impl; [exact H23|].
  intros c Hc. by eapply renamed_copy_extends.
Qed.

Lemma extends_alloc st l t : st !! l = Some t → extends st (st ++ [t]).
Proof.
  intros Hl. exists [t]. split; [done|].
  constructor; [|constructor]. exists l, t. by rewrite set_name_same.
Qed.

Lemma extends_rename st0 st n clone :
  extends st0 st → length st0 ≤ clone →
  extends st0 (alter (Sch.set_name n) clone st).
Proof.
  intros (clones & -> & Hclones) Hle.
  exists (alter (Sch.set_name n) (clone - length st0) clones).
  split; [by apply alter_app_r_alt|].
  apply Forall_alter; [done|].
  intros c _. apply renamed_copy_rename.
Qed.

Lemma extends_lookup st st' l s :
  extends st st' → st !! l = Some s → st' !! l = Some s.
Proof. intros (clones & -> & _). apply lookup_app_l_Some. Qed.

Lemma extends_length st st' : extends st st' → length st ≤ length st'.
Proof. intros (clones & -> & _). rewrite length_app. lia. Qed.

Definition frames TC : Prop :=
  ∀ ty st l data errors path st' data' errors' valid,
    TC ty st l data errors path = Val (st', data', errors', valid) →
    extends st st'.

Lemma array_loop_frames TC ty clone indices st0 st value errors path valid
    st' value' errors' valid' :
  frames TC → extends st0 st → length st0 ≤ clone →
  array_loop TC ty clone indices st value errors path valid
  = Val (st', value', errors', valid') →
  extends st0 st'.
Proof.
  intros HTC. revert st value errors valid.
  induction indices as [|i rest IH]; intros st value errors valid Hst Hle;
    simpl.
  { by intros [= <- <- <- <-]. }
  pose proof (extends_rename st0 st (index_name i) clone Hst Hle) as Hst1.
  destruct valid; [|by apply IH].
  destruct ty as [t|]; [|discriminate].
  destruct (TC t _ clone value errors path) as [[[[st1 d1] e1] v1]| |] eqn:E;
    simpl; try discriminate.
  apply HTC in E. apply IH; [|done]. by eapply extends_trans.
Qed.

Lemma isValid_single_frames TC st l data errors path st' data' errors' valid :
  frames TC →
  isValid_single TC st l data errors path = Val (st', data', errors', valid) →
  extends st st'.
Proof.
  intros HTC. unfold isValid_single.
  repeat case_match; try discriminate.
  - intros [= <- <- <- <-]. apply extends_refl.
  - intros [= <- <- <- <-]. apply extends_refl.
  - apply HTC.
Qed.

Lemma isValid_loop_frames TC entries st data errors path valid
    st' data' errors' valid' :
  frames TC →
  isValid_loop (isValid_single TC) entries st data errors path valid
  = Val (st', data', errors', valid') →
  extends st st'.
Proof.
  intros HTC. revert st data errors valid.
  induction entries as [|entry rest IH]; intros st data errors valid; simpl.
  { intros [= <- <- <- <-]. apply extends_refl. }
  destruct valid; [|by apply IH].
  destruct (isValid_single TC st entry data errors path)
    as [[[[st1 d1] e1] v1]| |] eqn:E; simpl; try discriminate.
  apply isValid_single_frames in E; [|done].
  intros H%IH. by eapply extends_trans.
Qed.

Lemma isValid_with_frames TC st arg data errors path
    st' data' errors' valid :
  frames TC →
  isValid_with TC st arg data errors path = Val (st', data', errors', valid) →
  extends st st'.
Proof.
  intros HTC. destruct arg; simpl.
  - by apply isValid_single_frames.
  - by apply isValid_loop_frames.
Qed.

Lemma TypeChecker_array_frames TC st schema data errors path
    st' data' errors' valid :
  frames TC →
  TypeChecker_array TC st schema data errors path
  = Val (st', data', errors', valid) →
  extends st st'.
Proof.
  intros HTC. unfold TypeChecker_array.
  case_match.
  { intros [= <- <- <- <-]. apply extends_refl. }
  match goal with
  | |- context [array_loop ?a ?b ?c ?d ?e ?f ?g ?h true] =>
      destruct (array_loop a b c d e f g h true)
        as [[[[st1 d1] e1] v1]| |] eqn:E
  end; simpl; try discriminate.
  intros [= <- <- <- <-].
  eapply array_loop_frames in E; [done..| |done].
  destruct (Sch.elementType schema) as [le|]; simpl; [|apply extends_refl].
  destruct (st !! le) as [t|] eqn:Ht; [|apply extends_refl].
  by eapply extends_alloc.
Qed.

Lemma TypeChecker_object_frames TC st schema data errors path
    st' data' errors' valid :
  frames TC →
  TypeChecker_object TC st schema data errors path
  = Val (st', data', errors', valid) →
  extends st st'.
Proof.
  intros HTC. unfold TypeChecker_object.
  case_match.
  { intros [= <- <- <- <-]. apply extends_refl. }
  destruct (Sch.fields schema) as [fields|]; [|discriminate].
  match goal with
  | |- context [isValid_with ?a ?b ?c ?d ?e ?f] =>
      destruct (isValid_with a b c d e f) as [[[[st1 d1] e1] v1]| |] eqn:E
  end; simpl; try discriminate.
  intros [= <- <- <- <-]. by eapply isValid_with_frames.
Qed.

Lemma TypeChecker_frames fuel : frames (TypeChecker fuel).
Proof.
  induction fuel as [|fuel IH];
    intros ty st l data errors path st' data' errors' valid; simpl;
    [discriminate|].
  destruct (st !! l) as [schema|]; [|discriminate].
  destruct ty;
    try (intros [-> _]%lift_Val; apply extends_refl).
  - destruct (TypeChecker_string _ _ _ _) as [r| |]; simpl; try discriminate.
    intros [-> _]%lift_Val; apply extends_refl.
  - destruct (TypeChecker_enum _ _ _ _) as [r| |]; simpl; try discriminate.
    intros [-> _]%lift_Val; apply extends_refl.
  - by apply TypeChecker_array_frames.
  - by apply TypeChecker_object_frames.
Qed.

End Facts.

(** * The claims *)

Section Claims.
Context {number : Type} {RT : JsRuntime number}.
Implicit Types (st : Heap number) (data value : Value number).
Implicit Types (errors : list (SchemaError number)) (path : string).
Implicit Types (schema : Schema number).

(** C1, as amended.  [isValid] on a sequence validates the entries in
    order and stops validating at the first entry that fails: when the
    entries [pre] pass and the next entry [l] fails, the call returns
    false with the heap, bag and sink that [l] left, whatever entries
    [post] follow, and the sink has gained exactly one error. *)
Theorem isValid_stops_at_first_failure fuel st pre l post data errors path
    st1 data1 errors1 st2 data2 errors2 :
  isValid fuel st (Many pre) data errors path
    = Val (st1, data1, errors1, true) →
  isValid fuel st1 (One l) data1 errors1 path
    = Val (st2, data2, errors2, false) →
  isValid fuel st (Many (pre ++ l :: post)) data errors path
    = Val (st2, data2, errors2, false)
  ∧ ∃ err, errors2 = errors ++ [err].
Proof.
  unfold isValid. simpl. intros Hpre Hl.
  rewrite isValid_loop_app, Hpre. simpl. rewrite Hl. simpl.
  rewrite isValid_loop_false. split; [done|].
  apply isValid_loop_reports in Hpre; [|apply TypeChecker_reports].
  apply isValid_single_reports in Hl; [|apply TypeChecker_reports].
  simpl in Hpre, Hl. by subst errors1.
Qed.

(** The check of element [i] (lines 222-228): the clone is given the
    index as its name and handed to the checker of the element type. *)
Definition element_check (fuel : nat) (ty : SchemaType) (clone : loc)
    (path : string) (i : nat) st value errors : result (Outcome number) :=
  TypeChecker fuel ty (alter (Sch.set_name (index_name i)) clone st) clone
              value errors path.

(** [elements_pass ... n st value st' value']: the elements at
    [0 .. n-1] pass their check one after the other, each on the heap
    and the array that the one before left, and leave [st'] and
    [value']. *)
Inductive elements_pass (fuel : nat) (ty : SchemaType) (clone : loc)
    (path : string) (errors : list (SchemaError number)) :
    nat → Heap number → Value number → Heap number → Value number → Prop :=
| no_element st value :
    elements_pass fuel ty clone path errors 0 st value st value
| next_element n st value st1 value1 st2 value2 :
    elements_pass fuel ty clone path errors n st value st1 value1 →
    element_check fuel ty clone path n st1 value1 errors
      = Val (st2, value2, errors, true) →
    elements_pass fuel ty clone path errors (S n) st value st2 value2.

Lemma array_loop_last TC ty clone n st value errors path :
  array_loop TC (Some ty) clone (seq 0 (S n)) st value errors path true
  = '(st1, value1, errors1, valid1) ←
      array_loop TC (Some ty) clone (seq 0 n) st value errors path true;
    array_loop TC (Some ty) clone [n] st1 value1 errors1 path valid1.
Proof. by rewrite seq_S, array_loop_app. Qed.

Lemma elements_pass_loop fuel ty clone path errors n st value st' value' :
  elements_pass fuel ty clone path errors n st value st' value' →
  array_loop (TypeChecker fuel) (Some ty) clone (seq 0 n) st value errors
             path true
  = Val (st', value', errors, true).
Proof.
  induction 1 as [|n st value st1 value1 st2 value2 _ IH Hcheck]; [done|].
  rewrite array_loop_last, IH. simpl.
  unfold element_check in Hcheck. by rewrite Hcheck.
Qed.

Lemma loop_elements_pass fuel ty clone path errors n :
  ∀ st value st' value' errors',
    array_loop (TypeChecker fuel) (Some ty) clone (seq 0 n) st value errors
               path true
      = Val (st', value', errors', true) →
    elements_pass fuel ty clone path errors n st value st' value' ∧
    errors' = errors.
Proof.
  induction n as [|n IH]; intros st value st' value' errors'.
  { intros [= <- <- <-]. split; [constructor|done]. }
  rewrite array_loop_last.
  destruct (array_loop (TypeChecker fuel) (Some ty) clone (seq 0 n) st value
                       errors path true)
    as [[[[st1 value1] errors1] valid1]| |] eqn:Hloop; simpl; try done.
  destruct valid1.
  2:{ destruct (array_loop_false (TypeChecker fuel) (Some ty) clone [] 
                  (alter (Sch.set_name (index_name n)) clone st1) value1
                  errors1 path) as [st3 Hfalse].
      simpl in Hfalse. by intros [= _ _ _]. }
  destruct (IH _ _ _ _ _ Hloop) as [Hpass ->].
  destruct (TypeChecker fuel ty _ clone value1 errors path)
    as [[[[st2 value2] errors2] valid2]| |] eqn:Hcheck; simpl; try done.
  intros [= <- <- <- ->].
  pose proof (TypeChecker_reports _ _ _ _ _ _ _ _ _ _ _ Hcheck) as Hsink.
  simpl in Hsink. subst errors2.
  split; [|done]. by econstructor.
Qed.

(** C2, as amended.  On a bag whose value is, or parses to, the sequence
    [elems], the array checker validates the elements in order, each by
    [element_check] against the clone of the element schema, and stops
    at the first element that fails: when the elements before [i] pass
    and element [i] fails, the checker returns false with the array and
    the sink that element [i] left, the sink having gained exactly one
    error.  It returns true exactly when every element passed, and then
    with the sink untouched. *)
Theorem array_checker_stops_at_first_failure fuel st l array le element data
    elems errors path :
  st !! l = Some array → Sch.elementType array = Some le →
  st !! le = Some element →
  let name := Sch.name array in
  let raw := get data name in
  parse_fallback Array_isArray raw = VArr elems →
  let bag := if Array_isArray raw then data
             else set data name (VArr elems) in
  let inner := (if negb (String.eqb path EmptyString)
                then path ++ "." ++ name ++ "[" else name ++ "[")%string in
  let check := element_check fuel (Sch.type element) (length st) inner in
  let passed :=
    elements_pass fuel (Sch.type element) (length st) inner errors in
  let checker := TypeChecker (S fuel) T_array st l data errors path in
  (∀ i st1 value1 st2 value2 errors2,
     i < length elems →
     passed i (st ++ [element]) (VArr elems) st1 value1 →
     check i st1 value1 errors = Val (st2, value2, errors2, false) →
     (∃ st3, checker = Val (st3, set bag name value2, errors2, false)) ∧
     ∃ err, errors2 = errors ++ [err])
  ∧
  (∀ st' data' errors',
     checker = Val (st', data', errors', true) ↔
     ∃ value',
       passed (length elems) (st ++ [element]) (VArr elems) st' value' ∧
       data' = set bag name value' ∧ errors' = errors)
  ∧
  (∀ st' data' errors' valid,
     checker = Val (st', data', errors', valid) →
     if valid then errors' = errors else ∃ err, errors' = errors ++ [err]).
Proof.
  intros Hl Hle Helem name raw Hvalue bag inner check passed checker.
  assert (checker
          = '(st', value', errors', valid) ←
              array_loop (TypeChecker fuel) (Some (Sch.type element))
                         (length st) (seq 0 (length elems))
                         (st ++ [element]) (VArr elems) errors inner true;
            Val (st', set bag name value', errors', valid)) as Hchecker.
  { unfold checker. simpl. rewrite Hl. unfold TypeChecker_array.
    fold name raw. rewrite Hvalue, Hle. simpl. rewrite Helem. simpl.
    unfold bag. by destruct (Array_isArray raw). }
  split; [|split].
  - intros i st1 value1 st2 value2 errors2 Hi Hpassed Hcheck.
    split.
    2:{ unfold check, element_check in Hcheck.
        by apply TypeChecker_reports in Hcheck. }
    rewrite Hchecker.
    replace (seq 0 (length elems))
      with (seq 0 i ++ i :: seq (S i) (length elems - S i)).
    2:{ replace (length elems) with (i + S (length elems - S i)) at 2
          by lia.
        by rewrite seq_app. }
    rewrite array_loop_app, (elements_pass_loop _ _ _ _ _ _ _ _ _ _ Hpassed).
    simpl. unfold check, element_check in Hcheck. rewrite Hcheck. simpl.
    match goal with
    | |- context [array_loop ?a ?b ?c ?d ?e ?f ?g ?h false] =>
        destruct (array_loop_false a b c d e f g h) as [st3 ->]
    end.
    by exists st3.
  - intros st' data' errors'. rewrite Hchecker. split.
    + destruct (array_loop _ _ _ _ _ _ _ _ _)
        as [[[[st1 value1] errors1] valid1]| |] eqn:Hloop; simpl; try done.
      intros [= <- <- <- ->].
      apply loop_elements_pass in Hloop as [Hpassed ->].
      by exists value1.
    + intros (value' & Hpassed & -> & ->).
      by rewrite (elements_pass_loop _ _ _ _ _ _ _ _ _ _ Hpassed).
  - intros st' data' errors' valid H.
    by apply (TypeChecker_reports (S fuel)) in H.
Qed.

(** C3.  The boolean checker accepts the strings [false] and [0] and
    writes them back as they are: the bag then holds a string, not the
    boolean [false]. *)
Theorem boolean_checker_keeps_false_string schema data errors path s :
  get data (Sch.name schema) = VStr s →
  s = "false" ∨ (s = "0" ∧ Sch.allowNumeric schema ≠ Some false) →
  TypeChecker_boolean schema data errors path
  = (set data (Sch.name schema) (VStr s), errors, true).
Proof.
  intros Hget Hs. unfold TypeChecker_boolean. rewrite Hget.
  destruct Hs as [->|[-> Hallow]].
  - reflexivity.
  - by rewrite bool_decide_eq_false_2.
Qed.

(** C5, as amended.  When the raw value is no sequence and is either no
    string, or a string that does not parse, or a string that parses to
    something that is no sequence, the array checker leaves heap and bag
    alone, appends exactly one error [array expected] and returns false.
    The value recorded in the error is the raw value in the first two
    cases and the result of the parse in the third. *)
Theorem array_expected fuel st l schema data errors path :
  st !! l = Some schema →
  let raw := get data (Sch.name schema) in
  Array_isArray raw = false →
  (∀ s parsed, raw = VStr s → JSON_parse s = Some parsed →
               Array_isArray parsed = false) →
  TypeChecker (S fuel) T_array st l data errors path
  = Val (st, data,
         errors ++ [Err.mk (joinPath path (Sch.name schema)) (Sch.type schema)
                      (match raw with
                       | VStr s => default raw (JSON_parse s)
                       | _ => raw
                       end)
                      "array expected"],
         false).
Proof.
  intros Hl raw Hraw Hparse. simpl. rewrite Hl.
  unfold TypeChecker_array, parse_fallback. fold raw. rewrite Hraw. simpl.
  destruct raw as [| | | |s| |] eqn:E; try done.
  destruct (JSON_parse s) as [parsed|] eqn:Es; simpl; [|done].
  by rewrite (Hparse s parsed eq_refl Es).
Qed.

Definition is_number_symbol (s : Symbol number) : bool :=
  match s with SymNum _ => true | SymStr _ => false end.

(** C10.  Against an enum schema whose symbols are all numbers, a string
    value never matches, whatever number it spells: the enum checker
    leaves the bag alone, appends the [invalid symbol] error that lists
    the symbols, and returns false. *)
Theorem enum_string_never_matches_numbers schema symbols data errors path s :
  Sch.symbols schema = Some symbols →
  forallb is_number_symbol symbols = true →
  get data (Sch.name schema) = VStr s →
  TypeChecker_enum schema data errors path
  = Val (data,
         errors ++ [Err.mk (joinPath path (Sch.name schema)) (Sch.type schema)
                      (VStr s)
                      ("invalid symbol, valid symbols : ["
                         ++ join ", " (map symbol_text symbols) ++ "]")%string],
         false).
Proof.
  intros Hsym Hnum Hget.
  assert (includes (map symbol_value symbols) (VStr s) = false) as Hnone.
  { clear Hsym. unfold includes.
    induction symbols as [|[x|x] rest IH]; simpl in *; [done|done|].
    by apply IH. }
  unfold TypeChecker_enum. by rewrite Hget, Hsym, Hnone.
Qed.

Lemma bound_set_zero (z : number) :
  num_eq z num_zero = true → bound_set (Some z) = true.
Proof. intros Hz. simpl. rewrite Hz. apply orb_true_r. Qed.


(** A checker rewrites at most the property it checks. *)
Lemma TypeChecker_touches fuel ty st l schema data errors path
    st' data' errors' valid :
  st !! l = Some schema →
  TypeChecker fuel ty st l data errors path = Val (st', data', errors', valid) →
  data' = data ∨ ∃ x, data' = set data (Sch.name schema) x.
Proof.
  destruct fuel as [|fuel]; simpl; [discriminate|].
  intros ->.
  assert (∀ r, field_result schema data errors path r.1.1 r.1.2 r.2 →
               lift st r = Val (st', data', errors', valid) →
               data' = data ∨ ∃ x, data' = set data (Sch.name schema) x)
    as Hprim.
  { intros [[d e] v] Hr. simpl in *. intros [= <- <- <- <-].
    destruct v; simpl in Hr; [tauto|]. left. tauto. }
  destruct ty.
  - apply Hprim.
    destruct (NumberTypeChecker _ _ _ _) as [[d e] v] eqn:E.
    by apply NumberTypeChecker_result.
  - apply Hprim.
    destruct (NumberTypeChecker _ _ _ _) as [[d e] v] eqn:E.
    by apply NumberTypeChecker_result.
  - destruct (TypeChecker_string _ _ _ _) as [[[d e] v]| |] eqn:E;
      simpl; try discriminate.
    apply (Hprim (d, e, v)). by apply TypeChecker_string_result.
  - apply Hprim.
    destruct (TypeChecker_boolean _ _ _ _) as [[d e] v] eqn:E.
    by apply TypeChecker_boolean_result.
  - destruct (TypeChecker_enum _ _ _ _) as [[[d e] v]| |] eqn:E;
      simpl; try discriminate.
    apply (Hprim (d, e, v)). by apply TypeChecker_enum_result.
  - unfold TypeChecker_array. case_match.
    { intros [= <- <- <- <-]. by left. }
    match goal with
    | |- context [array_loop ?a ?b ?c ?d ?e ?f ?g ?h true] =>
        destruct (array_loop a b c d e f g h true)
          as [[[[st1 d1] e1] v1]| |]
    end; simpl; try discriminate.
    intros [= <- <- <- <-]. right.
    case_match; [rewrite set_set|]; eauto.
  - unfold TypeChecker_object. case_match.
    { intros [= <- <- <- <-]. by left. }
    destruct (Sch.fields schema) as [fields|]; [|discriminate].
    match goal with
    | |- context [isValid_with ?a ?b ?c ?d ?e ?f] =>
        destruct (isValid_with a b c d e f) as [[[[st1 d1] e1] v1]| |]
    end; simpl; try discriminate.
    intros [= <- <- <- <-]. right.
    case_match; [rewrite set_set|]; eauto.
Qed.


Lemma TypeChecker_primitive_heap fuel ty st l data errors path
    st' data' errors' valid :
  ty ≠ T_array → ty ≠ T_object →
  TypeChecker fuel ty st l data errors path = Val (st', data', errors', valid) →
  st' = st.
Proof.
  intros Harr Hobj. destruct fuel as [|fuel]; simpl; [discriminate|].
  destruct (st !! l) as [schema|]; [|discriminate].
  destruct ty; try done; try by intros [-> _]%lift_Val.
  - destruct (TypeChecker_string _ _ _ _) as [r| |]; simpl; try discriminate.
    by intros [-> _]%lift_Val.
  - destruct (TypeChecker_enum _ _ _ _) as [r| |]; simpl; try discriminate.
    by intros [-> _]%lift_Val.
Qed.

Lemma rename_twice n m clone st :
  alter (Sch.set_name n) clone (alter (Sch.set_name m) clone st)
  = alter (Sch.set_name n) clone st.
Proof. rewrite list_alter_alter_eq. by apply list_alter_ext. Qed.

(** Over elements of a primitive kind the loop of the array checker only
    renames [elementSchema]. *)
Lemma array_loop_primitive_heap fuel ty clone indices st value errors path
    valid st' value' errors' valid' :
  ty ≠ T_array → ty ≠ T_object →
  array_loop (TypeChecker fuel) (Some ty) clone indices st value errors path
             valid
    = Val (st', value', errors', valid') →
  st' = st ∨ ∃ n, st' = alter (Sch.set_name n) clone st.
Proof.
  intros Harr Hobj. revert st value errors valid.
  induction indices as [|i rest IH]; intros st value errors valid; simpl.
  { intros [= <- <- <- <-]. by left. }
  assert (∀ value errors valid,
    array_loop (TypeChecker fuel) (Some ty) clone rest
      (alter (Sch.set_name (index_name i)) clone st) value errors path valid
      = Val (st', value', errors', valid') →
    st' = st ∨ ∃ n, st' = alter (Sch.set_name n) clone st) as Hrest.
  { intros v e b [->|[n ->]]%IH; right; [by eexists|].
    exists n. apply rename_twice. }
  destruct valid; [|apply Hrest].
  destruct (TypeChecker fuel ty _ clone value errors path)
    as [[[[st1 d1] e1] v1]| |] eqn:E; simpl; try discriminate.
  apply TypeChecker_primitive_heap in E as ->; [|done..]. apply Hrest.
Qed.

(** C9.  Validation never writes to a schema object of the caller: the
    objects of the heap it was given are all unchanged afterwards, and
    what it adds to the heap are copies that differ from an object of the
    caller in their [name] at most.  An array checker over elements of a
    primitive kind adds one such copy of its [elementType], however many
    elements it visits (none when the value is no sequence). *)
Theorem caller_schemas_not_mutated fuel st arg data errors path
    st' data' errors' valid :
  isValid fuel st arg data errors path = Val (st', data', errors', valid) →
  (∀ l schema, st !! l = Some schema → st' !! l = Some schema) ∧
  (∃ clones,
     st' = st ++ clones ∧
     ∀ c, c ∈ clones →
          ∃ l schema, st !! l = Some schema ∧
                      c = Sch.set_name (Sch.name c) schema) ∧
  (∀ l schema le t,
     arg = One l → st !! l = Some schema → Sch.type schema = T_array →
     Sch.elementType schema = Some le → st !! le = Some t →
     Sch.type t ≠ T_array → Sch.type t ≠ T_object →
     st' = st ∨ ∃ n, st' = st ++ [Sch.set_name n t]).
Proof.
  intros H. unfold isValid in H.
  pose proof H as Hext.
  apply isValid_with_frames in Hext; [|apply TypeChecker_frames].
  split; [|split].
  - intros l schema. by apply extends_lookup.
  - destruct Hext as (clones & -> & Hclones). exists clones. split; [done|].
    by apply Forall_forall.
  - intros l schema le t -> Hl Hty Hle Ht Harr Hobj.
    revert H. simpl. unfold isValid_single. rewrite Hl, Hty.
    repeat case_match; try discriminate;
      try (intros [= <- <- <- <-]; by left).
    destruct fuel as [|fuel]; simpl; [discriminate|]. rewrite Hl.
    unfold TypeChecker_array. rewrite Hle. simpl. rewrite Ht. simpl.
    case_match.
    { intros [= <- <- <- <-]. by left. }
    match goal with
    | |- context [array_loop ?a ?b ?c ?d ?e ?f ?g ?h true] =>
        destruct (array_loop a b c d e f g h true)
          as [[[[st1 d1] e1] v1]| |] eqn:E
    end; simpl; try discriminate.
    intros [= <- <- <- <-]. right.
    apply array_loop_primitive_heap in E as [->|[n ->]]; [| |done..].
    + exists (Sch.name t). by rewrite set_name_same.
    + exists n. rewrite alter_app_r_alt by done.
      by rewrite Nat.sub_diag.
Qed.

(** ** Error paths *)

Lemma append_bracket_not_empty p : String.eqb (p ++ "[") EmptyString = false.
Proof. by destruct p. Qed.

Lemma length_append_bracket p :
  String.length (p ++ "[") = S (String.length p).
Proof. induction p as [|c p IH]; simpl; [done|]. by rewrite IH. Qed.

Lemma substring_last_bracket p :
  substring (String.length p) 1 (p ++ "[") = "[".
Proof. induction p as [|c p IH]; simpl; [done|]. exact IH. Qed.

Lemma endsWith_append_bracket p : endsWith (p ++ "[") "[" = true.
Proof.
  unfold endsWith. rewrite length_append_bracket. simpl.
  by rewrite Nat.sub_0_r, substring_last_bracket.
Qed.

Lemma joinPath_empty seg : joinPath EmptyString seg = seg.
Proof. reflexivity. Qed.

Lemma joinPath_bracket p seg :
  joinPath (p ++ "[") seg = ((p ++ "[") ++ seg ++ "]")%string.
Proof.
  unfold joinPath.
  by rewrite append_bracket_not_empty, endsWith_append_bracket.
Qed.

Lemma joinPath_dot p seg :
  p ≠ EmptyString → endsWith p "[" = false →
  joinPath p seg = (p ++ "." ++ seg)%string.
Proof.
  intros Hp Hend. unfold joinPath. rewrite Hend.
  destruct (String.eqb_spec p EmptyString); [done|done].
Qed.

(** The parser a numeric schema selects. *)
Definition parser_of schema : Value number → number :=
  match Sch.type schema with
  | T_int => parseInt
  | _ => parseFloat
  end.

Definition is_numeric schema : Prop :=
  (Sch.type schema = T_int ∨ Sch.type schema = T_float) ∧
  Sch.min schema = None ∧ Sch.max schema = None.

Lemma TypeChecker_numeric fuel st l schema data errors path :
  st !! l = Some schema → is_numeric schema →
  TypeChecker (S fuel) (Sch.type schema) st l data errors path
  = let value := get data (Sch.name schema) in
    if num_isNaN (parser_of schema value) then
      Val (st, data,
           errors ++ [Err.mk (joinPath path (Sch.name schema))
                             (Sch.type schema) value "not a number"],
           false)
    else
      Val (st, set data (Sch.name schema) (VNum (parser_of schema value)),
           errors, true).
Proof.
  intros Hl ([Hty|Hty] & Hmin & Hmax); simpl; rewrite Hl, Hty;
    unfold NumberTypeChecker, parser_of; rewrite Hty, Hmin, Hmax; simpl;
    by case_match.
Qed.

Lemma is_numeric_rename n schema :
  is_numeric schema → is_numeric (Sch.set_name n schema).
Proof. done. Qed.

Lemma TypeChecker_array_eq fuel st l schema data errors path :
  st !! l = Some schema →
  TypeChecker (S fuel) T_array st l data errors path
  = TypeChecker_array (TypeChecker fuel) st schema data errors path.
Proof. intros Hl. simpl. by rewrite Hl. Qed.

Lemma TypeChecker_object_eq fuel st l schema data errors path :
  st !! l = Some schema →
  TypeChecker (S fuel) T_object st l data errors path
  = TypeChecker_object (TypeChecker fuel) st schema data errors path.
Proof. intros Hl. simpl. by rewrite Hl. Qed.

Lemma isValid_single_present TC st l schema data errors path :
  st !! l = Some schema →
  has_property data (Sch.name schema) = Some true →
  is_null (get data (Sch.name schema)) = false →
  is_undefined (get data (Sch.name schema)) = false →
  isValid_single TC st l data errors path
  = TC (Sch.type schema) st l data errors path.
Proof.
  intros Hl Hin Hnull Hundef. unfold isValid_single.
  by rewrite Hl, Hin, Hnull, Hundef.
Qed.

#[local] Arguments TypeChecker : simpl never.

(** The loop of the array checker over numeric elements of which the
    first that does not parse is [v]. *)
Lemma numeric_loop_fails fuel clone pre :
  ∀ st c done v post errors path,
    st !! clone = Some c → is_numeric c →
    Forall (λ x, num_isNaN (parser_of c x) = false) pre →
    num_isNaN (parser_of c v) = true →
    ∃ st',
      array_loop (TypeChecker (S fuel)) (Some (Sch.type c)) clone
                 (seq (length done) (length (pre ++ v :: post))) st
                 (VArr (done ++ pre ++ v :: post)) errors path true
      = Val (st',
             VArr (done ++ map (λ x, VNum (parser_of c x)) pre ++ v :: post),
             errors ++ [Err.mk (joinPath path
                                  (index_name (length done + length pre)))
                               (Sch.type c) v "not a number"],
             false).
Proof.
  induction pre as [|x pre IH]; intros st c done v post errors path
    Hclone Hnum Hpre Hv.
  - simpl length. simpl seq. simpl array_loop.
    set (st1 := alter (Sch.set_name (index_name (length done))) clone st).
    assert (st1 !! clone = Some (Sch.set_name (index_name (length done)) c))
      as Hc1.
    { unfold st1. by rewrite list_lookup_alter_eq, Hclone. }
    pose proof (TypeChecker_numeric fuel st1 clone _
                  (VArr (done ++ v :: post)) errors path Hc1
                  (is_numeric_rename _ _ Hnum)) as Hcall.
    simpl in Hcall. rewrite Hcall. clear Hcall.
    assert (array_index (index_name (length done))
                        (length (done ++ v :: post)) = Some (length done))
      as Hidx.
    { apply array_index_name. rewrite length_app. simpl. lia. }
    rewrite Hidx, list_lookup_middle by done. simpl.
    change (parser_of (Sch.set_name (index_name (length done)) c))
      with (parser_of c).
    rewrite Hv. simpl. rewrite Nat.add_0_r.
    apply array_loop_false.
  - apply Forall_cons in Hpre as [Hx Hpre].
    simpl length. simpl seq. simpl array_loop.
    set (st1 := alter (Sch.set_name (index_name (length done))) clone st).
    assert (st1 !! clone = Some (Sch.set_name (index_name (length done)) c))
      as Hc1.
    { unfold st1. by rewrite list_lookup_alter_eq, Hclone. }
    pose proof (TypeChecker_numeric fuel st1 clone _
                  (VArr (done ++ (x :: pre) ++ v :: post)) errors path Hc1
                  (is_numeric_rename _ _ Hnum)) as Hcall.
    simpl in Hcall. rewrite Hcall. clear Hcall.
    assert (array_index (index_name (length done))
                        (length (done ++ x :: pre ++ v :: post))
            = Some (length done)) as Hidx.
    { apply array_index_name. rewrite length_app. simpl. lia. }
    rewrite Hidx, list_lookup_middle by done. simpl.
    change (parser_of (Sch.set_name (index_name (length done)) c))
      with (parser_of c).
    rewrite Hx. simpl.
    replace (<[length done:=VNum (parser_of c x)]>
               (done ++ x :: pre ++ v :: post))
      with ((done ++ [VNum (parser_of c x)]) ++ pre ++ v :: post).
    2:{ rewrite <- (Nat.add_0_r (length done)) at 1.
        rewrite insert_app_r. simpl. by rewrite <- app_assoc. }
    replace (S (length done)) with (length (done ++ [VNum (parser_of c x)]))
      by (rewrite length_app; simpl; lia).
    destruct (IH st1 (Sch.set_name (index_name (length done)) c)
                (done ++ [VNum (parser_of c x)]) v post errors path
                Hc1 (is_numeric_rename _ _ Hnum) Hpre Hv) as [st' Hst'].
    change (Sch.type (Sch.set_name (index_name (length done)) c))
      with (Sch.type c) in Hst'.
    exists st'. rewrite Hst', length_app. simpl.
    rewrite <- !app_assoc. simpl.
    replace (length done + 1 + length pre)
      with (length done + S (length pre)) by lia.
    reflexivity.
Qed.

Lemma append_assoc (a b c : string) :
  ((a ++ b) ++ c = a ++ b ++ c)%string.
Proof. induction a as [|x a IH]; simpl; [done|]. by rewrite IH. Qed.

Lemma length_append (a b : string) :
  String.length (a ++ b) = String.length a + String.length b.
Proof. induction a as [|x a IH]; simpl; [done|]. by rewrite IH. Qed.

(** The last character of [a ++ n] is that of [n]. *)
Lemma endsWith_append a n suffix :
  n ≠ EmptyString → String.length suffix = 1 →
  endsWith (a ++ n) suffix = endsWith n suffix.
Proof.
  intros Hn Hone. unfold endsWith. rewrite Hone.
  assert (1 ≤ String.length n) as Hlen by (destruct n; simpl; [done|lia]).
  induction a as [|c a IH]; [done|].
  rewrite <- IH. clear IH.
  pose proof (length_append a n) as Hsum.
  cbn [append String.length].
  destruct (String.length (a ++ n)) as [|k] eqn:Hk; [lia|].
  simpl. by rewrite Nat.sub_0_r.
Qed.

Lemma endsWith_closing p : endsWith (p ++ "]") "[" = false.
Proof. by rewrite endsWith_append. Qed.

Lemma append_not_empty a n : n ≠ EmptyString → (a ++ n)%string ≠ EmptyString.
Proof. by destruct a, n. Qed.

(** The object checker over one numeric field that does not parse,
    under any path (lines 235-253). *)
Lemma object_field_fails fuel st lo object lf field data v errors path :
  st !! lo = Some object → Sch.fields object = Some [lf] →
  st !! lf = Some field → is_numeric field →
  has_property data (Sch.name object) = Some true →
  typeof (get data (Sch.name object)) = Tobject →
  has_property (get data (Sch.name object)) (Sch.name field) = Some true →
  get (get data (Sch.name object)) (Sch.name field) = v →
  is_null v = false → is_undefined v = false →
  num_isNaN (parser_of field v) = true →
  TypeChecker (S (S fuel)) T_object st lo data errors path
  = Val (st, data,
         errors ++ [Err.mk (joinPath (joinPath path (Sch.name object))
                                     (Sch.name field))
                           (Sch.type field) v "not a number"],
         false).
Proof.
  intros Hlo Hfields Hlf Hnum Hin Hobj Hfin Hfget Hnull Hundef Hnan.
  rewrite (TypeChecker_object_eq _ _ _ object) by done.
  unfold TypeChecker_object, parse_fallback. rewrite Hobj. simpl.
  rewrite Hfields. simpl.
  rewrite (isValid_single_present _ _ _ field) by (done || by rewrite Hfget).
  rewrite (TypeChecker_numeric _ _ _ field) by done. simpl.
  rewrite Hfget, Hnan. simpl. by rewrite set_get_id.
Qed.

(** The array checker over numeric elements of which the first that does
    not parse is [v], under any path (lines 202-231). *)
Lemma numeric_array_fails fuel st l array le element data pre v post errors
    path :
  st !! l = Some array → Sch.elementType array = Some le →
  st !! le = Some element → is_numeric element →
  get data (Sch.name array) = VArr (pre ++ v :: post) →
  Forall (λ x, num_isNaN (parser_of element x) = false) pre →
  num_isNaN (parser_of element v) = true →
  ∃ st',
    TypeChecker (S (S fuel)) T_array st l data errors path
    = Val (st',
           set data (Sch.name array)
               (VArr (map (λ x, VNum (parser_of element x)) pre
                      ++ v :: post)),
           errors ++ [Err.mk (joinPath
                                (if negb (String.eqb path EmptyString)
                                 then (path ++ "." ++ Sch.name array ++ "[")
                                 else (Sch.name array ++ "["))%string
                                (index_name (length pre)))
                             (Sch.type element) v "not a number"],
           false).
Proof.
  intros Hl Hle Helem Hnum Hget Hpre Hv.
  rewrite (TypeChecker_array_eq _ _ _ array) by done.
  unfold TypeChecker_array, parse_fallback. rewrite Hget, Hle. simpl.
  rewrite Helem. simpl.
  assert ((st ++ [element]) !! length st = Some element) as Hclone.
  { by rewrite lookup_app_r, Nat.sub_diag. }
  match goal with
  | |- context [array_loop _ _ _ _ _ _ errors ?p true] =>
      destruct (numeric_loop_fails fuel (length st) pre (st ++ [element])
                  element [] v post errors p Hclone Hnum Hpre Hv)
        as [st' Hloop]
  end.
  simpl in Hloop. rewrite Hloop. simpl. by exists st'.
Qed.


End Claims.

(** * Concrete runs on the executable runtime *)

Definition int (z : Z) : Value Js.num := VNum (Js.Fin z 0).

Definition error (name : string) (type : SchemaType) (value : Value Js.num)
    (description : string) : SchemaError Js.num :=
  Err.mk name type value description.

(** ** C1 *)

Definition two_ints : Heap Js.num :=
  [NumericSchema "a" T_int None None None;
   NumericSchema "b" T_int None None None].

Definition bag_xy : Value Js.num := VObj [("a", VStr "x"); ("b", VStr "y")].

(** C1 is false as stated: both fields of [bag_xy] fail when validated on
    their own, yet validating the sequence leaves one error in the sink,
    that of the first field. *)
Lemma sequence_reports_first_failure_only :
  let error_a := error "a" T_int (VStr "x") "not a number" in
  let error_b := error "b" T_int (VStr "y") "not a number" in
  isValid 1 two_ints (One 0) bag_xy [] EmptyString
    = Val (two_ints, bag_xy, [error_a], false) ∧
  isValid 1 two_ints (One 1) bag_xy [] EmptyString
    = Val (two_ints, bag_xy, [error_b], false) ∧
  isValid 1 two_ints (Many [0; 1]) bag_xy [] EmptyString
    = Val (two_ints, bag_xy, [error_a], false).
Proof. repeat split. Qed.

Lemma isValid_stops_at_first_failure_witness :
  isValid 1 two_ints (Many ([] ++ 0 :: [1])) bag_xy [] EmptyString
    = Val (two_ints, bag_xy,
           [error "a" T_int (VStr "x") "not a number"], false)
  ∧ ∃ err, [error "a" T_int (VStr "x") "not a number"] = [] ++ [err].
Proof.
  apply (isValid_stops_at_first_failure 1 two_ints [] 0 [1] bag_xy []
           EmptyString two_ints bag_xy []); reflexivity.
Defined.

(** ** C2 and C4 *)

Definition array_of_ints : Heap Js.num :=
  [NumericSchema EmptyString T_int None None None; ArraySchema "ids" 0 None].

Definition bag_ids (elems : list (Value Js.num)) : Value Js.num :=
  VObj [("ids", VArr elems)].

(** [array_of_ints] as the array checker leaves it: the clone of the
    element schema is appended, under the name of the last index visited. *)
Definition array_of_ints_after (last : string) : Heap Js.num :=
  array_of_ints ++ [NumericSchema last T_int None None None].

(** C2 is false as stated: elements 0 and 1 both fail their own check,
    yet the array checker leaves one error in the sink, that of
    element 0. *)
Lemma array_reports_first_failure_only :
  let elems := [VStr "bad"; VStr "worse"; VStr "3"] in
  let error_0 := error "ids[0]" T_int (VStr "bad") "not a number" in
  let error_1 := error "ids[1]" T_int (VStr "worse") "not a number" in
  TypeChecker 1 T_int (array_of_ints_after "0") 2 (VArr elems) [] "ids["
    = Val (array_of_ints_after "0", VArr elems, [error_0], false) ∧
  TypeChecker 1 T_int (array_of_ints_after "1") 2 (VArr elems) [] "ids["
    = Val (array_of_ints_after "1", VArr elems, [error_1], false) ∧
  isValid 2 array_of_ints (One 1) (bag_ids elems) [] EmptyString
    = Val (array_of_ints_after "2", bag_ids elems, [error_0], false).
Proof. repeat split. Qed.

Lemma array_checker_stops_at_first_failure_witness :
  let elems := [VStr "1"; VStr "bad"; VStr "worse"] in
  let error_1 := error "ids[1]" T_int (VStr "bad") "not a number" in
  (∃ st3,
     TypeChecker 2 T_array array_of_ints 1 (bag_ids elems) [] EmptyString
     = Val (st3, bag_ids [int 1; VStr "bad"; VStr "worse"], [error_1],
            false))
  ∧
  (∃ err, [error_1] = [] ++ [err]).
Proof.
  intros elems error_1.
  destruct (array_checker_stops_at_first_failure 1 array_of_ints 1
              (ArraySchema "ids" 0 None) 0
              (NumericSchema EmptyString T_int None None None)
              (bag_ids elems) elems [] EmptyString)
    as (Hstop & _ & _); [reflexivity|reflexivity|reflexivity|reflexivity|].
  apply (Hstop 1 (array_of_ints_after "0")
               (VArr [int 1; VStr "bad"; VStr "worse"])
               (array_of_ints_after "1")
               (VArr [int 1; VStr "bad"; VStr "worse"]) [error_1]).
  - simpl. lia.
  - apply (next_element _ _ _ _ _ 0 _ _ (array_of_ints_after EmptyString)
             (VArr elems)); [constructor|reflexivity].
  - reflexivity.
Defined.



(** ** C3 *)

Definition one_flag : Heap Js.num := [BooleanSchema "flag" None None].

Lemma boolean_checker_keeps_false_string_witness :
  TypeChecker_boolean (BooleanSchema "flag" None None)
                      (VObj [("flag", VStr "false")]) [] EmptyString
  = (VObj [("flag", VStr "false")], [], true).
Proof.
  apply (boolean_checker_keeps_false_string (BooleanSchema "flag" None None)
           (VObj [("flag", VStr "false")]) [] EmptyString "false");
    [reflexivity|]. by left.
Defined.

(** What validation leaves in the bag for each accepted input: only
    [true], the strings [true] and [1] end as the boolean [true], and only
    [false] as the boolean [false]; the other four stay as they were. *)
Lemma boolean_checker_outputs :
  let run v := isValid 1 one_flag (One 0) (VObj [("flag", v)]) [] EmptyString in
  let left v := Val (one_flag, VObj [("flag", v)], [], true) in
  run (VBool true) = left (VBool true) ∧
  run (VBool false) = left (VBool false) ∧
  run (VStr "true") = left (VBool true) ∧
  run (VStr "1") = left (VBool true) ∧
  run (int 1) = left (int 1) ∧
  run (VStr "false") = left (VStr "false") ∧
  run (VStr "0") = left (VStr "0") ∧
  run (int 0) = left (int 0).
Proof. repeat split. Qed.

(** ** C5 *)

(** C5 is false as stated: the text [5] parses, to a number; the error
    records that number and not the text. *)
Lemma array_expected_records_parse_result :
  isValid 2 array_of_ints (One 1) (VObj [("ids", VStr "5")]) [] EmptyString
    = Val (array_of_ints, VObj [("ids", VStr "5")],
           [error "ids" T_array (int 5) "array expected"], false)
  ∧ int 5 ≠ VStr "5".
Proof. split; [reflexivity|discriminate]. Qed.

Lemma array_expected_witness :
  TypeChecker 1 T_array array_of_ints 1 (VObj [("ids", VStr "oops")]) []
              EmptyString
  = Val (array_of_ints, VObj [("ids", VStr "oops")],
         [error "ids" T_array (VStr "oops") "array expected"], false).
Proof.
  refine (array_expected 0 array_of_ints 1 (ArraySchema "ids" 0 None)
            (VObj [("ids", VStr "oops")]) [] EmptyString eq_refl eq_refl _).
  intros s parsed [= <-]. discriminate.
Defined.

(** ** C6 *)

Definition at_least_zero : Schema Js.num :=
  NumericSchema "n" T_int (Some (Js.Fin 0 0)) None None.

(** [{type: int, min: -10, max: 0}] *)
Definition at_most_zero : Schema Js.num :=
  NumericSchema "n" T_int (Some (Js.Fin (-1) 1)) (Some (Js.Fin 0 0)) None.

(** [{type: string, min_length: 0, max_length: 0}] *)
Definition no_text : Schema Js.num :=
  StringSchema "s" None (Some (Js.Fin 0 0)) (Some (Js.Fin 0 0)) None.


(** ** C7 *)

Definition user_with_age : Heap Js.num :=
  [NumericSchema "age" T_int None None None; ObjectSchema "user" [0] None].

(** [user_with_age] as the array checker of [users] hands it to the
    object checker: the clone of the element schema is named [0]. *)
Definition element_with_age : Heap Js.num :=
  [NumericSchema "age" T_int None None None; ObjectSchema "0" [0] None].


(** ** C9 *)

Lemma caller_schemas_not_mutated_witness :
  (∀ l schema, array_of_ints !! l = Some schema →
               array_of_ints_after "1" !! l = Some schema) ∧
  (∃ clones,
     array_of_ints_after "1" = array_of_ints ++ clones ∧
     ∀ c, c ∈ clones →
          ∃ l schema, array_of_ints !! l = Some schema ∧
                      c = Sch.set_name (Sch.name c) schema) ∧
  (array_of_ints_after "1" = array_of_ints ∨
   ∃ n, array_of_ints_after "1"
        = array_of_ints
          ++ [Sch.set_name n (NumericSchema EmptyString T_int None None None)]).
Proof.
  destruct (caller_schemas_not_mutated 2 array_of_ints (One 1)
              (bag_ids [VStr "1"; VStr "bad"]) [] EmptyString
              (array_of_ints_after "1") (bag_ids [int 1; VStr "bad"])
              [error "ids[1]" T_int (VStr "bad") "not a number"] false)
    as (Hsame & Hclones & Hone); [reflexivity|].
  split; [exact Hsame|]. split; [exact Hclones|].
  apply (Hone 1 (ArraySchema "ids" 0 None) 0
           (NumericSchema EmptyString T_int None None None));
    reflexivity || discriminate.
Defined.

(** ** C10 *)

Definition one_or_two : Schema Js.num :=
  EnumSchema "level" [SymNum (Js.Fin 1 0); SymNum (Js.Fin 2 0)] None.

Lemma enum_string_never_matches_numbers_witness :
  TypeChecker_enum one_or_two (VObj [("level", VStr "1")]) [] EmptyString
  = Val (VObj [("level", VStr "1")],
         [error "level" T_enum (VStr "1")
                "invalid symbol, valid symbols : [1, 2]"],
         false).
Proof.
  exact (enum_string_never_matches_numbers one_or_two
           [SymNum (Js.Fin 1 0); SymNum (Js.Fin 2 0)]
           (VObj [("level", VStr "1")]) [] EmptyString "1"
           eq_refl eq_refl eq_refl).
Defined.

(** ** C8 *)

Definition one_int : Heap Js.num := [NumericSchema "n" T_int None None None].

Definition empty_object : Heap Js.num := [ObjectSchema "o" [] None].

(** C8 is false as stated, on both counts.  The digits of 10^21 parse to
    the number 1e21, whose text is [1e+21], which [parseInt] reads as 1:
    validating the coerced bag again changes the value.  And the text
    [null] is accepted as an object and coerced to [null]: validating the
    coerced bag again fails, the field is now reported as not found. *)
Lemma revalidation_changes_or_fails :
  (isValid 1 one_int (Many [0]) (VObj [("n", VStr "1000000000000000000000")])
           [] EmptyString
     = Val (one_int, VObj [("n", VNum (Js.Fin 1 21))], [], true) ∧
   isValid 1 one_int (Many [0]) (VObj [("n", VNum (Js.Fin 1 21))])
           [] EmptyString
     = Val (one_int, VObj [("n", int 1)], [], true)) ∧
  (isValid 2 empty_object (Many [0]) (VObj [("o", VStr "null")])
           [] EmptyString
     = Val (empty_object, VObj [("o", VNull)], [], true) ∧
   isValid 2 empty_object (Many [0]) (VObj [("o", VNull)]) [] EmptyString
     = Val (empty_object, VObj [("o", VNull)],
            [error "o" T_object VNull "not found"], false)).
Proof. repeat split; reflexivity. Qed.

(** * Validating a coerced bag again *)

Section Revalidation.
Context {number : Type} {RT : JsRuntime number}.
Implicit Types (st : Heap number) (data value : Value number).
Implicit Types (errors : list (SchemaError number)) (path : string).
Implicit Types (schema : Schema number) (TC : Checker number).

(** [stable fuel st ty schema data]: in the field of [data] that
    [schema] names, checked as a [ty], every number that the checkers
    parse again is one that its parser maps to itself: the number of an
    int field under [parseInt], that of a float field under [parseFloat],
    and likewise in the elements of an array and in the fields of an
    object, as deep as [TypeChecker fuel] goes. *)
Fixpoint stable (fuel : nat) (st : Heap number) (ty : SchemaType)
    (schema : Schema number) (data : Value number) : Prop :=
  match fuel with
  | 0 => True
  | S fuel =>
      match ty with
      | T_int | T_float =>
          ∀ n, get data (Sch.name schema) = VNum n →
               parser_of schema (VNum n) = n
      | T_array =>
          ∀ le t elems,
            Sch.elementType schema = Some le → st !! le = Some t →
            get data (Sch.name schema) = VArr elems →
            ∀ i, i < length elems →
                 stable fuel st (Sch.type t) (Sch.set_name (index_name i) t)
                        (VArr elems)
      | T_object =>
          ∀ fs f field,
            Sch.fields schema = Some fs → f ∈ fs → st !! f = Some field →
            stable fuel st (Sch.type field) field
                   (get data (Sch.name schema))
      | _ => True
      end
  end.

(** The references of a schema object point below [n]. *)
Definition refs_below (n : nat) schema : Prop :=
  match Sch.elementType schema with Some le => le < n | None => True end ∧
  match Sch.fields schema with
  | Some fs => Forall (λ l, l < n) fs
  | None => True
  end.

(** No reference of the heap dangles. *)
Definition closed st : Prop := Forall (refs_below (length st)) st.

Definition field_names st (entries : list loc) : list (option string) :=
  map (λ l, Sch.name <$> st !! l) entries.

(** The invariant of the data model: sibling fields have distinct names. *)
Definition distinct_fields st : Prop :=
  Forall (λ schema, match Sch.fields schema with
                    | Some fs => NoDup (field_names st fs)
                    | None => True
                    end) st.

(** No value inside [v], nor [v] itself, is [null] or [undefined]. *)
Fixpoint no_null (v : Value number) : Prop :=
  match v with
  | VNull | VUndefined => False
  | VArr elems =>
      (fix all (l : list (Value number)) : Prop :=
         match l with
         | [] => True
         | e :: rest => no_null e ∧ all rest
         end) elems
  | VObj props =>
      (fix all (l : list (string * Value number)) : Prop :=
         match l with
         | [] => True
         | (_, e) :: rest => no_null e ∧ all rest
         end) props
  | _ => True
  end.

(** The outcome of a second pass over [data]: it passes, or reports a
    field as not found; and it passes when [data] holds no [null]. *)
Definition second_pass data errors errors' (valid : bool) : Prop :=
  (if valid then errors' = errors
   else ∃ err, errors' = errors ++ [err] ∧
               Err.description err = "not found") ∧
  (no_null data → valid = true).

Lemma second_pass_true data errors : second_pass data errors errors true.
Proof. done. Qed.

Lemma second_pass_within data value errors errors' valid :
  (no_null data → no_null value) →
  second_pass value errors errors' valid →
  second_pass data errors errors' valid.
Proof.
  intros Hin [Hpass Hvalid]. split; [done|].
  intros H. by apply Hvalid, Hin.
Qed.

Lemma no_null_get data name :
  no_null data → has_property data name = Some true →
  no_null (get data name).
Proof.
  destruct data as [| | | | |elems|props]; simpl; try done.
  - destruct (array_index name (length elems)) as [i|] eqn:Hi; [|done].
    apply array_index_Some in Hi as [_ Hi]. intros H _. revert i Hi H.
    induction elems as [|e elems IH]; intros [|i] Hi; simpl in *; try lia.
    + tauto.
    + intros [_ H]. apply IH; [lia|done].
  - induction props as [|[k e] props IH]; simpl; [done|].
    intros [He H]. destruct (String.eqb k name); [done|]. by apply IH.
Qed.

Definition touches TC : Prop :=
  ∀ ty st l schema data errors path st' data' errors' valid,
    st !! l = Some schema →
    TC ty st l data errors path = Val (st', data', errors', valid) →
    data' = data ∨ ∃ x, data' = set data (Sch.name schema) x.

Lemma TypeChecker_touches_all fuel : touches (TypeChecker fuel).
Proof.
  intros ty st l schema data errors path st' data' errors' valid.
  apply TypeChecker_touches.
Qed.

Definition array_length data : option nat :=
  match data with VArr elems => Some (length elems) | _ => None end.

Lemma array_length_set data n x :
  array_length (set data n x) = array_length data.
Proof.
  destruct data as [| | | | |elems|props]; simpl; try done.
  destruct (array_index n (length elems)); simpl; [|done].
  by rewrite length_insert.
Qed.

(** What a rewrite of property [n] preserves. *)
Definition same_but (n : string) data data' : Prop :=
  typeof data' = typeof data ∧
  array_length data' = array_length data ∧
  (∀ m, m ≠ n → get data' m = get data m) ∧
  (∀ m, m ≠ n → has_property data' m = has_property data m) ∧
  (has_property data n = Some true → has_property data' n = Some true).

Lemma same_but_refl n data : same_but n data data.
Proof. done. Qed.

Lemma same_but_set n data x : same_but n data (set data n x).
Proof.
  split; [apply typeof_set|]. split; [apply array_length_set|].
  split; [|split].
  - intros m Hm. by apply get_set_ne.
  - intros m Hm. by apply has_property_set_ne.
  - apply has_property_set_eq.
Qed.

Lemma touches_same_but n data data' :
  data' = data ∨ (∃ x, data' = set data n x) → same_but n data data'.
Proof. intros [->|[x ->]]; [apply same_but_refl|apply same_but_set]. Qed.

Lemma isValid_single_touches TC st l schema data errors path
    st' data' errors' valid :
  touches TC → st !! l = Some schema →
  isValid_single TC st l data errors path = Val (st', data', errors', valid) →
  same_but (Sch.name schema) data data'.
Proof.
  intros HTC Hl. unfold isValid_single. rewrite Hl.
  repeat case_match; try discriminate.
  - intros [= <- <- <- <-]. apply same_but_refl.
  - intros [= <- <- <- <-]. apply same_but_refl.
  - intros Hcall. eapply touches_same_but, HTC; eauto.
Qed.

(** ** The primitive checkers accept what they wrote *)

Section Primitive.
Variables (schema : Schema number) (dataA dataA' dataB : Value number).
Variables (errorsA errorsA' errorsB : list (SchemaError number)).
Variables (pathA pathB : string).
Hypothesis presentA : has_property dataA (Sch.name schema) = Some true.
Hypothesis presentB : has_property dataB (Sch.name schema) = Some true.
Hypothesis same :
  get dataB (Sch.name schema) = get dataA' (Sch.name schema).
Hypothesis fixed :
  ∀ n, get dataB (Sch.name schema) = VNum n → parser_of schema (VNum n) = n.

Lemma NumberTypeChecker_again :
  NumberTypeChecker schema dataA errorsA pathA = (dataA', errorsA', true) →
  NumberTypeChecker schema dataB errorsB pathB = (dataB, errorsB, true).
Proof.
  unfold NumberTypeChecker.
  set (raw := get dataA (Sch.name schema)).
  set (parse := match Sch.type schema with
                | T_int => parseInt
                | _ => parseFloat
                end).
  replace (match Sch.type schema with
           | T_int => parseInt raw
           | _ => parseFloat raw
           end) with (parse raw) by (unfold parse; by destruct (Sch.type _)).
  replace (match Sch.type schema with
           | T_int => parseInt (get dataB (Sch.name schema))
           | _ => parseFloat (get dataB (Sch.name schema))
           end) with (parse (get dataB (Sch.name schema)))
    by (unfold parse; by destruct (Sch.type _)).
  destruct (num_isNaN (parse raw)) eqn:Hnan; [discriminate|].
  destruct (bound_set (Sch.min schema) && lt_bound (parse raw) (Sch.min schema))
    eqn:Hmin; [discriminate|].
  destruct (bound_set (Sch.max schema) && gt_bound (parse raw) (Sch.max schema))
    eqn:Hmax; [discriminate|].
  intros [= <- _].
  rewrite get_set_eq in same by done.
  assert (parse (VNum (parse raw)) = parse raw) as Hfix.
  { rewrite same in fixed. exact (fixed _ eq_refl). }
  rewrite same, Hfix, Hnan, Hmin, Hmax.
  by rewrite <- same, set_get_id.
Qed.

(** The value the string checker measures, and its verdict on it:
    [None] when it passes, the description of the error otherwise. *)
Definition stringified (raw : Value number) : Value number :=
  if negb (JsType_eqb (typeof raw) Tstring) then
    match JSON_stringify raw with
    | Some s => VStr s
    | None => VUndefined
    end
  else raw.

Definition string_verdict (value : Value number) : result (option string) :=
  let len (k : number → result (option string)) :=
    match length_of value with Some n => k n | None => TypeError end in
  let check_max :=
    if bound_set (Sch.max_length schema) then
      len (λ n, if gt_bound n (Sch.max_length schema)
                then Val (Some "length greater than max") else Val None)
    else Val None in
  let check_min :=
    if bound_set (Sch.min_length schema) then
      len (λ n, if lt_bound n (Sch.min_length schema)
                then Val (Some "length less than min") else check_max)
    else check_max in
  if bound_truthy (Sch.length schema) then
    len (λ n, if negb (match Sch.length schema with
                       | Some l => num_eq n l
                       | None => false
                       end)
              then Val (Some "length not match") else check_min)
  else check_min.

Lemma TypeChecker_string_verdict data errors path :
  TypeChecker_string schema data errors path
  = let value := stringified (get data (Sch.name schema)) in
    match string_verdict value with
    | Val None => Val (set data (Sch.name schema) value, errors, true)
    | Val (Some desc) =>
        Val (data, pushError errors path (Sch.name schema) (Sch.type schema)
                             value desc, false)
    | TypeError => TypeError
    | OutOfFuel => OutOfFuel
    end.
Proof.
  unfold TypeChecker_string, string_verdict, stringified.
  repeat case_match; simplify_eq; done.
Qed.

Hypothesis stringify_undefined :
  JSON_stringify (VUndefined : Value number) = None.

Lemma stringified_twice raw : stringified (stringified raw) = stringified raw.
Proof.
  unfold stringified at 2 3.
  destruct (negb (JsType_eqb (typeof raw) Tstring)) eqn:E.
  - destruct (JSON_stringify raw); [done|].
    unfold stringified. simpl. by rewrite stringify_undefined.
  - unfold stringified. by rewrite E.
Qed.

Lemma TypeChecker_string_again :
  TypeChecker_string schema dataA errorsA pathA
    = Val (dataA', errorsA', true) →
  TypeChecker_string schema dataB errorsB pathB = Val (dataB, errorsB, true).
Proof.
  clear fixed. rewrite !TypeChecker_string_verdict. simpl.
  destruct (string_verdict (stringified (get dataA (Sch.name schema))))
    as [[desc|]| |] eqn:Hverdict; try discriminate.
  intros [= <- _]. rewrite get_set_eq in same by done.
  rewrite same, stringified_twice, Hverdict.
  by rewrite <- same, set_get_id.
Qed.

Lemma TypeChecker_boolean_again :
  TypeChecker_boolean schema dataA errorsA pathA = (dataA', errorsA', true) →
  TypeChecker_boolean schema dataB errorsB pathB = (dataB, errorsB, true).
Proof.
  clear fixed stringify_undefined. unfold TypeChecker_boolean.
  set (raw := get dataA (Sch.name schema)).
  set (allowed := _ ++ _).
  destruct (includes allowed raw) eqn:Hin; [|discriminate]. cbn [negb].
  intros [= <- _]. rewrite get_set_eq in same by done. rewrite same.
  destruct (strict_eq raw (VStr "true") || strict_eq raw (VStr "1")) eqn:Htrue.
  - replace (includes allowed (VBool true)) with true by done.
    cbn [negb]. replace (strict_eq (VBool true) _ || _) with false by done.
    by rewrite <- same, set_get_id.
  - rewrite Hin, Htrue. cbn [negb]. by rewrite <- same, set_get_id.
Qed.

Lemma TypeChecker_enum_again :
  TypeChecker_enum schema dataA errorsA pathA = Val (dataA', errorsA', true) →
  TypeChecker_enum schema dataB errorsB pathB = Val (dataB, errorsB, true).
Proof.
  clear fixed stringify_undefined presentA presentB.
  unfold TypeChecker_enum.
  repeat case_match; try discriminate; intros ?; simplify_eq; congruence.
Qed.

End Primitive.

(** ** The composite checkers and the two loops *)

Section Composite.
Variable st0 : Heap number.
Hypothesis st0_closed : closed st0.
Hypothesis st0_distinct : distinct_fields st0.
Hypothesis stringify_undefined :
  JSON_stringify (VUndefined : Value number) = None.

Lemma lookup_extends st l :
  extends st0 st → l < length st0 → st !! l = st0 !! l.
Proof. intros (clones & -> & _) Hl. by apply lookup_app_l. Qed.

Lemma cell_of_extends st l schema :
  extends st0 st → st !! l = Some schema → renamed_copy st0 schema.
Proof.
  intros (clones & -> & Hclones) Hl.
  apply lookup_app_Some in Hl as [Hl|[_ Hl]].
  - exists l, schema. by rewrite set_name_same.
  - rewrite Forall_lookup in Hclones. by eapply Hclones.
Qed.

Lemma cell_refs_below st l schema :
  extends st0 st → st !! l = Some schema → refs_below (length st0) schema.
Proof.
  intros Hext Hl.
  destruct (cell_of_extends _ _ _ Hext Hl) as (l0 & s0 & Hl0 & Heq).
  rewrite Heq.
  unfold closed in st0_closed. rewrite Forall_lookup in st0_closed.
  exact (st0_closed _ _ Hl0).
Qed.

Lemma cell_fields_distinct st l schema fs :
  extends st0 st → st !! l = Some schema → Sch.fields schema = Some fs →
  NoDup (field_names st0 fs).
Proof.
  intros Hext Hl Hfs.
  destruct (cell_of_extends _ _ _ Hext Hl) as (l0 & s0 & Hl0 & Heq).
  rewrite Heq in Hfs. simpl in Hfs.
  unfold distinct_fields in st0_distinct.
  rewrite Forall_lookup in st0_distinct.
  specialize (st0_distinct _ _ Hl0). simpl in st0_distinct.
  by rewrite Hfs in st0_distinct.
Qed.

(** A second run of [TC] on what a passing first run wrote, where the
    numbers are [Stable]. *)
Definition idempotent TC
    (Stable : SchemaType → Schema number → Value number → Prop) : Prop :=
  ∀ ty stA lA schema dataA errorsA pathA stA' dataA' errorsA'
    stB lB dataB errorsB pathB,
    extends st0 stA → extends st0 stB →
    stA !! lA = Some schema → stB !! lB = Some schema →
    TC ty stA lA dataA errorsA pathA = Val (stA', dataA', errorsA', true) →
    has_property dataA (Sch.name schema) = Some true →
    has_property dataB (Sch.name schema) = Some true →
    get dataB (Sch.name schema) = get dataA' (Sch.name schema) →
    Stable ty schema dataB →
    ∃ stB' errorsB' valid,
      TC ty stB lB dataB errorsB pathB = Val (stB', dataB, errorsB', valid) ∧
      second_pass dataB errorsB errorsB' valid.

Section Loops.
Variable TC : Checker number.
Variable Stable : SchemaType → Schema number → Value number → Prop.
Hypothesis TC_frames : frames TC.
Hypothesis TC_touches : touches TC.
Hypothesis TC_idempotent : idempotent TC Stable.

Lemma isValid_loop_same_but entries :
  ∀ st data errors path valid st' data' errors' valid' n,
    extends st0 st → Forall (λ l, l < length st0) entries →
    Some n ∉ field_names st0 entries →
    isValid_loop (isValid_single TC) entries st data errors path valid
      = Val (st', data', errors', valid') →
    typeof data' = typeof data ∧ get data' n = get data n ∧
    has_property data' n = has_property data n.
Proof.
  induction entries as [|l rest IH];
    intros st data errors path valid st' data' errors' valid' n
      Hext Hbelow Hn; simpl.
  { by intros [= <- <- <- <-]. }
  apply Forall_cons in Hbelow as [Hl Hbelow].
  apply not_elem_of_cons in Hn as [Hnl Hn].
  destruct valid; [|by apply IH].
  destruct (isValid_single TC st l data errors path)
    as [[[[st1 d1] e1] v1]| |] eqn:E; simpl; try discriminate.
  intros Hrest.
  pose proof E as Hframe. apply isValid_single_frames in Hframe; [|done].
  destruct (st !! l) as [schema|] eqn:Hst;
    [|unfold isValid_single in E; by rewrite Hst in E].
  pose proof (isValid_single_touches _ _ _ _ _ _ _ _ _ _ _ TC_touches Hst E)
    as (Hty & _ & Hget & Hin & _).
  rewrite lookup_extends in Hst by done. rewrite Hst in Hnl. simpl in Hnl.
  assert (n ≠ Sch.name schema) as Hne by congruence.
  apply IH with (n := n) in Hrest as (Hty' & Hget' & Hin');
    [|exact (extends_trans _ _ _ Hext Hframe)|done..].
  by rewrite Hty', Hget', Hin', Hty, Hget, Hin.
Qed.

Lemma isValid_single_again stA l dataA errorsA pathA stA' dataA' errorsA'
    stB dataB errorsB pathB :
  extends st0 stA → extends st0 stB → l < length st0 →
  isValid_single TC stA l dataA errorsA pathA
    = Val (stA', dataA', errorsA', true) →
  (∀ schema, st0 !! l = Some schema →
     has_property dataB (Sch.name schema)
       = has_property dataA' (Sch.name schema) ∧
     get dataB (Sch.name schema) = get dataA' (Sch.name schema)) →
  (∀ schema, st0 !! l = Some schema →
     Stable (Sch.type schema) schema dataB) →
  ∃ stB' errorsB' valid,
    isValid_single TC stB l dataB errorsB pathB
      = Val (stB', dataB, errorsB', valid) ∧
    second_pass dataB errorsB errorsB' valid.
Proof.
  intros HextA HextB Hl HA Hsame Hstable.
  unfold isValid_single in HA |- *.
  rewrite (lookup_extends stB) by done.
  rewrite <- (lookup_extends stA) by done.
  destruct (stA !! l) as [schema|] eqn:Hst; [|discriminate].
  cbv beta iota in HA |- *.
  pose proof Hst as Hst0. rewrite lookup_extends in Hst0 by done.
  destruct (Hsame _ Hst0) as [Hin Hget].
  destruct (has_property dataA (Sch.name schema)) as [present|] eqn:HinA;
    [|discriminate].
  destruct (negb present || is_null (get dataA (Sch.name schema))
            || is_undefined (get dataA (Sch.name schema))) eqn:Hmissing.
  - destruct (bool_decide (Sch.optional schema = Some true)) eqn:Hopt;
      [|discriminate].
    injection HA as <- <- <-.
    exists stB, errorsB, true.
    by rewrite Hin, HinA, Hget, Hmissing.
  - apply orb_false_iff in Hmissing as [[Hp _]%orb_false_iff _].
    apply negb_false_iff in Hp as ->.
    pose proof (TC_touches _ _ _ _ _ _ _ _ _ _ _ Hst HA) as Htouch.
    apply touches_same_but in Htouch as (_ & _ & _ & _ & Hkeep).
    assert (has_property dataB (Sch.name schema) = Some true) as HinB
      by by rewrite Hin, (Hkeep HinA).
    destruct (is_null (get dataB (Sch.name schema))
              || is_undefined (get dataB (Sch.name schema))) eqn:Hnull.
    + destruct (bool_decide (Sch.optional schema = Some true)) eqn:Hopt.
      * exists stB, errorsB, true.
        by rewrite HinB, orb_false_l, Hnull.
      * eexists stB, _, false.
        rewrite HinB, orb_false_l, Hnull.
        split; [done|]. split; [unfold pushError; by eexists|].
        intros Hdefined.
        apply (no_null_get _ (Sch.name schema)) in Hdefined; [|done].
        by destruct (get dataB (Sch.name schema)).
    + destruct (TC_idempotent (Sch.type schema) stA l schema dataA errorsA
                  pathA stA' dataA' errorsA' stB l dataB errorsB pathB)
        as (stB' & errorsB' & valid & HB & Hpass); try done.
      { by rewrite lookup_extends, <- Hst0. }
      { by apply Hstable. }
      exists stB', errorsB', valid.
      by rewrite HinB, orb_false_l, Hnull.
Qed.

Lemma isValid_loop_again entries :
  ∀ stA dataA errorsA pathA stA' dataA' errorsA' stB dataB errorsB pathB,
    extends st0 stA → extends st0 stB →
    Forall (λ l, l < length st0) entries →
    NoDup (field_names st0 entries) →
    isValid_loop (isValid_single TC) entries stA dataA errorsA pathA true
      = Val (stA', dataA', errorsA', true) →
    (∀ l schema, l ∈ entries → st0 !! l = Some schema →
       has_property dataB (Sch.name schema)
         = has_property dataA' (Sch.name schema) ∧
       get dataB (Sch.name schema) = get dataA' (Sch.name schema)) →
    (∀ l schema, l ∈ entries → st0 !! l = Some schema →
       Stable (Sch.type schema) schema dataB) →
    ∃ stB' errorsB' valid,
      isValid_loop (isValid_single TC) entries stB dataB errorsB pathB true
        = Val (stB', dataB, errorsB', valid) ∧
      second_pass dataB errorsB errorsB' valid.
Proof.
  induction entries as [|l rest IH];
    intros stA dataA errorsA pathA stA' dataA' errorsA' stB dataB errorsB
      pathB HextA HextB Hbelow Hnodup HA Hsame Hstable; simpl in *.
  { by exists stB, errorsB, true. }
  apply Forall_cons in Hbelow as [Hl Hbelow].
  apply NoDup_cons in Hnodup as [Hfresh Hnodup].
  destruct (isValid_single TC stA l dataA errorsA pathA)
    as [[[[stA1 dA1] eA1] vA1]| |] eqn:E; simpl in HA; try discriminate.
  destruct vA1; [|by rewrite isValid_loop_false in HA].
  pose proof E as HframeA. apply isValid_single_frames in HframeA; [|done].
  pose proof (extends_trans _ _ _ HextA HframeA) as HextA1.
  destruct (isValid_single_again stA l dataA errorsA pathA stA1 dA1 eA1
              stB dataB errorsB pathB HextA HextB Hl E)
    as (stB1 & eB1 & vB1 & HB & Hpass);
    [|intros schema Hschema; apply (Hstable l); [by left|done]|].
  { intros schema Hschema.
    destruct (Hsame l schema) as [Hin Hget]; [by left|done|].
    rewrite Hschema in Hfresh. simpl in Hfresh.
    destruct (isValid_loop_same_but rest _ _ _ _ _ _ _ _ _ _
                HextA1 Hbelow Hfresh HA) as (_ & Hget' & Hin').
    by rewrite Hin, Hget, Hget', Hin'. }
  rewrite HB. simpl.
  destruct vB1.
  - destruct Hpass as [-> _].
    eapply IH; eauto.
    + apply isValid_single_frames in HB; [|done].
      exact (extends_trans _ _ _ HextB HB).
    + intros l' schema Hl'. apply Hsame. by right.
    + intros l' schema Hl'. apply (Hstable l'). by right.
  - rewrite isValid_loop_false. by exists stB1, eB1, false.
Qed.

Lemma array_loop_same_but indices :
  ∀ ty clone st c value errors path valid st' value' errors' valid' j,
    st !! clone = Some c → j ∉ indices →
    array_loop TC ty clone indices st value errors path valid
      = Val (st', value', errors', valid') →
    array_length value' = array_length value ∧
    get value' (index_name j) = get value (index_name j) ∧
    has_property value' (index_name j) = has_property value (index_name j).
Proof.
  induction indices as [|i rest IH];
    intros ty clone st c value errors path valid st' value' errors' valid' j
      Hclone Hj; simpl.
  { by intros [= <- <- <- <-]. }
  apply not_elem_of_cons in Hj as [Hji Hj].
  assert (alter (Sch.set_name (index_name i)) clone st !! clone
          = Some (Sch.set_name (index_name i) c)) as Hclone1.
  { by rewrite list_lookup_alter_eq, Hclone. }
  destruct valid; [|by eapply IH].
  destruct ty as [t|]; [|discriminate].
  destruct (TC t _ clone value errors path)
    as [[[[st1 v1] e1] b1]| |] eqn:E; simpl; try discriminate.
  intros Hrest.
  pose proof (TC_touches _ _ _ _ _ _ _ _ _ _ _ Hclone1 E) as Htouch.
  apply touches_same_but in Htouch as (_ & Hlen & Hget & Hin & _).
  simpl in Hget, Hin.
  assert (index_name j ≠ index_name i) as Hne
    by (intros ?%index_name_inj; done).
  apply TC_frames in E.
  eapply IH in Hrest as (Hlen' & Hget' & Hin');
    [|by eapply extends_lookup|done].
  by rewrite Hlen', Hget', Hin', Hlen, Hget, Hin.
Qed.

Lemma array_loop_again indices :
  ∀ ty cloneA cloneB stA cA valueA errorsA pathA stA' final errorsA'
    stB cB dataB errorsB pathB,
    extends st0 stA → extends st0 stB →
    length st0 ≤ cloneA → length st0 ≤ cloneB →
    stA !! cloneA = Some cA → stB !! cloneB = Some cB →
    (∀ n, Sch.set_name n cA = Sch.set_name n cB) →
    NoDup indices →
    array_loop TC (Some ty) cloneA indices stA valueA errorsA pathA true
      = Val (stA', final, errorsA', true) →
    (∀ i, i ∈ indices →
       has_property valueA (index_name i) = Some true ∧
       has_property dataB (index_name i) = Some true ∧
       get dataB (index_name i) = get final (index_name i)) →
    (∀ i, i ∈ indices →
       Stable ty (Sch.set_name (index_name i) cA) dataB) →
    ∃ stB' errorsB' valid,
      array_loop TC (Some ty) cloneB indices stB dataB errorsB pathB true
        = Val (stB', dataB, errorsB', valid) ∧
      second_pass dataB errorsB errorsB' valid.
Proof.
  induction indices as [|i rest IH];
    intros ty cloneA cloneB stA cA valueA errorsA pathA stA' final errorsA'
      stB cB dataB errorsB pathB HextA HextB HleA HleB HcA HcB Hcopy Hnodup
      HA Hsame Hstable; simpl in *.
  { by exists stB, errorsB, true. }
  apply NoDup_cons in Hnodup as [Hfresh Hnodup].
  set (stA1 := alter (Sch.set_name (index_name i)) cloneA stA) in *.
  set (stB1 := alter (Sch.set_name (index_name i)) cloneB stB).
  assert (stA1 !! cloneA = Some (Sch.set_name (index_name i) cA)) as HcA1.
  { unfold stA1. by rewrite list_lookup_alter_eq, HcA. }
  assert (stB1 !! cloneB = Some (Sch.set_name (index_name i) cA)) as HcB1.
  { unfold stB1. by rewrite list_lookup_alter_eq, HcB, Hcopy. }
  pose proof (extends_rename _ _ (index_name i) _ HextA HleA) as HextA1.
  pose proof (extends_rename _ _ (index_name i) _ HextB HleB) as HextB1.
  fold stA1 in HextA1. fold stB1 in HextB1.
  destruct (TC ty stA1 cloneA valueA errorsA pathA)
    as [[[[stA2 vA2] eA2] bA2]| |] eqn:E; simpl in HA; try discriminate.
  destruct bA2.
  2:{ destruct (array_loop_false TC (Some ty) cloneA rest stA2 vA2 eA2 pathA)
        as [s Hs]. by rewrite Hs in HA. }
  pose proof (TC_frames _ _ _ _ _ _ _ _ _ _ E) as HframeA.
  pose proof (TC_touches _ _ _ _ _ _ _ _ _ _ _ HcA1 E) as Htouch.
  apply touches_same_but in Htouch as (_ & _ & _ & HinA2 & _).
  simpl in HinA2.
  destruct (Hsame i) as (HinA & HinB & Hget); [by left|].
  pose proof (extends_lookup _ _ _ _ HframeA HcA1) as HcA2.
  destruct (array_loop_same_but rest _ _ _ _ _ _ _ _ _ _ _ _ i
              HcA2 Hfresh HA) as (_ & Hget' & _).
  destruct (TC_idempotent ty stA1 cloneA _ valueA errorsA pathA stA2 vA2 eA2
              stB1 cloneB dataB errorsB pathB HextA1 HextB1 HcA1 HcB1 E)
    as (stB2 & eB2 & bB2 & HB & Hpass); try done.
  { simpl. by rewrite Hget, Hget'. }
  { apply Hstable. by left. }
  rewrite HB. simpl.
  pose proof (TC_frames _ _ _ _ _ _ _ _ _ _ HB) as HframeB.
  destruct bB2.
  - destruct Hpass as [-> _].
    pose proof (extends_lookup _ _ _ _ HframeB HcB1) as HcB2.
    apply (IH ty cloneA cloneB stA2 _ vA2 eA2 pathA stA' final errorsA'
              stB2 _ dataB errorsB pathB
              (extends_trans _ _ _ HextA1 HframeA)
              (extends_trans _ _ _ HextB1 HframeB)
              HleA HleB HcA2 HcB2 (λ n, eq_refl) Hnodup HA).
    + intros j Hj.
      destruct (Hsame j) as (HjA & HjB & Hjget); [by right|].
      split; [|done].
      rewrite HinA2; [done|].
      intros Hji%index_name_inj. by subst.
    + intros j Hj. rewrite set_name_twice. apply Hstable. by right.
  - destruct (array_loop_false TC (Some ty) cloneB rest stB2 dataB eB2 pathB)
      as [s Hs]. exists s, eB2, false. by rewrite Hs.
Qed.

Lemma parse_fallback_wanted (is_wanted : Value number → bool) raw :
  is_wanted raw = true → parse_fallback is_wanted raw = raw.
Proof. intros H. unfold parse_fallback. by rewrite H. Qed.

Lemma TypeChecker_array_again stA lA schema dataA errorsA pathA
    stA' dataA' errorsA' stB dataB errorsB pathB :
  extends st0 stA → extends st0 stB → stA !! lA = Some schema →
  TypeChecker_array TC stA schema dataA errorsA pathA
    = Val (stA', dataA', errorsA', true) →
  has_property dataA (Sch.name schema) = Some true →
  has_property dataB (Sch.name schema) = Some true →
  get dataB (Sch.name schema) = get dataA' (Sch.name schema) →
  (∀ le t elems,
     Sch.elementType schema = Some le → st0 !! le = Some t →
     get dataB (Sch.name schema) = VArr elems →
     ∀ i, i < length elems →
          Stable (Sch.type t) (Sch.set_name (index_name i) t)
                 (VArr elems)) →
  ∃ stB' errorsB' valid,
    TypeChecker_array TC stB schema dataB errorsB pathB
      = Val (stB', dataB, errorsB', valid) ∧
    second_pass dataB errorsB errorsB' valid.
Proof.
  intros HextA HextB HlA HA HinA HinB Hget Hstable.
  pose proof (cell_refs_below _ _ _ HextA HlA) as [Hle _].
  unfold TypeChecker_array in HA.
  set (rawA := get dataA (Sch.name schema)) in HA.
  set (valueA := parse_fallback Array_isArray rawA) in HA.
  destruct (negb (Array_isArray rawA) && negb (Array_isArray valueA))
    eqn:Hfail; [discriminate|].
  assert (∃ elemsA, valueA = VArr elemsA) as [elemsA HvalueA].
  { destruct (Array_isArray rawA) eqn:Hraw.
    - unfold valueA. rewrite parse_fallback_wanted by done.
      destruct rawA; try done. by eexists.
    - simpl in Hfail. apply negb_false_iff in Hfail.
      destruct valueA; try done. by eexists. }
  rewrite HvalueA in HA.
  set (data1 := if negb (Array_isArray rawA)
                then set dataA (Sch.name schema) (VArr elemsA) else dataA)
    in HA.
  assert (has_property data1 (Sch.name schema) = Some true) as Hin1.
  { unfold data1. destruct (negb _); [|done]. by apply has_property_set_eq. }
  set (pathA' := (if negb (String.eqb pathA EmptyString)
                  then (pathA ++ "." ++ Sch.name schema ++ "[")%string
                  else (Sch.name schema ++ "[")%string)) in HA.
  set (pathB' := (if negb (String.eqb pathB EmptyString)
                  then (pathB ++ "." ++ Sch.name schema ++ "[")%string
                  else (Sch.name schema ++ "[")%string)).
  (* the second run finds the array the first run left *)
  assert (∀ stA2 final errorsA2,
    array_loop TC (Sch.type <$> (Sch.elementType schema ≫= (λ l, stA !! l)))
      (length stA) (seq 0 (length elemsA))
      (match Sch.elementType schema ≫= (λ l, stA !! l) with
       | Some t => stA ++ [t]
       | None => stA
       end) (VArr elemsA) errorsA pathA' true
    = Val (stA2, final, errorsA2, true) →
    get dataB (Sch.name schema) = final →
    ∃ stB' errorsB' valid,
      TypeChecker_array TC stB schema dataB errorsB pathB
        = Val (stB', dataB, errorsB', valid) ∧
      second_pass dataB errorsB errorsB' valid) as Hmain.
  { intros stA2 final errorsA2 Hloop Hfinal.
    assert (Sch.elementType schema ≫= (λ l, stB !! l)
            = Sch.elementType schema ≫= (λ l, stA !! l)) as Htemplate.
    { destruct (Sch.elementType schema) as [le|]; simpl in Hle |- *; [|done].
      by rewrite (lookup_extends stA), (lookup_extends stB). }
    destruct (Sch.elementType schema ≫= (λ l, stA !! l)) as [t|] eqn:Ht;
      simpl in Hloop.
    - assert (extends stA (stA ++ [t])) as Halloc.
      { destruct (Sch.elementType schema) as [le|]; simpl in Ht; [|done].
        by eapply extends_alloc. }
      assert (extends stB (stB ++ [t])) as HallocB.
      { destruct (Sch.elementType schema) as [le|]; simpl in Ht, Htemplate;
          [|done].
        rewrite <- Htemplate in Ht. by eapply extends_alloc. }
      assert ((stA ++ [t]) !! length stA = Some t) as HcloneA
        by by rewrite lookup_app_r, Nat.sub_diag.
      assert ((stB ++ [t]) !! length stB = Some t) as HcloneB
        by by rewrite lookup_app_r, Nat.sub_diag.
      assert (length elemsA ∉ seq 0 (length elemsA)) as Hout
        by (rewrite elem_of_seq; lia).
      destruct (array_loop_same_but _ _ _ _ _ _ _ _ _ _ _ _ _ _
                  HcloneA Hout Hloop) as (Hlen & _).
      destruct final as [| | | | |elems2|]; try done.
      simpl in Hlen. injection Hlen as Hlen.
      destruct (array_loop_again (seq 0 (length elemsA)) (Sch.type t)
                  (length stA) (length stB) (stA ++ [t]) t (VArr elemsA)
                  errorsA pathA' stA2 (VArr elems2) errorsA2
                  (stB ++ [t]) t (VArr elems2) errorsB pathB')
        as (stB' & errorsB' & valid & HB & Hpass); try done.
      + exact (extends_trans _ _ _ HextA Halloc).
      + exact (extends_trans _ _ _ HextB HallocB).
      + by apply extends_length.
      + by apply extends_length.
      + apply NoDup_seq.
      + intros i [_ Hi]%elem_of_seq. simpl in Hi.
        split; [by apply has_property_index|].
        split; [|done]. apply has_property_index. lia.
      + intros i [_ Hi]%elem_of_seq. simpl in Hi.
        destruct (Sch.elementType schema) as [le|] eqn:Helt;
          simpl in Ht, Hle; [|done].
        rewrite (lookup_extends stA) in Ht by done.
        apply (Hstable le t elems2 eq_refl Ht Hfinal). lia.
      + exists stB', errorsB', valid. split.
        2:{ eapply second_pass_within; [|exact Hpass].
            intros Hdefined. rewrite <- Hfinal. by apply no_null_get. }
        unfold TypeChecker_array. rewrite Hfinal. simpl.
        rewrite Htemplate, Hlen.
        change (array_loop TC _ _ _ _ _ _ _ true)
          with (array_loop TC (Some (Sch.type t)) (length stB)
                  (seq 0 (length elemsA)) (stB ++ [t]) (VArr elems2) errorsB
                  pathB' true).
        rewrite HB. simpl.
        by rewrite <- Hfinal, set_get_id.
    - destruct elemsA as [|e elemsA]; [|discriminate].
      simpl in Hloop. injection Hloop as <- <- <-.
      exists stB, errorsB, true. split; [|done].
      unfold TypeChecker_array. rewrite Hfinal. simpl. rewrite Htemplate.
      simpl. rewrite parse_fallback_wanted by done.
      by rewrite <- Hfinal, set_get_id. }
  match type of HA with
  | context [array_loop ?a ?b ?c ?d ?e ?f ?g ?h true] =>
      destruct (array_loop a b c d e f g h true)
        as [[[[stA2 final] errorsA2] validA2]| |] eqn:Hloop
  end; simpl in HA; try discriminate.
  injection HA as <- <- <- ->.
  apply (Hmain _ _ _ eq_refl).
  by rewrite Hget, get_set_eq.
Qed.

Lemma isValid_loop_typeof entries :
  ∀ st data errors path valid st' data' errors' valid',
    isValid_loop (isValid_single TC) entries st data errors path valid
      = Val (st', data', errors', valid') →
    typeof data' = typeof data.
Proof.
  induction entries as [|l rest IH];
    intros st data errors path valid st' data' errors' valid'; simpl.
  { by intros [= <- <- <- <-]. }
  destruct valid; [|by apply IH].
  destruct (isValid_single TC st l data errors path)
    as [[[[st1 d1] e1] v1]| |] eqn:E; simpl; try discriminate.
  intros ->%IH.
  destruct (st !! l) as [schema|] eqn:Hst;
    [|unfold isValid_single in E; by rewrite Hst in E].
  by destruct (isValid_single_touches _ _ _ _ _ _ _ _ _ _ _ TC_touches Hst E).
Qed.

Lemma TypeChecker_object_again stA lA schema dataA errorsA pathA
    stA' dataA' errorsA' stB dataB errorsB pathB :
  extends st0 stA → extends st0 stB → stA !! lA = Some schema →
  TypeChecker_object TC stA schema dataA errorsA pathA
    = Val (stA', dataA', errorsA', true) →
  has_property dataA (Sch.name schema) = Some true →
  has_property dataB (Sch.name schema) = Some true →
  get dataB (Sch.name schema) = get dataA' (Sch.name schema) →
  (∀ fs f field,
     Sch.fields schema = Some fs → f ∈ fs → st0 !! f = Some field →
     Stable (Sch.type field) field (get dataB (Sch.name schema))) →
  ∃ stB' errorsB' valid,
    TypeChecker_object TC stB schema dataB errorsB pathB
      = Val (stB', dataB, errorsB', valid) ∧
    second_pass dataB errorsB errorsB' valid.
Proof.
  intros HextA HextB HlA HA HinA HinB Hget Hstable.
  pose proof (cell_refs_below _ _ _ HextA HlA) as [_ Hbelow].
  unfold TypeChecker_object in HA |- *. cbv zeta in HA |- *.
  set (is_object := λ v : Value number, JsType_eqb (typeof v) Tobject) in *.
  set (rawA := get dataA (Sch.name schema)) in HA.
  set (valueA := parse_fallback is_object rawA) in HA.
  change (JsType_eqb (typeof rawA) Tobject) with (is_object rawA) in HA.
  change (JsType_eqb (typeof valueA) Tobject) with (is_object valueA) in HA.
  destruct (negb (is_object rawA) && negb (is_object valueA))
    eqn:Hfail; [discriminate|].
  assert (is_object valueA = true) as HvalueA.
  { destruct (is_object rawA) eqn:Hraw.
    - unfold valueA. by rewrite parse_fallback_wanted.
    - simpl in Hfail. by apply negb_false_iff in Hfail. }
  set (data1 := if negb (is_object rawA)
                then set dataA (Sch.name schema) valueA else dataA) in HA.
  assert (has_property data1 (Sch.name schema) = Some true) as Hin1.
  { unfold data1. destruct (negb _); [|done]. by apply has_property_set_eq. }
  destruct (Sch.fields schema) as [fs|] eqn:Hfs; [|discriminate].
  pose proof (cell_fields_distinct _ _ _ _ HextA HlA Hfs) as Hnodup.
  simpl in HA, Hbelow.
  destruct (isValid_loop (isValid_single TC) fs stA valueA errorsA
              (joinPath pathA (Sch.name schema)) true)
    as [[[[stA2 final] errorsA2] validA2]| |] eqn:Hloop;
    simpl in HA; try discriminate.
  injection HA as <- <- <- ->.
  rewrite get_set_eq in Hget by done.
  assert (is_object final = true) as Hfinal.
  { unfold is_object.
    by rewrite (isValid_loop_typeof _ _ _ _ _ _ _ _ _ _ Hloop). }
  destruct (isValid_loop_again fs stA valueA errorsA
              (joinPath pathA (Sch.name schema)) stA2 final errorsA2
              stB final errorsB (joinPath pathB (Sch.name schema)))
    as (stB' & errorsB' & valid & HB & Hpass); try done.
  { intros f field Hf Hfield. rewrite <- Hget.
    by apply (Hstable fs f field). }
  exists stB', errorsB', valid. split.
  2:{ eapply second_pass_within; [|exact Hpass].
      intros Hdefined. rewrite <- Hget. by apply no_null_get. }
  rewrite Hget, parse_fallback_wanted by done.
  change (JsType_eqb (typeof final) Tobject) with (is_object final).
  rewrite Hfinal. simpl. rewrite HB. simpl.
  by rewrite <- Hget, set_get_id.
Qed.

End Loops.

Lemma TypeChecker_idempotent fuel :
  idempotent (TypeChecker fuel) (stable fuel st0).
Proof.
  induction fuel as [|fuel IH];
    intros ty stA lA schema dataA errorsA pathA stA' dataA' errorsA'
      stB lB dataB errorsB pathB HextA HextB HlA HlB HA HinA HinB Hget
      Hstable; simpl in HA |- *; [discriminate|].
  rewrite HlA in HA. rewrite HlB.
  assert (∀ r : Value number * list (SchemaError number) * bool,
            r = (dataB, errorsB, true) →
            ∃ stB' errorsB' valid,
              lift stB r = Val (stB', dataB, errorsB', valid) ∧
              second_pass dataB errorsB errorsB' valid) as Hprim.
  { intros r ->. by exists stB, errorsB, true. }
  destruct ty.
  - destruct (NumberTypeChecker schema dataA errorsA pathA)
      as [[d e] v] eqn:E. simpl in HA. injection HA as <- <- <- ->.
    apply Hprim. eapply (NumberTypeChecker_again schema dataA); eauto.
  - destruct (NumberTypeChecker schema dataA errorsA pathA)
      as [[d e] v] eqn:E. simpl in HA. injection HA as <- <- <- ->.
    apply Hprim. eapply (NumberTypeChecker_again schema dataA); eauto.
  - destruct (TypeChecker_string schema dataA errorsA pathA)
      as [[[d e] v]| |] eqn:E; simpl in HA; try discriminate.
    injection HA as <- <- <- ->.
    erewrite (TypeChecker_string_again schema dataA); eauto; simpl;
      by exists stB, errorsB, true.
  - destruct (TypeChecker_boolean schema dataA errorsA pathA)
      as [[d e] v] eqn:E. simpl in HA. injection HA as <- <- <- ->.
    apply Hprim. eapply (TypeChecker_boolean_again schema dataA); eauto.
  - destruct (TypeChecker_enum schema dataA errorsA pathA)
      as [[[d e] v]| |] eqn:E; simpl in HA; try discriminate.
    injection HA as <- <- <- ->.
    erewrite (TypeChecker_enum_again schema dataA); eauto; simpl;
      by exists stB, errorsB, true.
  - exact (TypeChecker_array_again (TypeChecker fuel) (stable fuel st0)
             (TypeChecker_frames fuel) (TypeChecker_touches_all fuel) IH
             stA lA schema dataA errorsA pathA stA' dataA' errorsA'
             stB dataB errorsB pathB HextA HextB HlA HA HinA HinB Hget
             Hstable).
  - exact (TypeChecker_object_again (TypeChecker fuel) (stable fuel st0)
             (TypeChecker_frames fuel) (TypeChecker_touches_all fuel) IH
             stA lA schema dataA errorsA pathA stA' dataA' errorsA'
             stB dataB errorsB pathB HextA HextB HlA HA HinA HinB Hget
             Hstable).
Qed.

End Composite.

(** C8, as amended.  Over a heap without dangling references and with
    distinct sibling names, when validating a bag passes and the numbers of
    the coerced bag are fixed points of the parser that produced them (the
    number of an int field of [parseInt], that of a float field of
    [parseFloat], at every depth: [stable]; numbers that no numeric field
    holds are free), validating the coerced bag again returns and leaves
    every value of it unchanged.  The second verdict is true, with nothing
    added to the sink, when the coerced bag holds no [null]; in general it
    is true or comes with one error, a field reported as not found. *)
Theorem revalidation_leaves_bag_unchanged fuel st entries data errors path
    st1 data1 errors1 errors2 path2 :
  JSON_stringify (VUndefined : Value number) = None →
  closed st → distinct_fields st →
  Forall (λ l, l < length st) entries → NoDup (field_names st entries) →
  isValid fuel st (Many entries) data errors path
    = Val (st1, data1, errors1, true) →
  (∀ l schema, l ∈ entries → st !! l = Some schema →
     stable fuel st (Sch.type schema) schema data1) →
  ∃ st2 errors2' valid,
    isValid fuel st1 (Many entries) data1 errors2 path2
      = Val (st2, data1, errors2', valid) ∧
    (if valid then errors2' = errors2
     else ∃ err, errors2' = errors2 ++ [err] ∧
                 Err.description err = "not found") ∧
    (no_null data1 → valid = true).
Proof.
  intros Hundef Hclosed Hdistinct Hbelow Hnodup H1 Hstable.
  unfold isValid in *. simpl in *.
  pose proof H1 as Hframe.
  apply isValid_loop_frames in Hframe; [|apply TypeChecker_frames].
  destruct (isValid_loop_again st (TypeChecker fuel) (stable fuel st)
              (TypeChecker_frames fuel) (TypeChecker_touches_all fuel)
              (TypeChecker_idempotent st Hclosed Hdistinct Hundef fuel)
              entries st data errors path st1 data1 errors1
              st1 data1 errors2 path2 (extends_refl st) Hframe Hbelow Hnodup
              H1) as (st2 & errors2' & valid & H2 & Hpass); [done|done|].
  by exists st2, errors2', valid.
Qed.

End Revalidation.

(** * Enough fuel *)

Section Fuel.
Context {number : Type} {RT : JsRuntime number}.
Implicit Types (st : Heap number) (data value : Value number).
Implicit Types (errors : list (SchemaError number)) (path : string).
Implicit Types (schema : Schema number) (TC : Checker number).

(** Every schema object refers to objects allocated before it, as the
    objects of nested literals do. *)
Definition downward st : Prop :=
  ∀ l schema, st !! l = Some schema → refs_below l schema.

Lemma refs_below_le n m schema :
  n ≤ m → refs_below n schema → refs_below m schema.
Proof.
  intros Hle [Hel Hfs]. split.
  - destruct (Sch.elementType schema); [lia|done].
  - destruct (Sch.fields schema); [|done].
    eapply Forall_impl; [exact Hfs|]. simpl. lia.
Qed.

Lemma downward_extends st st' : downward st → extends st st' → downward st'.
Proof.
  intros Hdown (clones & -> & Hclones) l schema Hl.
  apply lookup_app_Some in Hl as [Hl|[Hle Hl]]; [by apply Hdown|].
  rewrite Forall_lookup in Hclones.
  destruct (Hclones _ _ Hl) as (l0 & s0 & Hl0 & Heq). rewrite Heq.
  apply (refs_below_le l0 l (Sch.set_name (Sch.name schema) s0));
    [|exact (Hdown l0 s0 Hl0)].
  apply lookup_lt_Some in Hl0. lia.
Qed.

Lemma downward_rename st n clone :
  downward st → downward (alter (Sch.set_name n) clone st).
Proof.
  intros Hdown l schema. rewrite list_lookup_alter.
  destruct (decide (clone = l)) as [->|_]; [|apply Hdown].
  destruct (st !! l) as [s|] eqn:Hs; simpl; [|done].
  intros [= <-]. exact (Hdown l s Hs).
Qed.

(** [TC] returns on every schema object whose references are below [n]. *)
Definition enough (n : nat) TC : Prop :=
  ∀ ty st l schema data errors path,
    downward st → st !! l = Some schema → refs_below n schema →
    TC ty st l data errors path ≠ OutOfFuel.

Lemma array_loop_untyped TC clone indices :
  ∀ st value errors path valid,
    array_loop TC None clone indices st value errors path valid ≠ OutOfFuel.
Proof.
  induction indices as [|i rest IH]; intros st value errors path valid; simpl;
    [done|].
  destruct valid; [done|apply IH].
Qed.

Lemma array_loop_returns TC n ty clone indices :
  frames TC → enough n TC →
  ∀ st c value errors path valid,
    downward st → st !! clone = Some c → refs_below n c →
    array_loop TC ty clone indices st value errors path valid ≠ OutOfFuel.
Proof.
  intros Hframes Henough.
  induction indices as [|i rest IH];
    intros st c value errors path valid Hdown Hclone Hrefs; simpl; [done|].
  pose proof (downward_rename st (index_name i) clone Hdown) as Hdown1.
  assert (alter (Sch.set_name (index_name i)) clone st !! clone
          = Some (Sch.set_name (index_name i) c)) as Hclone1.
  { by rewrite list_lookup_alter_eq, Hclone. }
  destruct valid; [|by eapply IH].
  destruct ty as [t|]; [|done].
  destruct (TC t _ clone value errors path)
    as [[[[st1 d1] e1] v1]| |] eqn:E; simpl; [|done|].
  - apply Hframes in E.
    eapply IH; [by eapply downward_extends|by eapply extends_lookup|done].
  - by eapply Henough in E.
Qed.

Lemma isValid_loop_returns TC n entries :
  frames TC → enough n TC → Forall (λ l, l ≤ n) entries →
  ∀ st data errors path valid,
    downward st →
    isValid_loop (isValid_single TC) entries st data errors path valid
    ≠ OutOfFuel.
Proof.
  intros Hframes Henough.
  induction entries as [|l rest IH];
    intros Hbelow st data errors path valid Hdown; simpl; [done|].
  apply Forall_cons in Hbelow as [Hl Hbelow].
  destruct valid; [|by apply IH].
  destruct (isValid_single TC st l data errors path)
    as [[[[st1 d1] e1] v1]| |] eqn:E; simpl; [|done|].
  - apply isValid_single_frames in E; [|done].
    apply IH; [done|]. by eapply downward_extends.
  - exfalso. revert E. unfold isValid_single.
    destruct (st !! l) as [schema|] eqn:Hst; [|done].
    repeat case_match; try done.
    eapply Henough; [done..|].
    eapply refs_below_le; [exact Hl|]. by apply Hdown.
Qed.

Lemma lift_returns st r : lift st r ≠ (OutOfFuel : result (Outcome number)).
Proof. by destruct r as [[d e] v]. Qed.

Lemma TypeChecker_string_returns schema data errors path :
  TypeChecker_string schema data errors path ≠ OutOfFuel.
Proof. unfold TypeChecker_string. intros H. by repeat case_match. Qed.

Lemma TypeChecker_enum_returns schema data errors path :
  TypeChecker_enum schema data errors path ≠ OutOfFuel.
Proof. unfold TypeChecker_enum. intros H. by repeat case_match. Qed.

Lemma TypeChecker_primitive_returns fuel ty st l data errors path :
  ty ≠ T_array → ty ≠ T_object →
  TypeChecker (S fuel) ty st l data errors path ≠ OutOfFuel.
Proof.
  intros Harray Hobject. simpl. destruct (st !! l) as [schema|]; [|done].
  destruct ty; try done; try apply lift_returns.
  - pose proof (TypeChecker_string_returns schema data errors path).
    destruct (TypeChecker_string schema data errors path); try done.
    apply lift_returns.
  - pose proof (TypeChecker_enum_returns schema data errors path).
    destruct (TypeChecker_enum schema data errors path); try done.
    apply lift_returns.
Qed.

Lemma TypeChecker_array_untyped TC st schema data errors path :
  Sch.elementType schema ≫= (st !!.) = None →
  TypeChecker_array TC st schema data errors path ≠ OutOfFuel.
Proof.
  intros Hnone. unfold TypeChecker_array. rewrite Hnone.
  destruct (negb _ && negb _); [done|]. simpl.
  match goal with
  | |- context [array_loop ?a None ?c ?d ?e ?f ?g ?h ?i] =>
      pose proof (array_loop_untyped a c d e f g h i) as Hloop;
      destruct (array_loop a None c d e f g h i) as [[[[st1 d1] e1] v1]| |]
  end; done.
Qed.

Lemma TypeChecker_array_returns TC n st schema data errors path :
  frames TC → enough n TC → downward st → refs_below (S n) schema →
  TypeChecker_array TC st schema data errors path ≠ OutOfFuel.
Proof.
  intros Hframes Henough Hdown [Hel _].
  destruct (Sch.elementType schema ≫= (st !!.)) as [t|] eqn:Ht;
    [|by apply TypeChecker_array_untyped].
  destruct (Sch.elementType schema) as [le|] eqn:Hle; [|done].
  simpl in Ht.
  assert (refs_below n t) as Ht'.
  { apply (refs_below_le le); [lia|]. exact (Hdown le t Ht). }
  unfold TypeChecker_array. rewrite Hle. simpl. rewrite Ht.
  destruct (negb _ && negb _); [done|]. simpl.
  match goal with
  | |- context [array_loop ?a ?b ?c ?d ?e ?f ?g ?h ?i] =>
      pose proof (array_loop_returns a n b c d Hframes Henough e t f g h i)
        as Hloop;
      destruct (array_loop a b c d e f g h i) as [[[[st1 d1] e1] v1]| |]
  end; try done.
  apply Hloop; [|by rewrite lookup_app_r, Nat.sub_diag|done].
  eapply downward_extends; [done|]. by eapply extends_alloc.
Qed.

Lemma TypeChecker_object_returns TC n st schema data errors path :
  frames TC → enough n TC → downward st → refs_below (S n) schema →
  TypeChecker_object TC st schema data errors path ≠ OutOfFuel.
Proof.
  intros Hframes Henough Hdown [_ Hfs].
  unfold TypeChecker_object. cbv zeta.
  destruct (negb _ && negb _); [done|].
  destruct (Sch.fields schema) as [fs|]; [|done].
  unfold isValid_with.
  match goal with
  | |- context [isValid_loop ?a ?b ?c ?d ?e ?f ?g] =>
      pose proof (isValid_loop_returns TC n fs Hframes Henough) as Hloop;
      destruct (isValid_loop a b c d e f g) as [[[[st1 d1] e1] v1]| |] eqn:E
  end; try done.
  intros _. eapply Hloop; [|done|exact E].
  eapply Forall_impl; [exact Hfs|]. simpl. lia.
Qed.

Lemma TypeChecker_enough n : enough n (TypeChecker (S n)).
Proof.
  induction n as [|n IH];
    intros ty st l schema data errors path Hdown Hl Hrefs;
    destruct ty; try (by apply TypeChecker_primitive_returns).
  - simpl. rewrite Hl. apply TypeChecker_array_untyped.
    destruct Hrefs as [Hel _].
    destruct (Sch.elementType schema); [lia|done].
  - simpl. rewrite Hl. unfold TypeChecker_object. cbv zeta.
    destruct (negb _ && negb _); [done|].
    destruct Hrefs as [_ Hfs].
    destruct (Sch.fields schema) as [[|f fs]|]; [done| |done].
    apply Forall_cons in Hfs as [Hf _]. lia.
  - change (TypeChecker (S (S n)) T_array st l data errors path)
      with (match st !! l with
            | None => TypeError
            | Some schema =>
                TypeChecker_array (TypeChecker (S n)) st schema data errors path
            end).
    rewrite Hl.
    by apply (TypeChecker_array_returns _ n); [apply TypeChecker_frames|..].
  - change (TypeChecker (S (S n)) T_object st l data errors path)
      with (match st !! l with
            | None => TypeError
            | Some schema =>
                TypeChecker_object (TypeChecker (S n)) st schema data errors
                                   path
            end).
    rewrite Hl.
    by apply (TypeChecker_object_returns _ n); [apply TypeChecker_frames|..].
Qed.

(** X21. Validation against schemas that refer downward returns (a verdict
    or a TypeError) as soon as the fuel exceeds the size of the heap. *)
Theorem validation_returns fuel st entries data errors path :
  downward st → Forall (λ l, l < length st) entries → length st < fuel →
  isValid fuel st (Many entries) data errors path ≠ OutOfFuel.
Proof.
  intros Hdown Hentries Hfuel.
  destruct fuel as [|n]; [lia|].
  unfold isValid. simpl.
  apply (isValid_loop_returns (TypeChecker (S n)) n);
    [apply TypeChecker_frames|apply TypeChecker_enough| |done].
  eapply Forall_impl; [exact Hentries|]. simpl. lia.
Qed.

End Fuel.

(** ** C8 on the executable runtime *)

Definition quoted (s : string) : string :=
  String Js.dquote s ++ String Js.dquote EmptyString.

(** [{n: int, tags: string[], user: {age: int}}] *)
Definition profile : Heap Js.num :=
  [NumericSchema "n" T_int None None None;
   StringSchema EmptyString None None None None;
   ArraySchema "tags" 1 None;
   NumericSchema "age" T_int None None None;
   ObjectSchema "user" [3] None].

Definition raw_profile : Value Js.num :=
  VObj [("n", VStr "5");
        ("tags", VStr ("[" ++ quoted "a" ++ "," ++ quoted "b" ++ "]"));
        ("user", VObj [("age", VStr "7")])].

Definition coerced_profile : Value Js.num :=
  VObj [("n", int 5);
        ("tags", VArr [VStr "a"; VStr "b"]);
        ("user", VObj [("age", int 7)])].

(** [{x: float, n: int}]; the coerced bag holds 1e21 under the float
    field [x], which [parseFloat] maps to itself, and under [seen], which
    no schema names. *)
Definition reading : Heap Js.num :=
  [NumericSchema "x" T_float None None None;
   NumericSchema "n" T_int None None None].

Definition raw_reading : Value Js.num :=
  VObj [("x", VStr "1e21"); ("n", VStr "5"); ("seen", VNum (Js.Fin 1 21))].

Definition coerced_reading : Value Js.num :=
  VObj [("x", VNum (Js.Fin 1 21)); ("n", int 5);
        ("seen", VNum (Js.Fin 1 21))].

Lemma revalidation_leaves_bag_unchanged_witness :
  (∃ st2 errors2 valid,
     isValid 3
       (profile ++ [StringSchema "1" None None None None])
       (Many [0; 2; 4]) coerced_profile [] EmptyString
     = Val (st2, coerced_profile, errors2, valid) ∧
     (if valid then errors2 = []
      else ∃ err, errors2 = [] ++ [err] ∧
                  Err.description err = "not found") ∧
     (no_null coerced_profile → valid = true)) ∧
  (∃ st2 errors2 valid,
     isValid 3 reading (Many [0; 1]) coerced_reading [] EmptyString
     = Val (st2, coerced_reading, errors2, valid) ∧
     (if valid then errors2 = []
      else ∃ err, errors2 = [] ++ [err] ∧
                  Err.description err = "not found") ∧
     (no_null coerced_reading → valid = true)).
Proof.
  split.
  - apply (revalidation_leaves_bag_unchanged 3 profile [0; 2; 4] raw_profile
             [] EmptyString
             (profile ++ [StringSchema "1" None None None None])
             coerced_profile [] [] EmptyString).
    + reflexivity.
    + unfold closed. simpl. repeat constructor.
    + unfold distinct_fields. simpl. repeat constructor.
      apply not_elem_of_nil.
    + repeat constructor.
    + simpl.
      repeat first
        [ apply NoDup_nil_2 | apply NoDup_cons_2 | apply not_elem_of_nil
        | apply not_elem_of_cons; split; [discriminate|] ].
    + reflexivity.
    + intros l schema Hl.
      repeat (apply elem_of_cons in Hl as [->|Hl]);
        [| | |by apply elem_of_nil in Hl]; intros [= <-].
      * intros n [= <-]. reflexivity.
      * intros le t elems [= <-] [= <-] _ i _. exact I.
      * intros fs f field [= <-] Hf.
        apply list_elem_of_singleton in Hf as ->.
        intros [= <-] n [= <-]. reflexivity.
  - apply (revalidation_leaves_bag_unchanged 3 reading [0; 1] raw_reading
             [] EmptyString reading coerced_reading [] [] EmptyString).
    + reflexivity.
    + unfold closed. simpl. repeat constructor.
    + unfold distinct_fields. simpl. repeat constructor.
    + repeat constructor.
    + simpl.
      repeat first
        [ apply NoDup_nil_2 | apply NoDup_cons_2 | apply not_elem_of_nil
        | apply not_elem_of_cons; split; [discriminate|] ].
    + reflexivity.
    + intros l schema Hl.
      repeat (apply elem_of_cons in Hl as [->|Hl]);
        [| |by apply elem_of_nil in Hl]; intros [= <-];
        intros n [= <-]; reflexivity.
Defined.

(** ** Enough fuel for [profile] *)

Lemma validation_returns_witness :
  isValid 6 profile (Many [0; 2; 4]) raw_profile [] EmptyString ≠ OutOfFuel.
Proof.
  apply validation_returns.
  - intros l schema.
    do 5 (destruct l as [|l];
          [intros [= <-]; split; simpl; repeat constructor; lia|]).
    done.
  - repeat constructor; simpl; lia.
  - simpl. lia.
Defined.

(** * What a validated bag is like *)

(** The names that an object or an array answers to without having been
    given them: the properties of [Object.prototype], and [length] and the
    properties of [Array.prototype] (ECMAScript 2023).  The operator [in]
    and a property read find them through the prototype chain, which
    [has_property] and [get] do not follow.  What is stated below of a
    property that the bag lacks is stated of schemas whose names are none
    of these. *)
Definition built_in_names : list string :=
  ["constructor"; "hasOwnProperty"; "isPrototypeOf"; "propertyIsEnumerable";
   "toLocaleString"; "toString"; "valueOf"; "__proto__"; "__defineGetter__";
   "__defineSetter__"; "__lookupGetter__"; "__lookupSetter__";
   "length"; "at"; "concat"; "copyWithin"; "entries"; "every"; "fill";
   "filter"; "find"; "findIndex"; "findLast"; "findLastIndex"; "flat";
   "flatMap"; "forEach"; "includes"; "indexOf"; "join"; "keys";
   "lastIndexOf"; "map"; "pop"; "push"; "reduce"; "reduceRight"; "reverse";
   "shift"; "slice"; "some"; "sort"; "splice"; "toReversed"; "toSorted";
   "toSpliced"; "unshift"; "values"; "with"].

(** No schema object of the heap is named as a built-in property is. *)
Definition plain_names {number} (st : Heap number) : Prop :=
  Forall (λ schema, Sch.name schema ∉ built_in_names) st.

Section Validated.
Context {number : Type} {RT : JsRuntime number}.
Implicit Types (st : Heap number) (data value : Value number).
Implicit Types (errors : list (SchemaError number)) (path : string).
Implicit Types (schema : Schema number) (TC : Checker number).

#[local] Arguments TypeChecker : simpl never.

Lemma has_property_set data n x k :
  has_property data n = Some true →
  has_property (set data n x) k = has_property data k.
Proof.
  intros Hin. destruct (String.eqb n k) eqn:E.
  - apply String.eqb_eq in E as <-. by rewrite has_property_set_eq.
  - apply String.eqb_neq in E. by apply has_property_set_ne.
Qed.

Lemma isValid_single_keeps_keys fuel st l data errors path
    st' data' errors' valid k :
  isValid_single (TypeChecker fuel) st l data errors path
    = Val (st', data', errors', valid) →
  has_property data' k = has_property data k.
Proof.
  unfold isValid_single.
  destruct (st !! l) as [schema|] eqn:Hl; [|done].
  destruct (has_property data (Sch.name schema)) as [present|] eqn:Hin;
    [|done].
  destruct (negb present || _ || _) eqn:Hmissing.
  - case_bool_decide; by intros [= <- <- <- <-].
  - apply orb_false_iff in Hmissing as [[Hp _]%orb_false_iff _].
    apply negb_false_iff in Hp as ->.
    intros H.
    destruct (TypeChecker_touches _ _ _ _ _ _ _ _ _ _ _ _ Hl H)
      as [->|[x ->]]; [done|].
    by apply has_property_set.
Qed.

Lemma isValid_loop_keeps_keys fuel entries :
  ∀ st data errors path valid st' data' errors' valid' k,
    isValid_loop (isValid_single (TypeChecker fuel)) entries st data errors
                 path valid
      = Val (st', data', errors', valid') →
    has_property data' k = has_property data k.
Proof.
  induction entries as [|l rest IH];
    intros st data errors path valid st' data' errors' valid' k; simpl.
  { by intros [= <- <- <- <-]. }
  destruct valid; [|by apply IH].
  destruct (isValid_single (TypeChecker fuel) st l data errors path)
    as [[[[st1 d1] e1] v1]| |] eqn:E; simpl; try done.
  intros ->%(IH _ _ _ _ _ _ _ _ _ k).
  by eapply isValid_single_keeps_keys.
Qed.

(** X5. Against schemas with plain names, validation never adds a property
    to the bag and never removes one: the bag has the same names afterwards,
    whatever the verdict. *)
Theorem validation_keeps_keys fuel st arg data errors path
    st' data' errors' valid k :
  plain_names st →
  isValid fuel st arg data errors path = Val (st', data', errors', valid) →
  has_property data' k = has_property data k.
Proof.
  intros _. unfold isValid. destruct arg as [l|entries]; simpl.
  - apply isValid_single_keeps_keys.
  - apply isValid_loop_keeps_keys.
Qed.

(** X6. A property that no entry of the schema sequence names goes through
    validation as it is: unknown properties are neither rejected nor
    stripped. *)
Theorem unnamed_properties_pass_through fuel st entries data errors path
    st' data' errors' valid k :
  Forall (λ l, l < length st) entries →
  Some k ∉ field_names st entries →
  isValid fuel st (Many entries) data errors path
    = Val (st', data', errors', valid) →
  get data' k = get data k.
Proof.
  intros Hbelow Hk H. unfold isValid in H. simpl in H.
  by destruct (isValid_loop_same_but st (TypeChecker fuel)
                 (TypeChecker_frames fuel) (TypeChecker_touches_all fuel)
                 entries st data errors path true st' data' errors' valid k
                 (extends_refl st) Hbelow Hk H) as (_ & Hget & _).
Qed.

(** X7. Optional fields with plain names that the bag lacks (the property is
    absent, [null] or [undefined]) pass without being looked at: a sequence
    of such entries leaves schemas, bag and sink as they are and returns
    true, whatever the types of the entries. *)
Theorem absent_optional_fields_pass fuel st entries props errors path :
  Forall (λ l, ∃ schema,
            st !! l = Some schema ∧ Sch.optional schema = Some true ∧
            (Sch.name schema ∉ built_in_names) ∧
            (get (VObj props) (Sch.name schema) = VUndefined ∨
             get (VObj props) (Sch.name schema) = VNull)) entries →
  isValid fuel st (Many entries) (VObj props) errors path
  = Val (st, VObj props, errors, true).
Proof.
  unfold isValid, isValid_with.
  induction entries as [|l rest IH]; intros Hall; [done|].
  apply Forall_cons in Hall as [(schema & Hl & Hopt & _ & Hget) Hall].
  assert (isValid_single (TypeChecker fuel) st l (VObj props) errors path
          = Val (st, VObj props, errors, true)) as Hsingle.
  { unfold isValid_single. rewrite Hl. cbn [has_property].
    set (present := bool_decide _).
    assert (negb present
            || is_null (get (VObj props) (Sch.name schema))
            || is_undefined (get (VObj props) (Sch.name schema)) = true)
      as ->.
    { destruct Hget as [-> | ->]; simpl;
        [apply orb_true_r|by rewrite orb_true_r]. }
    by rewrite bool_decide_eq_true_2. }
  cbn [isValid_loop]. rewrite Hsingle. simpl. by apply IH.
Qed.

(** X8. A required field with a plain name that the bag lacks (the property
    is absent, [null] or [undefined]) fails with the one error [not found],
    recorded with the type of the schema and the value found; the checker
    of the type is not run. *)
Theorem missing_required_field_is_not_found fuel st l schema props errors
    path :
  st !! l = Some schema → Sch.optional schema ≠ Some true →
  Sch.name schema ∉ built_in_names →
  let value := get (VObj props) (Sch.name schema) in
  value = VUndefined ∨ value = VNull →
  isValid fuel st (One l) (VObj props) errors path
  = Val (st, VObj props,
         errors ++ [Err.mk (joinPath path (Sch.name schema))
                           (Sch.type schema) value "not found"],
         false).
Proof.
  intros Hl Hrequired _ value Hvalue. unfold isValid, isValid_with.
  unfold isValid_single. rewrite Hl. cbn [has_property].
  set (present := bool_decide _). fold value.
  assert (negb present || is_null value || is_undefined value = true) as ->.
  { destruct Hvalue as [-> | ->]; simpl;
      [apply orb_true_r|by rewrite orb_true_r]. }
  by rewrite bool_decide_eq_false_2.
Qed.

Lemma isValid_loop_passes_prefix TC pre post st data errors path
    st' data' errors' :
  isValid_loop (isValid_single TC) (pre ++ post) st data errors path true
    = Val (st', data', errors', true) →
  ∃ st1 data1 errors1,
    isValid_loop (isValid_single TC) pre st data errors path true
      = Val (st1, data1, errors1, true) ∧
    isValid_loop (isValid_single TC) post st1 data1 errors1 path true
      = Val (st', data', errors', true).
Proof.
  rewrite isValid_loop_app.
  destruct (isValid_loop (isValid_single TC) pre st data errors path true)
    as [[[[st1 d1] e1] v1]| |]; simpl; try done.
  destruct v1; [by eauto|]. by rewrite isValid_loop_false.
Qed.

Lemma required_fields_present fuel st entries data errors path
    st' data' errors' l schema :
  isValid_loop (isValid_single (TypeChecker fuel)) entries st data errors
               path true
    = Val (st', data', errors', true) →
  l ∈ entries → st !! l = Some schema → Sch.optional schema ≠ Some true →
  has_property data (Sch.name schema) = Some true ∧
  has_property data' (Sch.name schema) = Some true.
Proof.
  intros H Hl Hschema Hrequired.
  rewrite (isValid_loop_keeps_keys _ _ _ _ _ _ _ _ _ _ _
             (Sch.name schema) H).
  cut (has_property data (Sch.name schema) = Some true); [done|].
  apply list_elem_of_split in Hl as (pre & post & ->).
  apply isValid_loop_passes_prefix in H
    as (st1 & data1 & errors1 & Hpre & Hrest).
  rewrite <- (isValid_loop_keeps_keys _ _ _ _ _ _ _ _ _ _ _
                (Sch.name schema) Hpre).
  apply isValid_loop_frames in Hpre; [|apply TypeChecker_frames].
  simpl in Hrest.
  destruct (isValid_single (TypeChecker fuel) st1 l data1 errors1 path)
    as [[[[st2 d2] e2] v2]| |] eqn:E; simpl in Hrest; try done.
  destruct v2; [|by rewrite isValid_loop_false in Hrest].
  revert E. unfold isValid_single.
  rewrite (extends_lookup _ _ _ _ Hpre Hschema).
  destruct (has_property data1 (Sch.name schema)) as [present|]; [|done].
  destruct (negb present || _ || _) eqn:Hmissing.
  - by rewrite bool_decide_eq_false_2.
  - apply orb_false_iff in Hmissing as [[Hp _]%orb_false_iff _].
    by apply negb_false_iff in Hp as ->.
Qed.

(** X9. Against schemas with plain names, a bag that passes has every
    required field: each entry of the sequence that is not optional names a
    property that the bag had and still has. *)
Theorem passing_bag_has_required_fields fuel st entries data errors path
    st' data' errors' l schema :
  plain_names st →
  isValid fuel st (Many entries) data errors path
    = Val (st', data', errors', true) →
  l ∈ entries → st !! l = Some schema → Sch.optional schema ≠ Some true →
  has_property data (Sch.name schema) = Some true ∧
  has_property data' (Sch.name schema) = Some true.
Proof.
  intros _ H Hl Hschema Hrequired. unfold isValid in H. simpl in H.
  by eapply required_fields_present.
Qed.

(** X10. A numeric field of a bag that passes holds a number: the result of
    parsing the raw value, which is no NaN and within the bounds that the
    schema sets. (Sibling entries have distinct names, so that no other
    entry rewrites the field.) *)
Theorem numeric_field_holds_checked_number fuel st entries data errors path
    st' data' errors' l schema :
  Forall (λ l, l < length st) entries → NoDup (field_names st entries) →
  isValid fuel st (Many entries) data errors path
    = Val (st', data', errors', true) →
  l ∈ entries → st !! l = Some schema →
  Sch.type schema = T_int ∨ Sch.type schema = T_float →
  has_property data (Sch.name schema) = Some true →
  is_null (get data (Sch.name schema)) = false →
  is_undefined (get data (Sch.name schema)) = false →
  let parsed := parser_of schema (get data (Sch.name schema)) in
  get data' (Sch.name schema) = VNum parsed ∧
  num_isNaN parsed = false ∧
  (bound_set (Sch.min schema) = true →
     lt_bound parsed (Sch.min schema) = false) ∧
  (bound_set (Sch.max schema) = true →
     gt_bound parsed (Sch.max schema) = false).
Proof.
  intros Hbelow Hnodup H Hl Hschema Hty Hin Hnull Hundef parsed.
  unfold isValid in H. simpl in H.
  apply list_elem_of_split in Hl as (pre & post & ->).
  apply Forall_app in Hbelow as [Hpre_below Hpost_below].
  apply Forall_cons in Hpost_below as [Hl_below Hpost_below].
  unfold field_names in Hnodup. rewrite map_app in Hnodup. simpl in Hnodup.
  apply NoDup_app in Hnodup as (_ & Hfresh_pre & Hnodup).
  apply NoDup_cons in Hnodup as [Hfresh_post _].
  rewrite Hschema in Hfresh_pre, Hfresh_post. simpl in *.
  apply isValid_loop_passes_prefix in H
    as (st1 & data1 & errors1 & Hpre & Hrest).
  assert (Some (Sch.name schema) ∉ field_names st pre) as Hpre_name.
  { intros Helem. by apply (Hfresh_pre _ Helem), list_elem_of_here. }
  destruct (isValid_loop_same_but st (TypeChecker fuel)
              (TypeChecker_frames fuel) (TypeChecker_touches_all fuel)
              pre st data errors path true st1 data1 errors1 true
              (Sch.name schema) (extends_refl st) Hpre_below Hpre_name Hpre)
    as (_ & Hget1 & Hin1).
  apply isValid_loop_frames in Hpre; [|apply TypeChecker_frames].
  simpl in Hrest.
  destruct (isValid_single (TypeChecker fuel) st1 l data1 errors1 path)
    as [[[[st2 d2] e2] v2]| |] eqn:E; simpl in Hrest; try done.
  destruct v2; [|by rewrite isValid_loop_false in Hrest].
  pose proof E as Hframe. apply isValid_single_frames in Hframe;
    [|apply TypeChecker_frames].
  destruct (isValid_loop_same_but st (TypeChecker fuel)
              (TypeChecker_frames fuel) (TypeChecker_touches_all fuel)
              post st2 d2 e2 path true st' data' errors' true
              (Sch.name schema) (extends_trans _ _ _ Hpre Hframe)
              Hpost_below Hfresh_post Hrest)
    as (_ & Hget2 & _).
  rewrite Hget2. clear Hrest Hget2.
  rewrite (isValid_single_present _ _ _ schema) in E.
  2: by apply (extends_lookup st).
  2: by rewrite Hin1.
  2, 3: by rewrite Hget1.
  destruct fuel as [|fuel]; [done|].
  assert (lift st1 (NumberTypeChecker schema data1 errors1 path)
          = Val (st2, d2, e2, true)) as Hcall.
  { revert E. unfold TypeChecker.
    rewrite (extends_lookup _ _ _ _ Hpre Hschema).
    by destruct Hty as [->| ->]. }
  clear E. revert Hcall. unfold NumberTypeChecker.
  rewrite Hget1.
  replace (match Sch.type schema with
           | T_int => parseInt (get data (Sch.name schema))
           | _ => parseFloat (get data (Sch.name schema))
           end) with parsed
    by (unfold parsed, parser_of; by destruct (Sch.type schema)).
  destruct (num_isNaN parsed); [done|].
  destruct (bound_set (Sch.min schema) && lt_bound parsed (Sch.min schema))
    eqn:Hmin; [done|].
  destruct (bound_set (Sch.max schema) && gt_bound parsed (Sch.max schema))
    eqn:Hmax; [done|].
  simpl. intros [= _ <- _].
  rewrite get_set_eq by by rewrite Hin1.
  split; [done|]. split; [done|].
  split; intros Hset; [rewrite Hset in Hmin|rewrite Hset in Hmax]; done.
Qed.

End Validated.

(** * What the checkers accept and what they store *)

Section Checkers.
Context {number : Type} {RT : JsRuntime number}.
Implicit Types (st : Heap number) (data value : Value number).
Implicit Types (errors : list (SchemaError number)) (path : string).
Implicit Types (schema : Schema number).

#[local] Arguments TypeChecker : simpl never.

(** X11. Bounds are inclusive: a value that parses to the number that is
    both [min] and [max] passes and is stored. *)
Theorem bounds_are_inclusive schema data errors path x :
  parser_of schema (get data (Sch.name schema)) = x →
  num_isNaN x = false → num_lt x x = false →
  Sch.min schema = Some x → Sch.max schema = Some x →
  NumberTypeChecker schema data errors path
  = (set data (Sch.name schema) (VNum x), errors, true).
Proof.
  intros Hparse Hnan Hlt Hmin Hmax. unfold NumberTypeChecker.
  replace (match Sch.type schema with
           | T_int => parseInt (get data (Sch.name schema))
           | _ => parseFloat (get data (Sch.name schema))
           end) with x
    by (rewrite <- Hparse; unfold parser_of; by destruct (Sch.type schema)).
  rewrite Hnan, Hmin, Hmax. cbn [lt_bound gt_bound].
  by rewrite Hlt, !andb_false_r.
Qed.

(** X12. An exact [length] of zero is not a constraint: where [min_length]
    and [max_length] of zero are enforced, a schema whose only constraint is
    [length: 0] accepts every string. *)
Theorem zero_length_is_not_enforced schema data errors path z s :
  num_eq z num_zero = true → Sch.length schema = Some z →
  Sch.min_length schema = None → Sch.max_length schema = None →
  get data (Sch.name schema) = VStr s →
  TypeChecker_string schema data errors path
  = Val (set data (Sch.name schema) (VStr s), errors, true).
Proof.
  intros Hz Hlen Hmin Hmax Hget. unfold TypeChecker_string.
  rewrite Hget, Hlen, Hmin, Hmax. cbn [typeof JsType_eqb negb].
  cbv iota. unfold bound_truthy, num_truthy. by rewrite Hz.
Qed.

(** X13. When the string checker passes, the sink is untouched and the
    field holds what the checker measured: the raw string, or
    [JSON.stringify] of a raw value that is no string.  Where that is a
    text, its length meets every constraint of the schema.  Where
    [JSON.stringify] yields [undefined], the field is set to [undefined];
    this happens only under a schema that sets no constraint on the
    length. *)
Theorem string_field_holds_checked_text schema data errors path
    data' errors' :
  let raw := get data (Sch.name schema) in
  TypeChecker_string schema data errors path = Val (data', errors', true) →
  errors' = errors ∧
  ((∃ s,
      data' = set data (Sch.name schema) (VStr s) ∧
      (if JsType_eqb (typeof raw) Tstring then raw = VStr s
       else JSON_stringify raw = Some s) ∧
      let len := num_of_nat (String.length s) in
      (bound_truthy (Sch.length schema) = true →
         ∃ n, Sch.length schema = Some n ∧ num_eq len n = true) ∧
      (bound_set (Sch.min_length schema) = true →
         lt_bound len (Sch.min_length schema) = false) ∧
      (bound_set (Sch.max_length schema) = true →
         gt_bound len (Sch.max_length schema) = false))
   ∨
   (data' = set data (Sch.name schema) VUndefined ∧
    typeof raw ≠ Tstring ∧ JSON_stringify raw = None ∧
    bound_truthy (Sch.length schema) = false ∧
    bound_set (Sch.min_length schema) = false ∧
    bound_set (Sch.max_length schema) = false)).
Proof.
  intros raw. unfold TypeChecker_string. fold raw.
  assert ((∃ s, (if negb (JsType_eqb (typeof raw) Tstring)
                 then match JSON_stringify raw with
                      | Some s => VStr s
                      | None => VUndefined
                      end
                 else raw) = VStr s ∧
                (if JsType_eqb (typeof raw) Tstring then raw = VStr s
                 else JSON_stringify raw = Some s))
          ∨
          ((if negb (JsType_eqb (typeof raw) Tstring)
            then match JSON_stringify raw with
                 | Some s => VStr s
                 | None => VUndefined
                 end
            else raw) = VUndefined ∧
           typeof raw ≠ Tstring ∧ JSON_stringify raw = None))
    as [(s & -> & Hs)|(-> & Hty & Hnone)].
  { destruct (JsType_eqb (typeof raw) Tstring) eqn:Hstring; simpl.
    - left. destruct raw as [| | | |s| |]; try done. by exists s.
    - destruct (JSON_stringify raw) as [s|]; [left; by exists s|].
      right. split; [done|]. split; [|done].
      intros Hty. by rewrite Hty in Hstring. }
  - cbn [length_of]. intros H.
    destruct (bound_truthy (Sch.length schema)) eqn:Hlen.
    + destruct (Sch.length schema) as [n|] eqn:Hn; [|done].
      destruct (num_eq (num_of_nat (String.length s)) n) eqn:Heq;
        [|done]. cbn [negb] in H. cbv iota in H.
      destruct (bound_set (Sch.min_length schema)),
        (bound_set (Sch.max_length schema));
        repeat case_match; simplify_eq; (split; [done|]); left; exists s;
        repeat split; eauto; done.
    + destruct (bound_set (Sch.min_length schema)),
        (bound_set (Sch.max_length schema));
        repeat case_match; simplify_eq; (split; [done|]); left; exists s;
        repeat split; eauto; done.
  - cbn [length_of].
    destruct (bound_truthy (Sch.length schema)); [done|].
    destruct (bound_set (Sch.min_length schema)); [done|].
    destruct (bound_set (Sch.max_length schema)); [done|].
    intros [= <- <-]. split; [done|]. by right.
Qed.

(** X14. What the boolean checker accepts of a string: [true] and [false],
    and [0] and [1] unless the schema has [allowNumeric: false]; the
    comparison is exact, so no other spelling passes. *)
Theorem boolean_checker_accepts_text schema data errors path s :
  get data (Sch.name schema) = VStr s →
  (TypeChecker_boolean schema data errors path).2 = true ↔
  s = "true" ∨ s = "false" ∨
  (Sch.allowNumeric schema ≠ Some false ∧ (s = "0" ∨ s = "1")).
Proof.
  intros Hget. unfold TypeChecker_boolean. rewrite Hget.
  assert (includes
            ([VBool true; VBool false; VStr "true"; VStr "false"] ++
             (if negb (bool_decide (Sch.allowNumeric schema = Some false))
              then [VNum num_zero; VNum num_one; VStr "0"; VStr "1"]
              else [])) (VStr s)
          = String.eqb "true" s || String.eqb "false" s
            || (negb (bool_decide (Sch.allowNumeric schema = Some false))
                && (String.eqb "0" s || String.eqb "1" s))) as ->.
  { destruct (negb _); cbn [app includes existsb SameValueZero strict_eq];
      destruct (String.eqb "true" s), (String.eqb "false" s),
        (String.eqb "0" s), (String.eqb "1" s); done. }
  destruct (String.eqb_spec "true" s) as [<-|Ht]; [by split; eauto|].
  destruct (String.eqb_spec "false" s) as [<-|Hf]; [by split; eauto|].
  case_bool_decide as Hallow; cbn [negb andb orb].
  { split; [done|]. intros [?|[?|[? _]]]; done. }
  destruct (String.eqb_spec "0" s) as [<-|H0]; [by split; eauto 6|].
  destruct (String.eqb_spec "1" s) as [<-|H1]; [by split; eauto 6|].
  cbn. split; [done|]. intros [?|[?|[_ [?|?]]]]; done.
Qed.

(** X15. The enum checker compares and never converts: whatever the verdict,
    the bag and the schemas are as they were. *)
Theorem enum_checker_never_rewrites fuel st l schema data errors path
    st' data' errors' valid :
  st !! l = Some schema → Sch.type schema = T_enum →
  isValid fuel st (One l) data errors path
    = Val (st', data', errors', valid) →
  st' = st ∧ data' = data.
Proof.
  intros Hl Hty. unfold isValid. simpl. unfold isValid_single.
  rewrite Hl, Hty.
  destruct (has_property data (Sch.name schema)) as [present|]; [|done].
  destruct (negb present || _ || _).
  { case_bool_decide; by intros [= <- <- _ _]. }
  destruct fuel as [|fuel]; [done|]. unfold TypeChecker. rewrite Hl.
  destruct (TypeChecker_enum schema data errors path)
    as [[[d e] v]| |] eqn:E; simpl; try done.
  intros [= <- <- <- <-]. split; [done|].
  revert E. unfold TypeChecker_enum.
  repeat case_match; try done; by intros [= <- _ _].
Qed.

(** X16. An empty array passes whatever the element schema is, and is left
    in the bag as it is. *)
Theorem empty_array_passes fuel st l schema data errors path :
  st !! l = Some schema →
  has_property data (Sch.name schema) = Some true →
  get data (Sch.name schema) = VArr [] →
  ∃ st', TypeChecker (S fuel) T_array st l data errors path
         = Val (st', data, errors, true).
Proof.
  intros Hl Hin Hget. rewrite (TypeChecker_array_eq _ _ _ schema) by done.
  unfold TypeChecker_array, parse_fallback. rewrite Hget. simpl.
  rewrite <- Hget, set_get_id by done. by eexists.
Qed.

(** X17. An object checker with at least one field throws a TypeError when
    the value is [null] (an element of an array can be), or a text that
    parses to [null]: [null] counts as an object, and the presence test of
    the first field fails on it. *)
Theorem null_object_throws fuel st l schema data errors path f fs fschema :
  st !! l = Some schema →
  Sch.fields schema = Some (f :: fs) → st !! f = Some fschema →
  (get data (Sch.name schema) = VNull ∨
   ∃ s, get data (Sch.name schema) = VStr s ∧ JSON_parse s = Some VNull) →
  TypeChecker (S fuel) T_object st l data errors path = TypeError.
Proof.
  intros Hl Hfields Hf Hnull.
  rewrite (TypeChecker_object_eq _ _ _ schema) by done.
  unfold TypeChecker_object, parse_fallback.
  destruct Hnull as [->|(s & -> & ->)]; simpl;
    rewrite Hfields; simpl; unfold isValid_single; by rewrite Hf.
Qed.

(** X18. A JSON text is validated exactly as the value it denotes: the array
    checker on a text that parses to an array, and the object checker on a
    text that parses to an object, return what they return on the bag that
    holds the parsed value in place of the text. *)
Theorem json_text_is_validated_as_its_value fuel st l schema data errors
    path s parsed :
  st !! l = Some schema →
  has_property data (Sch.name schema) = Some true →
  get data (Sch.name schema) = VStr s → JSON_parse s = Some parsed →
  let data' := set data (Sch.name schema) parsed in
  (Array_isArray parsed = true →
     TypeChecker fuel T_array st l data errors path
     = TypeChecker fuel T_array st l data' errors path) ∧
  (typeof parsed = Tobject →
     TypeChecker fuel T_object st l data errors path
     = TypeChecker fuel T_object st l data' errors path).
Proof.
  intros Hl Hin Hget Hparse data'. unfold data'.
  destruct fuel as [|fuel]; [done|]. unfold TypeChecker. fold TypeChecker.
  rewrite Hl.
  split; intros Hwanted.
  - unfold TypeChecker_array, parse_fallback.
    rewrite get_set_eq, Hget, Hparse, Hwanted by done. simpl.
    by rewrite Hwanted.
  - unfold TypeChecker_object, parse_fallback.
    rewrite get_set_eq, Hget, Hparse, Hwanted by done. simpl.
    by rewrite Hwanted.
Qed.

(** ** Arrays of numbers *)

Lemma numeric_loop_passes fuel clone elems :
  ∀ st c done errors path,
    st !! clone = Some c → is_numeric c →
    Forall (λ x, num_isNaN (parser_of c x) = false) elems →
    ∃ st',
      array_loop (TypeChecker (S fuel)) (Some (Sch.type c)) clone
                 (seq (length done) (length elems)) st
                 (VArr (done ++ elems)) errors path true
      = Val (st', VArr (done ++ map (λ x, VNum (parser_of c x)) elems),
             errors, true).
Proof.
  induction elems as [|x elems IH]; intros st c done errors path
    Hclone Hnum Hall.
  { simpl. by eexists. }
  apply Forall_cons in Hall as [Hx Hall].
  simpl length. simpl seq. simpl array_loop.
  set (st1 := alter (Sch.set_name (index_name (length done))) clone st).
  assert (st1 !! clone = Some (Sch.set_name (index_name (length done)) c))
    as Hc1.
  { unfold st1. by rewrite list_lookup_alter_eq, Hclone. }
  pose proof (TypeChecker_numeric fuel st1 clone _
                (VArr (done ++ x :: elems)) errors path Hc1
                (is_numeric_rename _ _ Hnum)) as Hcall.
  simpl in Hcall. rewrite Hcall. clear Hcall.
  assert (array_index (index_name (length done))
                      (length (done ++ x :: elems)) = Some (length done))
    as Hidx.
  { apply array_index_name. rewrite length_app. simpl. lia. }
  rewrite Hidx, list_lookup_middle by done. simpl.
  change (parser_of (Sch.set_name (index_name (length done)) c))
    with (parser_of c).
  rewrite Hx. simpl.
  replace (<[length done:=VNum (parser_of c x)]> (done ++ x :: elems))
    with ((done ++ [VNum (parser_of c x)]) ++ elems).
  2:{ rewrite <- (Nat.add_0_r (length done)) at 1.
      rewrite insert_app_r. simpl. by rewrite <- app_assoc. }
  replace (S (length done)) with (length (done ++ [VNum (parser_of c x)]))
    by (rewrite length_app; simpl; lia).
  destruct (IH st1 (Sch.set_name (index_name (length done)) c)
              (done ++ [VNum (parser_of c x)]) errors path
              Hc1 (is_numeric_rename _ _ Hnum) Hall) as [st' Hst'].
  change (Sch.type (Sch.set_name (index_name (length done)) c))
    with (Sch.type c) in Hst'.
  exists st'. rewrite Hst'. by rewrite <- !app_assoc.
Qed.

(** X19. An array of unbounded numbers whose elements all parse passes, and
    every element is replaced by the number it parses to. *)
Theorem numeric_array_is_coerced_elementwise fuel st l array le element data
    elems errors path :
  st !! l = Some array → Sch.elementType array = Some le →
  st !! le = Some element → is_numeric element →
  has_property data (Sch.name array) = Some true →
  get data (Sch.name array) = VArr elems →
  Forall (λ x, num_isNaN (parser_of element x) = false) elems →
  ∃ st',
    TypeChecker (S (S fuel)) T_array st l data errors path
    = Val (st',
           set data (Sch.name array)
               (VArr (map (λ x, VNum (parser_of element x)) elems)),
           errors, true).
Proof.
  intros Hl Hle Helem Hnum Hin Hget Hall.
  rewrite (TypeChecker_array_eq _ _ _ array) by done.
  unfold TypeChecker_array, parse_fallback. rewrite Hget, Hle. simpl.
  rewrite Helem. simpl.
  assert ((st ++ [element]) !! length st = Some element) as Hclone.
  { by rewrite lookup_app_r, Nat.sub_diag. }
  match goal with
  | |- context [array_loop _ _ _ _ _ _ errors ?p true] =>
      destruct (numeric_loop_passes fuel (length st) elems (st ++ [element])
                  element [] errors p Hclone Hnum Hall) as [st' Hloop]
  end.
  simpl in Hloop. rewrite Hloop. simpl. by exists st'.
Qed.

(** X20. The array checker builds the path of its elements with a dot, also
    under a path that ends with a bracket. So the error for element [j] of
    an array that is element 0 of the array [a] is named [a[.0[j]]: the
    bracket of the outer array is not closed before the dot. *)
Theorem nested_array_error_path fuel st l outer li inner le element data
    pre v post rest errors :
  st !! l = Some outer → Sch.type outer = T_array →
  Sch.elementType outer = Some li →
  st !! li = Some inner → Sch.type inner = T_array →
  Sch.elementType inner = Some le →
  st !! le = Some element → is_numeric element →
  has_property data (Sch.name outer) = Some true →
  get data (Sch.name outer) = VArr (VArr (pre ++ v :: post) :: rest) →
  Forall (λ x, num_isNaN (parser_of element x) = false) pre →
  num_isNaN (parser_of element v) = true →
  ∃ st' data',
    isValid (S (S (S fuel))) st (One l) data errors EmptyString
    = Val (st', data',
           errors ++ [Err.mk (Sch.name outer ++ "[.0["
                                ++ index_name (length pre) ++ "]")%string
                             (Sch.type element) v "not a number"],
           false).
Proof.
  intros Hl Hty Hli Hinner Hity Hle Helem Hnum Hin Hget Hpre Hv.
  unfold isValid. simpl.
  rewrite (isValid_single_present _ _ _ outer) by (done || by rewrite Hget).
  rewrite Hty, (TypeChecker_array_eq _ _ _ outer) by done.
  unfold TypeChecker_array, parse_fallback. rewrite Hget, Hli. simpl.
  rewrite Hinner. simpl. rewrite Hity.
  set (st1 := alter (Sch.set_name (index_name 0)) (length st)
                    (st ++ [inner])).
  assert (st1 !! length st = Some (Sch.set_name (index_name 0) inner))
    as Hclone.
  { unfold st1.
    by rewrite list_lookup_alter_eq, lookup_app_r, Nat.sub_diag. }
  assert (st1 !! le = Some element) as Hle1.
  { unfold st1. pose proof (lookup_lt_Some _ _ _ Helem).
    rewrite list_lookup_alter_ne by lia. by rewrite lookup_app_l. }
  destruct (numeric_array_fails fuel st1 (length st) _ le element
              (VArr (VArr (pre ++ v :: post) :: rest)) pre v post errors
              (Sch.name outer ++ "[")%string Hclone Hle Hle1 Hnum eq_refl
              Hpre Hv) as [st2 Hcall].
  rewrite Hcall. simpl.
  match goal with
  | |- context [array_loop ?a ?b ?c ?d ?e ?f ?g ?h false] =>
      destruct (array_loop_false a b c d e f g h) as [st3 ->]
  end.
  simpl. eexists _, _. do 3 f_equal.
  rewrite append_bracket_not_empty. simpl.
  replace ((Sch.name outer ++ "[") ++ ".0[")%string
    with ((Sch.name outer ++ "[.0") ++ "[")%string
    by by rewrite !append_assoc.
  rewrite joinPath_bracket. by rewrite !append_assoc.
Qed.

End Checkers.

(** * The middleware

    [SchemaValidator(schema, onError)] and [mergeReqData] (lines 68-96).
    The request is read through its three sources; what the middleware
    does to request and response is its [Reply].  The callback acts on
    the rest of the world, request and response included, and is taken
    not to write to the error array it is handed, nor to the values of
    the request, which the bag shares.

    [_.assign] copies references: an array or an object of [req.body] or
    [req.query] is the very one that the bag holds, and the array and
    object checkers coerce its elements and fields in place.  A [Request]
    is what the middleware reads, and a [Reply] is [req.data] or what was
    sent; what has become of [req.body] and [req.query] once the
    middleware has run is not modelled, and nothing below is stated of
    it. *)

Section Middleware.
Context {number : Type} {RT : JsRuntime number}.
Implicit Types (st : Heap number) (data value source : Value number).
Implicit Types (errors : list (SchemaError number)).
Implicit Types (props target : list (string * Value number)).

(** The strings of [schema.type]. *)
Definition type_name (type : SchemaType) : string :=
  match type with
  | T_int => "int"
  | T_float => "float"
  | T_string => "string"
  | T_boolean => "boolean"
  | T_enum => "enum"
  | T_array => "array"
  | T_object => "object"
  end.

(** The object that [pushError] pushes (lines 101-106). *)
Definition error_value (err : SchemaError number) : Value number :=
  VObj [("name", VStr (Err.name err));
        ("type", VStr (type_name (Err.type err)));
        ("value", Err.value err);
        ("description", VStr (Err.description err))].

(** Truthiness of a value. *)
Definition truthy value : bool :=
  match value with
  | VUndefined | VNull => false
  | VBool b => b
  | VNum x => num_truthy x
  | VStr s => negb (String.eqb s EmptyString)
  | VArr _ | VObj _ => true
  end.

(** The own enumerable properties that [_.assign] copies from a source:
    those of an object, the elements of an array and the characters of a
    string under their indices, none of another primitive. *)
Definition own_properties source : list (string * Value number) :=
  match source with
  | VObj props => props
  | VArr elems => imap (λ i v, (index_name i, v)) elems
  | VStr s =>
      imap (λ i c, (index_name i, VStr (String c EmptyString)))
           (list_ascii_of_string s)
  | _ => []
  end.

(** [_.assign(target, source)]: a source that is falsy is skipped; a
    later assignment to a name overwrites the earlier one in place. *)
Definition assign target source : list (string * Value number) :=
  if truthy source then
    fold_left (λ t p, assoc_set (fst p) (snd p) t) (own_properties source)
              target
  else target.

(** What the middleware reads of a request: the route parameters and
    the parsed query string, which are objects, and the body, which is
    whatever the body parser left, [undefined] without one. *)
Record Request := {
  params : list (string * Value number);
  query : list (string * Value number);
  body : Value number
}.

(** [mergeReqData(req)], lines 92-96.  The properties of the bag are
    listed in the order of their first assignment. *)
Definition mergeReqData (req : Request) : Value number :=
  VObj (assign (assign (assign [] (VObj (params req))) (VObj (query req)))
               (body req)).

(** What the middleware does with a request: it stores the bag as
    [req.data] and calls [next()], or it answers
    [res.status(code).send(payload).statusMessage = message]. *)
Inductive Reply :=
| Next (data : Value number)
| Sent (code : nat) (payload : Value number) (statusMessage : string).

(** [onError(errors, req, res)]: a change of the world and the value
    returned. *)
Definition Callback (W : Type) : Type :=
  list (SchemaError number) → W → W * Value number.

(** The closure that [SchemaValidator(schema, onError)] returns, lines
    69-89; [DEBUG] is [process.env.DEBUG]. *)
Definition SchemaValidator {W : Type} (fuel : nat) (st : Heap number)
    (schema : list loc) (onError : option (Callback W))
    (DEBUG : option string) (req : Request) (w : W) : result (W * Reply) :=
  let reqData := mergeReqData req in
  let includeErrors :=
    match DEBUG with Some s => String.eqb s "true" | None => false end in
  '(_, reqData, errors, valid) ←
     isValid fuel st (Many schema) reqData [] EmptyString;
  let rescue : W * bool :=
    match onError with
    | Some callback =>
        let (w, returned) := callback errors w in (w, truthy returned)
    | None => (w, false)
    end in
  let (w, doNext) := if (valid : bool) then (w, true) else rescue in
  if negb doNext then
    let returningErrors :=
      if includeErrors then VArr (map error_value errors) else VUndefined in
    Val (w, Sent 400
              (VObj [("code", VNum (num_of_nat 400));
                     ("error_code", VStr "EBADPARAM");
                     ("message", VStr "bad request");
                     ("data", returningErrors)])
              "bad request")
  else Val (w, Next reqData).

(** ** What [mergeReqData] yields *)

Lemma assoc_get_fold props :
  ∀ target k,
    NoDup (map fst props) →
    assoc_get k (fold_left (λ t p, assoc_set (fst p) (snd p) t) props target)
    = match assoc_get k props with
      | Some v => Some v
      | None => assoc_get k target
      end.
Proof.
  induction props as [|[k0 v0] rest IH]; intros target k Hnodup; simpl;
    [done|].
  apply NoDup_cons in Hnodup as [Hfresh Hnodup].
  rewrite IH by done.
  destruct (String.eqb k0 k) eqn:Hk.
  - apply String.eqb_eq in Hk as ->.
    assert (assoc_get k rest = None) as ->.
    { clear -Hfresh. induction rest as [|[k1 v1] rest IH]; simpl; [done|].
      apply not_elem_of_cons in Hfresh as [Hne Hfresh].
      destruct (String.eqb k1 k) eqn:E; [|by apply IH].
      apply String.eqb_eq in E. by subst. }
    apply assoc_get_set_eq.
  - apply String.eqb_neq in Hk.
    destruct (assoc_get k rest); [done|].
    by apply assoc_get_set_ne.
Qed.

(** A source that [mergeReqData] reads as a set of named values: an object,
    or nothing at all, as [req.body] is without a body parser. *)
Definition mergeable source : Prop :=
  match source with
  | VObj props => NoDup (map fst props)
  | VUndefined | VNull => True
  | _ => False
  end.

Lemma assoc_get_assign target source k :
  mergeable source →
  assoc_get k (assign target source)
  = if bool_decide (has_property source k = Some true)
    then Some (get source k) else assoc_get k target.
Proof.
  destruct source as [| | | | | |props]; try done. simpl.
  intros Hnodup. unfold assign. simpl. rewrite assoc_get_fold by done.
  by destruct (assoc_get k props) as [v|].
Qed.

(** X1. The later source wins: a name is looked up in the body first, then
    in the query, then in the route parameters; a name that none of them has
    is absent from the bag. *)
Theorem mergeReqData_precedence req k :
  mergeable (VObj (params req)) → mergeable (VObj (query req)) →
  mergeable (body req) →
  let has source := bool_decide (has_property source k = Some true) in
  has_property (mergeReqData req) k
    = Some (has (body req) || has (VObj (query req))
            || has (VObj (params req))) ∧
  get (mergeReqData req) k
    = if has (body req) then get (body req) k
      else if has (VObj (query req)) then get (VObj (query req)) k
      else get (VObj (params req)) k.
Proof.
  intros Hp Hq Hb has. unfold mergeReqData. cbn [has_property get].
  rewrite !assoc_get_assign by done. fold (has (body req)).
  fold (has (VObj (query req))). fold (has (VObj (params req))).
  destruct (has (body req)) eqn:Hbody; [by split|].
  destruct (has (VObj (query req))) eqn:Hquery; [by split|].
  unfold has in *. cbn [has_property get] in *.
  destruct (assoc_get k (params req)) as [v|]; simpl; split; try done.
Qed.

(** ** What the middleware replies *)

(** X2. A request that the middleware answers itself is answered with status
    400 and the fixed payload; its [data] is the error array, which holds
    exactly one error, when [DEBUG] is the string [true], and is [undefined]
    otherwise. *)
Theorem rejected_request_reply {W} fuel st schema
    (onError : option (Callback W)) DEBUG req (w w' : W) code payload
    message :
  SchemaValidator fuel st schema onError DEBUG req w
    = Val (w', Sent code payload message) →
  code = 400 ∧ message = "bad request" ∧
  get payload "code" = VNum (num_of_nat 400) ∧
  get payload "error_code" = VStr "EBADPARAM" ∧
  get payload "message" = VStr "bad request" ∧
  (DEBUG = Some "true" →
     ∃ err, get payload "data" = VArr [error_value err]) ∧
  (DEBUG ≠ Some "true" → get payload "data" = VUndefined).
Proof.
  unfold SchemaValidator.
  destruct (isValid fuel st (Many schema) (mergeReqData req) [] EmptyString)
    as [[[[st' data'] errors'] valid]| |] eqn:E; simpl; try discriminate.
  unfold isValid in E.
  apply isValid_with_reports in E; [|apply TypeChecker_reports].
  destruct valid; simpl; [discriminate|].
  destruct E as [err ->]. simpl.
  assert (∀ w0 : W,
    Val (w0, Sent 400
               (VObj [("code", VNum (num_of_nat 400));
                      ("error_code", VStr "EBADPARAM");
                      ("message", VStr "bad request");
                      ("data",
                       if match DEBUG with
                          | Some s => String.eqb s "true"
                          | None => false
                          end
                       then VArr [error_value err] else VUndefined)])
               "bad request")
    = Val (w', Sent code payload message) →
    code = 400 ∧ message = "bad request" ∧
    get payload "code" = VNum (num_of_nat 400) ∧
    get payload "error_code" = VStr "EBADPARAM" ∧
    get payload "message" = VStr "bad request" ∧
    (DEBUG = Some "true" →
       ∃ err, get payload "data" = VArr [error_value err]) ∧
    (DEBUG ≠ Some "true" → get payload "data" = VUndefined)) as Hsent.
  { intros w0 [= _ <- <- <-]. do 5 (split; [done|]).
    destruct DEBUG as [s|]; [|done].
    destruct (String.eqb s "true") eqn:Hs.
    - apply String.eqb_eq in Hs as ->. split; [|done]. by exists err.
    - apply String.eqb_neq in Hs. split; [|done]. by intros [= ->]. }
  destruct onError as [callback|]; [|apply Hsent].
  destruct (callback [err] w) as [w1 returned].
  destruct (truthy returned); simpl; [discriminate|apply Hsent].
Qed.

(** X3. Without a callback, a request reaches [next()] only if it passed
    validation: against schemas with plain names, the bag stored as
    [req.data] then has every required field of the schema sequence, as
    the merged request had. *)
Theorem forwarded_request_has_required_fields {W} fuel st schema DEBUG req
    (w w' : W) data l entry :
  plain_names st →
  SchemaValidator fuel st schema None DEBUG req w = Val (w', Next data) →
  l ∈ schema → st !! l = Some entry → Sch.optional entry ≠ Some true →
  has_property (mergeReqData req) (Sch.name entry) = Some true ∧
  has_property data (Sch.name entry) = Some true.
Proof.
  intros _. unfold SchemaValidator.
  destruct (isValid fuel st (Many schema) (mergeReqData req) [] EmptyString)
    as [[[[st' data'] errors'] valid]| |] eqn:E; try discriminate.
  destruct valid; [|discriminate].
  intros [= <- <-] Hl Hentry Hrequired.
  exact (required_fields_present _ _ _ _ _ _ _ _ _ _ _ E Hl Hentry
           Hrequired).
Qed.

(** X4. When validation fails, the value the callback returns decides: a
    truthy value hands the request on, with the bag as the failed validation
    left it as [req.data]; any other value, [undefined] included, and the
    absence of a callback, make the middleware answer 400. *)
Theorem callback_return_decides {W} fuel st schema
    (onError : option (Callback W)) DEBUG req (w : W) st' data errors :
  isValid fuel st (Many schema) (mergeReqData req) [] EmptyString
    = Val (st', data, errors, false) →
  match onError with
  | Some callback =>
      let (w', returned) := callback errors w in
      if truthy returned
      then SchemaValidator fuel st schema onError DEBUG req w
           = Val (w', Next data)
      else ∃ payload,
           SchemaValidator fuel st schema onError DEBUG req w
           = Val (w', Sent 400 payload "bad request")
  | None =>
      ∃ payload,
        SchemaValidator fuel st schema onError DEBUG req w
        = Val (w, Sent 400 payload "bad request")
  end.
Proof.
  intros H. unfold SchemaValidator. rewrite H. simpl.
  destruct onError as [callback|]; [|by eexists].
  destruct (callback errors w) as [w' returned].
  destruct (truthy returned); simpl; [done|by eexists].
Qed.

End Middleware.

Arguments Request : clear implicits.
Arguments Reply : clear implicits.
Arguments Callback : clear implicits.

(** * The further properties on the executable runtime *)

Ltac distinct_names :=
  repeat first
    [ apply NoDup_nil_2 | apply NoDup_cons_2 | apply not_elem_of_nil
    | apply not_elem_of_cons; split; [discriminate|] ].

Ltac plain :=
  repeat first
    [ apply Forall_nil_2 | apply Forall_cons_2 | apply not_elem_of_nil
    | apply not_elem_of_cons; split; [discriminate|] ].

(** A request to [/users/7?id=8&q=x] with the body [{id: 9}] in JSON. *)
Definition request_789 : Request Js.num :=
  {| params := [("id", VStr "7")];
     query := [("id", VStr "8"); ("q", VStr "x")];
     body := VObj [("id", int 9)] |}.

Lemma mergeReqData_precedence_witness :
  (has_property (mergeReqData request_789) "id" = Some true ∧
   get (mergeReqData request_789) "id" = int 9) ∧
  (has_property (mergeReqData request_789) "q" = Some true ∧
   get (mergeReqData request_789) "q" = VStr "x").
Proof.
  split.
  - apply (mergeReqData_precedence request_789 "id"); simpl; distinct_names.
  - apply (mergeReqData_precedence request_789 "q"); simpl; distinct_names.
Defined.

(** The request whose body is [bag]. *)
Definition post (bag : Value Js.num) : Request Js.num :=
  {| params := []; query := []; body := bag |}.

Definition bag_12 : Value Js.num := VObj [("a", VStr "1"); ("b", VStr "2")].

(** The payload of the answer to [post bag_xy] in debug mode. *)
Definition bad_request : Value Js.num :=
  VObj [("code", VNum (Js.of_nat 400));
        ("error_code", VStr "EBADPARAM");
        ("message", VStr "bad request");
        ("data",
         VArr [error_value (error "a" T_int (VStr "x") "not a number")])].

Lemma rejected_request_reply_witness :
  ∃ err, get bad_request "data" = VArr [error_value err].
Proof.
  assert (SchemaValidator 1 two_ints [0; 1] None (Some "true") (post bag_xy)
                          tt
          = Val (tt, Sent 400 bad_request "bad request")) as Hrun
    by reflexivity.
  destruct (rejected_request_reply 1 two_ints [0; 1] None (Some "true")
              (post bag_xy) tt tt 400 bad_request "bad request" Hrun)
    as (_ & _ & _ & _ & _ & Hdebug & _).
  exact (Hdebug eq_refl).
Defined.

Lemma forwarded_request_has_required_fields_witness :
  has_property (mergeReqData (post bag_12)) "b" = Some true ∧
  has_property (VObj [("a", int 1); ("b", int 2)]) "b" = Some true.
Proof.
  apply (forwarded_request_has_required_fields 1 two_ints [0; 1] None
           (post bag_12) tt tt (VObj [("a", int 1); ("b", int 2)]) 1
           (NumericSchema "b" T_int None None None));
    [unfold plain_names, two_ints; simpl; plain|reflexivity|
    |reflexivity|discriminate].
  apply list_elem_of_further, list_elem_of_here.
Defined.

(** A callback that counts its calls and asks to go on. *)
Definition go_on : Callback Js.num nat :=
  λ errors calls, (S calls, VBool true).

Lemma callback_return_decides_witness :
  SchemaValidator 1 two_ints [0; 1] (Some go_on) None (post bag_xy) 0
  = Val (1, Next bag_xy).
Proof.
  exact (callback_return_decides 1 two_ints [0; 1] (Some go_on) None
           (post bag_xy) 0 two_ints bag_xy
           [error "a" T_int (VStr "x") "not a number"] eq_refl).
Defined.

Definition bag_12z : Value Js.num :=
  VObj [("a", VStr "1"); ("b", VStr "2"); ("c", VStr "z")].

Definition bag_12z_coerced : Value Js.num :=
  VObj [("a", int 1); ("b", int 2); ("c", VStr "z")].

Lemma validation_keeps_keys_witness :
  has_property bag_12z_coerced "d" = has_property bag_12z "d".
Proof.
  apply (validation_keeps_keys 1 two_ints (Many [0; 1]) bag_12z []
           EmptyString two_ints bag_12z_coerced [] true "d");
    [unfold plain_names, two_ints; simpl; plain|reflexivity].
Defined.

Lemma unnamed_properties_pass_through_witness :
  get bag_12z_coerced "c" = get bag_12z "c".
Proof.
  apply (unnamed_properties_pass_through 1 two_ints [0; 1] bag_12z []
           EmptyString two_ints bag_12z_coerced [] true "c");
    [repeat constructor| |reflexivity].
  simpl. repeat (apply not_elem_of_cons; split; [discriminate|]).
  apply not_elem_of_nil.
Defined.

(** [{page?: int, tags?: int[]}] *)
Definition paging : Heap Js.num :=
  [NumericSchema "page" T_int None None (Some true);
   ArraySchema "tags" 0 (Some true)].

Lemma absent_optional_fields_pass_witness :
  isValid 0 paging (Many [0; 1]) (VObj [("q", VStr "x"); ("page", VNull)])
          [] EmptyString
  = Val (paging, VObj [("q", VStr "x"); ("page", VNull)], [], true).
Proof.
  apply (absent_optional_fields_pass 0 paging [0; 1]
           [("q", VStr "x"); ("page", VNull)] [] EmptyString).
  repeat apply Forall_cons_2; [| |apply Forall_nil_2].
  - eexists. split; [reflexivity|]. split; [reflexivity|].
    split; [simpl; plain|by right].
  - eexists. split; [reflexivity|]. split; [reflexivity|].
    split; [simpl; plain|by left].
Defined.

Lemma missing_required_field_is_not_found_witness :
  isValid 0 two_ints (One 1) (VObj [("a", VStr "1")]) [] EmptyString
  = Val (two_ints, VObj [("a", VStr "1")],
         [error "b" T_int VUndefined "not found"], false).
Proof.
  apply (missing_required_field_is_not_found 0 two_ints 1
           (NumericSchema "b" T_int None None None) [("a", VStr "1")] []
           EmptyString);
    [reflexivity|discriminate|simpl; plain|by left].
Defined.

Lemma passing_bag_has_required_fields_witness :
  has_property bag_12 "b" = Some true ∧
  has_property (VObj [("a", int 1); ("b", int 2)]) "b" = Some true.
Proof.
  apply (passing_bag_has_required_fields 1 two_ints [0; 1] bag_12 []
           EmptyString two_ints (VObj [("a", int 1); ("b", int 2)]) [] 1
           (NumericSchema "b" T_int None None None));
    [unfold plain_names, two_ints; simpl; plain|reflexivity|
    |reflexivity|discriminate].
  apply list_elem_of_further, list_elem_of_here.
Defined.

(** [{limit: int, min: 1, max: 100}] *)
Definition limit : Schema Js.num :=
  NumericSchema "limit" T_int (Some (Js.Fin 1 0)) (Some (Js.Fin 1 2)) None.

Lemma numeric_field_holds_checked_number_witness :
  get (VObj [("limit", int 25)]) "limit" = int 25 ∧
  Js.lt (Js.Fin 25 0) (Js.Fin 1 0) = false ∧
  Js.lt (Js.Fin 1 2) (Js.Fin 25 0) = false.
Proof.
  destruct (numeric_field_holds_checked_number 1 [limit] [0]
              (VObj [("limit", VStr "25")]) [] EmptyString
              [limit] (VObj [("limit", int 25)]) [] 0 limit)
    as (Hget & _ & Hmin & Hmax);
    try reflexivity.
  - repeat constructor.
  - simpl. distinct_names.
  - apply list_elem_of_here.
  - by left.
  - split; [exact Hget|]. split; [exact (Hmin eq_refl)|exact (Hmax eq_refl)].
Defined.

Lemma bounds_are_inclusive_witness :
  NumberTypeChecker
    (NumericSchema "n" T_int (Some (Js.Fin 5 0)) (Some (Js.Fin 5 0)) None)
    (VObj [("n", VStr "5")]) [] EmptyString
  = (VObj [("n", int 5)], [], true).
Proof.
  apply (bounds_are_inclusive
           (NumericSchema "n" T_int (Some (Js.Fin 5 0)) (Some (Js.Fin 5 0))
                          None)
           (VObj [("n", VStr "5")]) [] EmptyString (Js.Fin 5 0));
    reflexivity.
Defined.

Lemma zero_length_is_not_enforced_witness :
  TypeChecker_string (StringSchema "s" (Some (Js.Fin 0 0)) None None None)
                     (VObj [("s", VStr "abc")]) [] EmptyString
  = Val (VObj [("s", VStr "abc")], [], true).
Proof.
  apply (zero_length_is_not_enforced
           (StringSchema "s" (Some (Js.Fin 0 0)) None None None)
           (VObj [("s", VStr "abc")]) [] EmptyString (Js.Fin 0 0) "abc");
    reflexivity.
Defined.

(** [{zip: string, length: 5}] *)
Definition zip : Schema Js.num :=
  StringSchema "zip" (Some (Js.Fin 5 0)) None None None.

Lemma string_field_holds_checked_text_witness :
  ∃ s, VObj [("zip", VStr "12345")] = set (VObj [("zip", int 12345)]) "zip"
                                          (VStr s) ∧
       Js.stringify (int 12345) = Some s ∧
       Js.eq (Js.of_nat (String.length s)) (Js.Fin 5 0) = true.
Proof.
  destruct (string_field_holds_checked_text zip (VObj [("zip", int 12345)])
              [] EmptyString (VObj [("zip", VStr "12345")]) [])
    as (_ & [(s & Hbag & Htext & Hlen & _)|(_ & _ & Hnone & _)]).
  - reflexivity.
  - exists s. split; [exact Hbag|]. split; [exact Htext|].
    destruct (Hlen eq_refl) as (n & [= <-] & Heq). exact Heq.
  - discriminate Hnone.
Defined.

Lemma boolean_checker_accepts_text_witness :
  (TypeChecker_boolean (BooleanSchema "flag" None None)
                       (VObj [("flag", VStr "1")]) [] EmptyString).2 = true ↔
  "1" = "true" ∨ "1" = "false" ∨
  (None ≠ Some false ∧ ("1" = "0" ∨ "1" = "1")).
Proof.
  apply (boolean_checker_accepts_text (BooleanSchema "flag" None None)
           (VObj [("flag", VStr "1")]) [] EmptyString "1").
  reflexivity.
Defined.

Definition level_1 : Value Js.num := VObj [("level", VStr "1")].

Lemma enum_checker_never_rewrites_witness :
  [one_or_two] = [one_or_two] ∧ level_1 = level_1.
Proof.
  apply (enum_checker_never_rewrites 1 [one_or_two] 0 one_or_two level_1 []
           EmptyString [one_or_two] level_1
           [error "level" T_enum (VStr "1")
                  "invalid symbol, valid symbols : [1, 2]"]
           false);
    reflexivity.
Defined.

Lemma empty_array_passes_witness :
  ∃ st', TypeChecker 1 T_array array_of_ints 1 (bag_ids []) [] EmptyString
         = Val (st', bag_ids [], [], true).
Proof.
  apply (empty_array_passes 0 array_of_ints 1 (ArraySchema "ids" 0 None)
           (bag_ids []) [] EmptyString);
    reflexivity.
Defined.

Lemma null_object_throws_witness :
  TypeChecker 1 T_object user_with_age 1 (VObj [("user", VStr "null")]) []
              EmptyString
  = TypeError.
Proof.
  apply (null_object_throws 0 user_with_age 1 (ObjectSchema "user" [0] None)
           (VObj [("user", VStr "null")]) [] EmptyString 0 []
           (NumericSchema "age" T_int None None None));
    try reflexivity.
  right. exists "null". split; reflexivity.
Defined.

Lemma json_text_is_validated_as_its_value_witness :
  TypeChecker 2 T_array array_of_ints 1 (VObj [("ids", VStr "[1,2]")]) []
              EmptyString
  = TypeChecker 2 T_array array_of_ints 1 (bag_ids [int 1; int 2]) []
                EmptyString.
Proof.
  destruct (json_text_is_validated_as_its_value 2 array_of_ints 1
              (ArraySchema "ids" 0 None) (VObj [("ids", VStr "[1,2]")]) []
              EmptyString "[1,2]" (VArr [int 1; int 2]))
    as [Harray _];
    [reflexivity|reflexivity|reflexivity|reflexivity|].
  exact (Harray eq_refl).
Defined.

Lemma numeric_array_is_coerced_elementwise_witness :
  ∃ st', TypeChecker 2 T_array array_of_ints 1
                     (bag_ids [VStr "1"; VStr "2"]) [] EmptyString
         = Val (st', bag_ids [int 1; int 2], [], true).
Proof.
  destruct (numeric_array_is_coerced_elementwise 0 array_of_ints 1
              (ArraySchema "ids" 0 None) 0
              (NumericSchema EmptyString T_int None None None)
              (bag_ids [VStr "1"; VStr "2"]) [VStr "1"; VStr "2"] []
              EmptyString) as [st' Hrun];
    [reflexivity|reflexivity|reflexivity| |reflexivity|reflexivity| |].
  - split; [by left|by split].
  - repeat constructor.
  - exists st'. exact Hrun.
Defined.

(** [{m: int[][]}] *)
Definition matrix : Heap Js.num :=
  [NumericSchema EmptyString T_int None None None;
   ArraySchema EmptyString 0 None;
   ArraySchema "m" 1 None].

Lemma nested_array_error_path_witness :
  ∃ st' data',
    isValid 3 matrix (One 2)
            (VObj [("m", VArr [VArr [VStr "1"; VStr "x"]; VArr [VStr "2"]])])
            [] EmptyString
    = Val (st', data',
           [] ++ [error "m[.0[1]" T_int (VStr "x") "not a number"], false).
Proof.
  destruct (nested_array_error_path 0 matrix 2 (ArraySchema "m" 1 None) 1
              (ArraySchema EmptyString 0 None) 0
              (NumericSchema EmptyString T_int None None None)
              (VObj [("m", VArr [VArr [VStr "1"; VStr "x"]; VArr [VStr "2"]])])
              [VStr "1"] (VStr "x") [] [VArr [VStr "2"]] [])
    as (st' & data' & Hrun);
    [reflexivity|reflexivity|reflexivity|reflexivity|reflexivity|reflexivity
    |reflexivity| |reflexivity|reflexivity| |reflexivity|].
  - split; [by left|by split].
  - repeat constructor.
  - exists st', data'. exact Hrun.
Defined.
